(** * git_stage.py: the hunk transformation engine

    A shallow embedding of
    [skills/git-commit/scripts/git_stage.py]: the parser of unified diffs
    ([parse_unified_diff]), the change grouper
    ([split_into_change_groups]), the edit-format codec
    ([format_updates_file], [parse_updates_file]), the conflict validator
    ([validate_hunks]), [sort_hunks], the patch replayer ([apply_hunks])
    and the two commands ([cmd_updates], [cmd_apply]).

    Python values are modelled as follows.
    - [int] is [Z].
    - [str] is [string]; a character is a code point below 256 ([ascii]).
    - [list[str]] is [list string]; where the identity of a list object
      matters (the replayer works on a copy of its argument), lists live in
      a heap [gmap loc (list string)] and are passed by location.
    - a raised [ValueError] is the [Err] case of the type [outcome].
    - the file system and git are parameters of the commands; what a
      command does to them is a list of events. *)

From Stdlib Require Import ZArith String Ascii List Lia Bool.
From Stdlib Require Import DecimalString DecimalN Permutation Sorted.
From stdpp Require Import base option list strings gmap.

Local Open Scope Z_scope.

(** ** Python primitives *)

(** Truth value of a list: [if xs:] holds when [xs] is not empty. *)
Definition truthy {A} (xs : list A) : bool :=
  match xs with
  | [] => false
  | _ :: _ => true
  end.

(** [s.startswith(p)]. *)
Fixpoint startswith (p s : string) : bool :=
  match p, s with
  | EmptyString, _ => true
  | String a p', String b s' => Ascii.eqb a b && startswith p' s'
  | String _ _, EmptyString => false
  end.

(** [s[1:]]: everything after the first character. *)
Definition tail1 (s : string) : string :=
  match s with
  | EmptyString => EmptyString
  | String _ t => t
  end.

(** The line feed character and the one-character string ["\n"]. *)
Definition LF : ascii := Ascii.ascii_of_nat 10.
Definition nl : string := String LF EmptyString.

(** ** Data types *)

Module Hunk.
Record t := mk {
  old_start : Z;
  old_count : Z;
  new_start : Z;
  new_count : Z;
  lines : list string
}.
End Hunk.

Module ChangeGroup.
Record t := mk {
  old_line : Z;
  old_lines : list string;
  new_lines : list string
}.
End ChangeGroup.

Module UpdateHunk.
Record t := mk {
  old_line : Z;
  old_lines : list string;
  new_lines : list string
}.
End UpdateHunk.

(** ** The change grouper *)

(** The local variables of [split_into_change_groups]. *)
Module Split.
Record state := mk {
  groups : list ChangeGroup.t;
  old_lines : list string;
  new_lines : list string;
  old_line : Z;
  current_old_line : Z
}.
End Split.

(** [groups.append(ChangeGroup(...))] followed by the reset of the buffers,
    when a group is open. The flush after the loop appends in the same way
    (the buffers are not read again after it). *)
Definition finalize (st : Split.state) : Split.state :=
  if truthy (Split.old_lines st) || truthy (Split.new_lines st) then
    Split.mk
      (Split.groups st ++
         [ChangeGroup.mk (Split.old_line st) (Split.old_lines st)
            (Split.new_lines st)])
      [] [] 0 (Split.current_old_line st)
  else st.

(** One iteration of [for line in hunk.lines]. *)
Definition split_step (st : Split.state) (line : string) : Split.state :=
  if startswith " " line then
    let st' := finalize st in
    Split.mk (Split.groups st') (Split.old_lines st') (Split.new_lines st')
      (Split.old_line st') (Split.current_old_line st' + 1)
  else if startswith "-" line then
    let old_line' :=
      if negb (truthy (Split.old_lines st)) &&
         negb (truthy (Split.new_lines st))
      then Split.current_old_line st
      else Split.old_line st in
    Split.mk (Split.groups st) (Split.old_lines st ++ [tail1 line])
      (Split.new_lines st) old_line' (Split.current_old_line st + 1)
  else if startswith "+" line then
    Split.mk (Split.groups st) (Split.old_lines st)
      (Split.new_lines st ++ [tail1 line]) (Split.old_line st)
      (Split.current_old_line st)
  else st.

Definition split_init (hunk : Hunk.t) : Split.state :=
  Split.mk [] [] [] 0 (Hunk.old_start hunk).

Definition split_into_change_groups (hunk : Hunk.t) : list ChangeGroup.t :=
  Split.groups (finalize (fold_left split_step (Hunk.lines hunk) (split_init hunk))).


(** ** Slices of Python lists *)

(** A slice bound [i] on a list of length [len]: a negative bound counts
    from the end, and the result is clamped to [0 .. len]. *)
Definition slice_bound (len i : Z) : Z :=
  if i <? 0 then Z.max (i + len) 0 else Z.min i len.

(** [l[lo:hi]]. *)
Definition py_slice {A} (l : list A) (lo hi : Z) : list A :=
  let len := Z.of_nat (length l) in
  let a := slice_bound len lo in
  let b := slice_bound len hi in
  take (Z.to_nat (b - a)) (drop (Z.to_nat a) l).

(** The list after [l[lo:hi] = v]: when the upper bound falls below the
    lower one, nothing is removed and [v] is inserted at the lower bound. *)
Definition py_slice_assign {A} (l : list A) (lo hi : Z) (v : list A) : list A :=
  let len := Z.of_nat (length l) in
  let a := slice_bound len lo in
  let b := Z.max a (slice_bound len hi) in
  take (Z.to_nat a) l ++ v ++ drop (Z.to_nat b) l.

(** [len(l)] as a Python integer. *)
Definition len {A} (l : list A) : Z := Z.of_nat (length l).

(** ** Errors *)

(** The two [ValueError]s of the engine, with the data their messages show. *)
Inductive error :=
  | RangeConflict (line_a line_b : Z)
  | StaleContent (adjusted_line : Z) (expected actual : list string).

Inductive outcome (A : Type) :=
  | Ok (a : A)
  | Err (e : error).
Arguments Ok {A} a.
Arguments Err {A} e.

Definition is_ok {A} (r : outcome A) : bool :=
  match r with
  | Ok _ => true
  | Err _ => false
  end.

(** ** The conflict validator *)

(** Last base line of the range of a record; one less than the first for a
    pure insertion. *)
Definition range_end (h : UpdateHunk.t) : Z :=
  if truthy (UpdateHunk.old_lines h)
  then UpdateHunk.old_line h + len (UpdateHunk.old_lines h) - 1
  else UpdateHunk.old_line h - 1.

(** The test of the inner loop body. *)
Definition overlap (hunk_a hunk_b : UpdateHunk.t) : bool :=
  (UpdateHunk.old_line hunk_a <=? range_end hunk_b) &&
  (UpdateHunk.old_line hunk_b <=? range_end hunk_a).

(** [for hunk_b in hunks[i + 1:]]. *)
Fixpoint validate_against (hunk_a : UpdateHunk.t) (later : list UpdateHunk.t)
  : outcome unit :=
  match later with
  | [] => Ok tt
  | hunk_b :: later' =>
      if overlap hunk_a hunk_b
      then Err (RangeConflict (UpdateHunk.old_line hunk_a)
                  (UpdateHunk.old_line hunk_b))
      else validate_against hunk_a later'
  end.

(** [for i, hunk_a in enumerate(hunks)]. *)
Fixpoint validate_hunks (hunks : list UpdateHunk.t) : outcome unit :=
  match hunks with
  | [] => Ok tt
  | hunk_a :: later =>
      match validate_against hunk_a later with
      | Ok _ => validate_hunks later
      | Err e => Err e
      end
  end.

(** ** Sorting *)

(** [sorted] is stable: records with equal keys keep their input order.
    Insertion from the right, each record placed before the first record
    whose key is not smaller, is the stable sort. *)
Fixpoint insert_by_old_line (h : UpdateHunk.t) (sorted : list UpdateHunk.t)
  : list UpdateHunk.t :=
  match sorted with
  | [] => [h]
  | h' :: sorted' =>
      if UpdateHunk.old_line h <=? UpdateHunk.old_line h'
      then h :: h' :: sorted'
      else h' :: insert_by_old_line h sorted'
  end.

Definition sort_hunks (hunks : list UpdateHunk.t) : list UpdateHunk.t :=
  fold_right insert_by_old_line [] hunks.

(** ** The patch replayer *)

(** List objects live in a heap and are named by locations. *)
Definition loc := positive.
Abbreviation heap := (gmap loc (list string)).

(** The list object at [l] (the empty list if there is none). *)
Definition deref (σ : heap) (l : loc) : list string := default [] (σ !! l).

(** The loop [for hunk in hunks] of [apply_hunks]: [result] names the list
    object the loop mutates, [offset] is the cumulative line offset. On a
    mismatch the loop stops with the error; the heap it leaves holds the
    partly rewritten object. *)
Fixpoint apply_loop (result : loc) (σ : heap) (offset : Z)
  (hunks : list UpdateHunk.t) : heap * outcome unit :=
  match hunks with
  | [] => (σ, Ok tt)
  | hunk :: hunks' =>
      let adjusted_line := UpdateHunk.old_line hunk + offset in
      if truthy (UpdateHunk.old_lines hunk) then
        let start_idx := adjusted_line - 1 in
        let stop_idx := start_idx + len (UpdateHunk.old_lines hunk) in
        let actual_lines := py_slice (deref σ result) start_idx stop_idx in
        if bool_decide (actual_lines ≠ UpdateHunk.old_lines hunk) then
          (σ, Err (StaleContent adjusted_line (UpdateHunk.old_lines hunk)
                     actual_lines))
        else
          apply_loop result
            (<[result := py_slice_assign (deref σ result) start_idx stop_idx
                           (UpdateHunk.new_lines hunk)]> σ)
            (offset + (len (UpdateHunk.new_lines hunk)
                       - len (UpdateHunk.old_lines hunk)))
            hunks'
      else
        let insert_idx := adjusted_line - 1 in
        apply_loop result
          (<[result := py_slice_assign (deref σ result) insert_idx insert_idx
                         (UpdateHunk.new_lines hunk)]> σ)
          (offset + len (UpdateHunk.new_lines hunk))
          hunks'
  end.

(** [apply_hunks(lines, hunks)]: [result = list(lines)] allocates a fresh
    list object holding a copy, the loop rewrites that object, and its
    location is returned. *)
Definition apply_hunks (σ : heap) (lines : loc) (hunks : list UpdateHunk.t)
  : heap * outcome loc :=
  let result := fresh (dom σ) in
  let σ1 := <[result := deref σ lines]> σ in
  match apply_loop result σ1 0 hunks with
  | (σ2, Ok _) => (σ2, Ok result)
  | (σ2, Err e) => (σ2, Err e)
  end.

(** The same loop read as a function on list values, for reasoning. *)
Fixpoint replay (result : list string) (offset : Z)
  (hunks : list UpdateHunk.t) : outcome (list string) :=
  match hunks with
  | [] => Ok result
  | hunk :: hunks' =>
      let adjusted_line := UpdateHunk.old_line hunk + offset in
      if truthy (UpdateHunk.old_lines hunk) then
        let start_idx := adjusted_line - 1 in
        let stop_idx := start_idx + len (UpdateHunk.old_lines hunk) in
        let actual_lines := py_slice result start_idx stop_idx in
        if bool_decide (actual_lines ≠ UpdateHunk.old_lines hunk) then
          Err (StaleContent adjusted_line (UpdateHunk.old_lines hunk)
                 actual_lines)
        else
          replay
            (py_slice_assign result start_idx stop_idx
               (UpdateHunk.new_lines hunk))
            (offset + (len (UpdateHunk.new_lines hunk)
                       - len (UpdateHunk.old_lines hunk)))
            hunks'
      else
        let insert_idx := adjusted_line - 1 in
        replay
          (py_slice_assign result insert_idx insert_idx
             (UpdateHunk.new_lines hunk))
          (offset + len (UpdateHunk.new_lines hunk))
          hunks'
  end.

(** ** Strings: character classes, stripping, line splitting, numbers *)

Definition code (a : ascii) : N := Ascii.N_of_ascii a.

(** [str.isspace] and the class [\s], for code points below 256. *)
Definition is_space (a : ascii) : bool :=
  let n := code a in
  ((9 <=? n) && (n <=? 13) || (28 <=? n) && (n <=? 32)
   || (n =? 133) || (n =? 160))%N.

(** The line boundaries of [str.splitlines], for code points below 256. *)
Definition is_linebreak (a : ascii) : bool :=
  let n := code a in
  ((10 <=? n) && (n <=? 13) || (28 <=? n) && (n <=? 30) || (n =? 133))%N.

(** The class [\d], for code points below 256. *)
Definition is_digit (a : ascii) : bool :=
  let n := code a in ((48 <=? n) && (n <=? 57))%N.

(** The class [.]: anything but a line feed. *)
Definition is_dot (a : ascii) : bool := negb (Ascii.eqb a LF).

Definition CR : ascii := Ascii.ascii_of_nat 13.

(** [s.splitlines(keepends=True)]: each line keeps its terminator, ["\r\n"]
    is one terminator, and there is no empty last line. *)
Fixpoint splitlines (s : string) : list string :=
  match s with
  | EmptyString => []
  | String a rest =>
      if is_linebreak a then
        match rest with
        | String b rest' =>
            if Ascii.eqb a CR && Ascii.eqb b LF
            then String a (String b EmptyString) :: splitlines rest'
            else String a EmptyString :: splitlines rest
        | EmptyString => [String a EmptyString]
        end
      else
        match splitlines rest with
        | [] => [String a EmptyString]
        | l :: ls => String a l :: ls
        end
  end.

(** [s.rstrip(chars)] and [s.lstrip(chars)], the characters given as a
    class. *)
Fixpoint rstrip (cls : ascii → bool) (s : string) : string :=
  match s with
  | EmptyString => EmptyString
  | String a s' =>
      match rstrip cls s' with
      | EmptyString => if cls a then EmptyString else String a EmptyString
      | r => String a r
      end
  end.

Fixpoint lstrip (cls : ascii → bool) (s : string) : string :=
  match s with
  | EmptyString => EmptyString
  | String a s' => if cls a then lstrip cls s' else s
  end.

(** [s.rstrip("\n")] and [s.strip()]. *)
Definition rstrip_nl (s : string) : string := rstrip (Ascii.eqb LF) s.
Definition strip (s : string) : string := lstrip is_space (rstrip is_space s).

(** [str(n)] for an integer: decimal digits, with a sign when negative. *)
Definition str_of_int (n : Z) : string :=
  if n <? 0
  then String "-" (NilEmpty.string_of_uint (N.to_uint (Z.to_N (- n))))
  else NilEmpty.string_of_uint (N.to_uint (Z.to_N n)).

(** [int(s)] on a string of decimal digits. *)
Definition int (s : string) : Z :=
  match NilEmpty.uint_of_string s with
  | Some d => Z.of_N (N.of_uint d)
  | None => 0
  end.

(** [''.join(parts)]. *)
Definition join (parts : list string) : string :=
  fold_right String.append EmptyString parts.

(** ** Regular expressions *)

(** The two patterns of the codec are a literal followed by quantified
    character classes, one of them captured, and [$]. They are matched the
    way a backtracking matcher does: a quantifier first takes the longest
    run and gives characters back while the rest of the pattern fails. *)

(** [cls*] then the continuation [k], which receives the run matched and
    the rest of the subject. *)
Fixpoint greedy_star {R} (cls : ascii → bool) (s : string)
  (k : string → string → option R) : option R :=
  match s with
  | String a s' =>
      if cls a then
        match greedy_star cls s' (λ m r, k (String a m) r) with
        | Some x => Some x
        | None => k EmptyString s
        end
      else k EmptyString s
  | EmptyString => k EmptyString s
  end.

(** [cls+] then [k]. *)
Definition greedy_plus {R} (cls : ascii → bool) (s : string)
  (k : string → string → option R) : option R :=
  match s with
  | String a s' =>
      if cls a then greedy_star cls s' (λ m r, k (String a m) r) else None
  | EmptyString => None
  end.

(** [$]: the end of the subject, or just before a line feed that ends it. *)
Definition at_end (s : string) : bool :=
  String.eqb s EmptyString || String.eqb s nl.

(** A literal at the start of the subject; the rest is returned. *)
Fixpoint literal (p s : string) : option string :=
  match p, s with
  | EmptyString, _ => Some s
  | String a p', String b s' => if Ascii.eqb a b then literal p' s' else None
  | String _ _, EmptyString => None
  end.

(** [re.compile(r"^file:\s*(.+)$").match(line)]: group 1 of the match. *)
Definition file_pattern (line : string) : option string :=
  match literal "file:" line with
  | Some s =>
      greedy_star is_space s (λ _ r,
        greedy_plus is_dot r (λ g r', if at_end r' then Some g else None))
  | None => None
  end.

(** [re.compile(r"^@@old\s+(\d+)$").match(line)]: group 1 of the match. *)
Definition old_pattern (line : string) : option string :=
  match literal "@@old" line with
  | Some s =>
      greedy_plus is_space s (λ _ r,
        greedy_plus is_digit r (λ g r', if at_end r' then Some g else None))
  | None => None
  end.

(** ** The edit-format codec *)

(** What one group adds to [parts]. *)
Definition group_parts (group : ChangeGroup.t) : list string :=
  [nl +:+ "@@old " +:+ str_of_int (ChangeGroup.old_line group) +:+ nl]
  ++ ChangeGroup.old_lines group
  ++ ["@@new" +:+ nl]
  ++ ChangeGroup.new_lines group
  ++ ["@@end" +:+ nl].

Definition format_updates_file (file_path : string)
  (groups : list ChangeGroup.t) : string :=
  join (("file: " +:+ file_path +:+ nl) :: flat_map group_parts groups).

(** The first loop of [parse_updates_file]: lines are skipped up to the
    first one that matches [file_pattern]; returns [file_path] and the
    lines after it. *)
Fixpoint parse_header (lines : list string) : string * list string :=
  match lines with
  | [] => (EmptyString, [])
  | l :: rest =>
      match file_pattern (rstrip_nl l) with
      | Some g => (strip g, rest)
      | None => parse_header rest
      end
  end.

(** The two inner loops: lines are collected up to a line that is [marker]
    once its line feeds are stripped; the marker line is consumed. *)
Fixpoint collect_until (marker : string) (lines : list string)
  : list string * list string :=
  match lines with
  | [] => ([], [])
  | l :: rest =>
      if String.eqb (rstrip_nl l) marker then ([], rest)
      else
        let '(got, rest') := collect_until marker rest in
        (l :: got, rest')
  end.

(** The second loop. Every iteration consumes at least one line, so a fuel
    of [length lines] iterations is enough (lemma [parse_hunks_fuel]). *)
Fixpoint parse_hunks (fuel : nat) (lines : list string)
  : list UpdateHunk.t :=
  match fuel with
  | O => []
  | S fuel' =>
      match lines with
      | [] => []
      | l :: rest =>
          match old_pattern (rstrip_nl l) with
          | Some digits =>
              let '(old_lines, rest1) := collect_until "@@new" rest in
              let '(new_lines, rest2) := collect_until "@@end" rest1 in
              UpdateHunk.mk (int digits) old_lines new_lines
                :: parse_hunks fuel' rest2
          | None => parse_hunks fuel' rest
          end
      end
  end.

Definition parse_updates_file (content : string)
  : string * list UpdateHunk.t :=
  let lines := splitlines content in
  let '(file_path, rest) := parse_header lines in
  (file_path, parse_hunks (length rest) rest).

(** ** Notions used to state the properties *)

(** Net change of the line count made by a sequence of records: the value
    of [offset] after they have been replayed. *)
Definition net_delta (hunks : list UpdateHunk.t) : Z :=
  fold_right
    (λ h acc, len (UpdateHunk.new_lines h) - len (UpdateHunk.old_lines h) + acc)
    0 hunks.

(** A record with no old lines. *)
Definition pure_insertion (h : UpdateHunk.t) : Prop :=
  UpdateHunk.old_lines h = [].

(** Forgetting the value of a successful outcome. *)
Definition discard {A} (r : outcome A) : outcome unit :=
  match r with
  | Ok _ => Ok tt
  | Err e => Err e
  end.

(** What holds of the loop variables of [split_into_change_groups] at
    every iteration: an empty removed buffer comes with [old_line = 0], in
    the open group and in every group already emitted. *)
Definition insertion_inv (st : Split.state) : Prop :=
  (Split.old_lines st = [] → Split.old_line st = 0)
  ∧ ∀ g, g ∈ Split.groups st →
         ChangeGroup.old_lines g = [] → ChangeGroup.old_line g = 0.

(** The kinds of hunk lines the grouper tells apart. *)
Definition is_context (line : string) : Prop := startswith " " line = true.
Definition is_removed (line : string) : Prop := startswith "-" line = true.
Definition is_added (line : string) : Prop := startswith "+" line = true.

(** The base lines a record occupies: [old_line .. range_end], which is
    no line at all for a pure insertion. *)
Definition in_range (h : UpdateHunk.t) (x : Z) : Prop :=
  UpdateHunk.old_line h ≤ x ≤ range_end h.

(** Every character of [s] is in the class [cls]. *)
Fixpoint all_chars (cls : ascii → bool) (s : string) : bool :=
  match s with
  | EmptyString => true
  | String a s' => cls a && all_chars cls s'
  end.

(** Text without a line boundary. *)
Definition plain (s : string) : bool :=
  all_chars (λ a, negb (is_linebreak a)) s.

(** The terminator ["\r\n"]. *)
Definition crlf : string := String CR nl.

(** A line as the edit format can carry it: plain text and then one
    terminator, ["\n"] or ["\r\n"]. *)
Definition proper_line (l : string) : Prop :=
  ∃ body : string,
    plain body = true ∧ (l = body +:+ nl ∨ l = body +:+ crlf).

(** A path the header line can carry: plain text with no white space
    around it. *)
Definition plain_path (file_path : string) : Prop :=
  plain file_path = true ∧ strip file_path = file_path.

(** A group the edit format can carry: a line number that is not
    negative, proper lines, no old line that reads as the separator and no
    new line that reads as the terminator. *)
Definition representable (g : ChangeGroup.t) : Prop :=
  0 ≤ ChangeGroup.old_line g
  ∧ Forall (λ l, proper_line l ∧ l ≠ "@@new" +:+ nl) (ChangeGroup.old_lines g)
  ∧ Forall (λ l, proper_line l ∧ l ≠ "@@end" +:+ nl) (ChangeGroup.new_lines g).

(** The record a group is read back as. *)
Definition as_update (g : ChangeGroup.t) : UpdateHunk.t :=
  UpdateHunk.mk (ChangeGroup.old_line g) (ChangeGroup.old_lines g)
    (ChangeGroup.new_lines g).

(** The lines of the text of one group. *)
Definition group_lines (g : ChangeGroup.t) : list string :=
  [nl; "@@old " +:+ str_of_int (ChangeGroup.old_line g) +:+ nl]
  ++ ChangeGroup.old_lines g
  ++ ["@@new" +:+ nl]
  ++ ChangeGroup.new_lines g
  ++ ["@@end" +:+ nl].

(** The [n] base lines from line [p] on, lines counted from 1. *)
Definition segment (base : list string) (p n : Z) : list string :=
  take (Z.to_nat n) (drop (Z.to_nat (p - 1)) base).

(** Records that lie in the base one after the other, from line [lo] on:
    each record starts at or after [lo] and not after the line that
    follows the last one, its old lines are the base lines at its place,
    and the next record starts after its range. *)
Fixpoint well_placed (base : list string) (lo : Z)
  (hunks : list UpdateHunk.t) : Prop :=
  match hunks with
  | [] => True
  | h :: hunks' =>
      lo ≤ UpdateHunk.old_line h ≤ len base + 1
      ∧ segment base (UpdateHunk.old_line h) (len (UpdateHunk.old_lines h))
        = UpdateHunk.old_lines h
      ∧ well_placed base
          (UpdateHunk.old_line h + len (UpdateHunk.old_lines h)) hunks'
  end.

(** The content the records describe: the base lines between the records,
    from line [lo] on, with the new lines of each record at its place. *)
Fixpoint rebuild (base : list string) (lo : Z) (hunks : list UpdateHunk.t)
  : list string :=
  match hunks with
  | [] => drop (Z.to_nat (lo - 1)) base
  | h :: hunks' =>
      segment base lo (UpdateHunk.old_line h - lo)
      ++ UpdateHunk.new_lines h
      ++ rebuild base
           (UpdateHunk.old_line h + len (UpdateHunk.old_lines h)) hunks'
  end.

(** How far base line [p] moves: the net change of the records anchored
    at or before it. *)
Definition shift (p : Z) (hunks : list UpdateHunk.t) : Z :=
  net_delta (filter (λ h, UpdateHunk.old_line h ≤ p) hunks).

(** Base line [p] is in the range of no record. *)
Definition untouched (p : Z) (hunks : list UpdateHunk.t) : Prop :=
  Forall (λ h, ¬ in_range h p) hunks.

(** The order [sort_hunks] establishes: the line number of the first
    record is not above that of the second. *)
Definition by_old_line (a b : UpdateHunk.t) : Prop :=
  UpdateHunk.old_line a ≤ UpdateHunk.old_line b.

(** The records anchored at line [k], in the order of the list. *)
Definition anchored_at (k : Z) (hunks : list UpdateHunk.t)
  : list UpdateHunk.t :=
  filter (λ h, UpdateHunk.old_line h = k) hunks.

(** A record that changes nothing: its new lines are its old lines. *)
Definition unchanged (h : UpdateHunk.t) : Prop :=
  UpdateHunk.new_lines h = UpdateHunk.old_lines h.

(** The pair of positions [(i, j)] comes before [(i', j')] in the order in
    which the two loops of [validate_hunks] visit the pairs. *)
Definition visited_before (i j i' j' : nat) : Prop :=
  (i < i')%nat ∨ (i = i' ∧ (j < j')%nat).

(** The record [h] with its line number moved by [d] lines. *)
Definition move (d : Z) (h : UpdateHunk.t) : UpdateHunk.t :=
  UpdateHunk.mk (UpdateHunk.old_line h + d) (UpdateHunk.old_lines h)
    (UpdateHunk.new_lines h).

(** The text of the removed lines of a hunk and of its added lines, in
    the order of the hunk. *)
Definition removed_text (lines : list string) : list string :=
  tail1 <$> filter (λ l, startswith "-" l = true) lines.

Definition added_text (lines : list string) : list string :=
  tail1 <$> filter (λ l, startswith "+" l = true) lines.

(** The removed lines the grouper holds: those of the groups emitted and
    those of the open group. The same for the added lines. *)
Definition olds (st : Split.state) : list string :=
  concat (ChangeGroup.old_lines <$> Split.groups st) ++ Split.old_lines st.

Definition news (st : Split.state) : list string :=
  concat (ChangeGroup.new_lines <$> Split.groups st) ++ Split.new_lines st.

(** A line of one of the three kinds the grouper reads. *)
Definition known_kind (line : string) : bool :=
  startswith " " line || startswith "-" line || startswith "+" line.

(** The old side of the lines of a hunk, the context and removed lines,
    and its new side, the context and added lines; both without the
    markers. *)
Definition old_side (lines : list string) : list string :=
  tail1 <$> filter (λ l, startswith " " l || startswith "-" l = true) lines.

Definition new_side (lines : list string) : list string :=
  tail1 <$> filter (λ l, startswith " " l || startswith "+" l = true) lines.

(** Every run of changed lines starts with a removed line: an added line
    is only met while a run that a removed line has opened is open. *)
Fixpoint removed_first (open : bool) (lines : list string) : bool :=
  match lines with
  | [] => true
  | line :: lines' =>
      if startswith " " line then removed_first false lines'
      else if startswith "-" line then removed_first true lines'
      else if startswith "+" line then open && removed_first true lines'
      else removed_first open lines'
  end.

(** The groups the loop of [split_into_change_groups] and the flush after
    it give for the lines still to be read, from the values the local
    variables have, with no group emitted yet. *)
Definition groups_from (old_lines new_lines : list string)
  (old_line current_old_line : Z) (lines : list string)
  : list ChangeGroup.t :=
  Split.groups
    (finalize
       (fold_left split_step lines
          (Split.mk [] old_lines new_lines old_line current_old_line))).

(** ** The parser of unified diffs *)

(** The one-character string that holds a backslash. *)
Definition backslash : string := String (Ascii.ascii_of_nat 92) EmptyString.

(** [s.startswith((p1, ..., pn))]. *)
Definition startswith_any (prefixes : list string) (s : string) : bool :=
  existsb (λ p, startswith p s) prefixes.

(** [(?:,(\d+))?] then [k]: the group is tried first and given up when
    the rest of the pattern fails with it; [k] receives the digits of the
    group, if it took part in the match, and the rest of the subject. *)
Definition optional_count {R} (s : string)
  (k : option string → string → option R) : option R :=
  match literal "," s with
  | Some s' =>
      match greedy_plus is_digit s' (λ g r, k (Some g) r) with
      | Some x => Some x
      | None => k None s
      end
  | None => k None s
  end.

(** [re.compile(r"^@@ -(\d+)(?:,(\d+))? \+(\d+)(?:,(\d+))? @@").match(line)]:
    the groups 1 to 4 of the match. *)
Definition hunk_pattern (line : string)
  : option (string * option string * string * option string) :=
  match literal "@@ -" line with
  | Some s =>
      greedy_plus is_digit s (λ g1 r1,
        optional_count r1 (λ g2 r2,
          match literal " +" r2 with
          | Some s' =>
              greedy_plus is_digit s' (λ g3 r3,
                optional_count r3 (λ g4 r4,
                  match literal " @@" r4 with
                  | Some _ => Some (g1, g2, g3, g4)
                  | None => None
                  end))
          | None => None
          end))
  | None => None
  end.

(** [int(match.group(n)) if match.group(n) else 1]. *)
Definition count_of (group : option string) : Z :=
  match group with
  | Some digits => int digits
  | None => 1
  end.

(** The inner loop of [parse_unified_diff]: the lines of a hunk are
    collected up to a line that is a hunk header or starts a file header;
    that line is not consumed. Lines with none of the four markers are
    passed over. Returns the lines collected and the lines left. *)
Fixpoint collect_hunk_lines (lines : list string)
  : list string * list string :=
  match lines with
  | [] => ([], [])
  | next_line :: rest =>
      match hunk_pattern next_line with
      | Some _ => ([], lines)
      | None =>
          if startswith_any ["diff --git"; "--- "; "+++ "] next_line
          then ([], lines)
          else
            let '(hunk_lines, rest') := collect_hunk_lines rest in
            if startswith_any [" "; "-"; "+"; backslash] next_line
            then (next_line :: hunk_lines, rest')
            else (hunk_lines, rest')
      end
  end.

(** The outer loop. Every iteration consumes at least one line, so a fuel
    of [length lines] iterations is enough (lemma [parse_diff_lines_fuel]). *)
Fixpoint parse_diff_lines (fuel : nat) (lines : list string)
  : list Hunk.t :=
  match fuel with
  | O => []
  | S fuel' =>
      match lines with
      | [] => []
      | line :: rest =>
          if startswith_any ["diff --git"; "index "; "--- "; "+++ "] line
          then parse_diff_lines fuel' rest
          else
            match hunk_pattern line with
            | Some (g1, g2, g3, g4) =>
                let '(hunk_lines, rest') := collect_hunk_lines rest in
                Hunk.mk (int g1) (count_of g2) (int g3) (count_of g4)
                  hunk_lines
                  :: parse_diff_lines fuel' rest'
            | None => parse_diff_lines fuel' rest
            end
      end
  end.

Definition parse_unified_diff (diff_text : string) : list Hunk.t :=
  let lines := splitlines diff_text in
  parse_diff_lines (length lines) lines.

(** *** Notions used to state its properties *)

(** A line a hunk can carry: a proper line that starts with one of the
    four markers and does not read as the start of a file header. *)
Definition diff_line (l : string) : Prop :=
  proper_line l
  ∧ startswith_any [" "; "-"; "+"; backslash] l = true
  ∧ startswith_any ["diff --git"; "--- "; "+++ "] l = false.

(** The text of a count in a hunk header, as git writes it: a count of 1
    is left out. *)
Definition count_text (count : Z) : string :=
  if count =? 1 then EmptyString else "," +:+ str_of_int count.

(** The header line of a hunk, with the text git puts after the second
    [@@]. *)
Definition header_line (h : Hunk.t) (trailer : string) : string :=
  "@@ -" +:+ str_of_int (Hunk.old_start h) +:+ count_text (Hunk.old_count h)
  +:+ " +" +:+ str_of_int (Hunk.new_start h)
  +:+ count_text (Hunk.new_count h) +:+ " @@" +:+ trailer +:+ nl.

(** The lines of the text of a hunk. *)
Definition hunk_text (section : Hunk.t * string) : list string :=
  header_line section.1 section.2 :: Hunk.lines section.1.

(** A hunk with the text after its header that a diff can carry. *)
Definition well_formed (section : Hunk.t * string) : Prop :=
  0 ≤ Hunk.old_start section.1 ∧ 0 ≤ Hunk.old_count section.1
  ∧ 0 ≤ Hunk.new_start section.1 ∧ 0 ≤ Hunk.new_count section.1
  ∧ plain section.2 = true
  ∧ Forall diff_line (Hunk.lines section.1).

(** ** The commands *)

(** What is printed to the standard error stream: the text of a
    [ValueError] of the engine, kept as the data the text shows, or a text
    that comes from git. *)
Inductive message :=
  | EngineError (e : error)
  | Text (s : string).

(** What a command does to the world, in the order it does it. *)
Inductive event :=
  | ReadText (path : string)
  | Unlink (path : string)
  | GitDiff (file_path : string)
  | GitShow (file_path : string)
  | GeneratePatch (file_path : string) (old_lines new_lines : list string)
  | GitApplyCached (patch : string)
  | PrintOut (text : string)
  | PrintErr (m : message).

(** How a command ends: it returns, it leaves through [sys.exit(1)], or
    an exception that nothing catches ends it. *)
Inductive status :=
  | Returned
  | Exit1
  | Uncaught.

(** A run of a command: its events and how it ended. *)
Definition run : Type := list event * status.

(** The event [e] and then the run [r]. *)
Definition after (e : event) (r : run) : run := (e :: r.1, r.2).

(** The list object [cmd_apply] binds to [old_lines], in a heap that holds
    nothing else. *)
Definition old_lines_loc : loc := 1%positive.

Section Commands.

(** The world the commands act on: the content of the file at a path
    ([None] when reading it raises), the standard output of [git diff],
    the return code and the two output streams of [git show], the result
    of [generate_patch], and the return code and the standard error stream
    of [git apply --cached] for a patch. Reading the updates file is the
    one call that is taken to be able to raise; the file can be deleted
    and git can be run. *)
Variable read_text : string → option string.
Variable git_diff : string → string.
Variable git_show : string → Z * string * string.
Variable generate_patch : string → list string → list string → string.
Variable git_apply_cached : string → Z * string.

(** [run_git_diff]: the standard output. *)
Definition run_git_diff (file_path : string) : string := git_diff file_path.

(** [run_git_show_index]: the standard output, or the message of the
    [RuntimeError] when the return code is not 0. *)
Definition run_git_show_index (file_path : string) : string + string :=
  let '(returncode, stdout, stderr) := git_show file_path in
  if bool_decide (returncode ≠ 0)
  then inr ("git show :" +:+ file_path +:+ " failed: " +:+ stderr)
  else inl stdout.

(** [run_git_apply_cached]: success and the standard error stream. *)
Definition run_git_apply_cached (patch : string) : bool * string :=
  let '(returncode, stderr) := git_apply_cached patch in
  (bool_decide (returncode = 0), stderr).

(** [cmd_updates]. *)
Definition cmd_updates (file_path : string) : run :=
  let diff_text := run_git_diff file_path in
  after (GitDiff file_path)
    (let hunks := parse_unified_diff diff_text in
     let all_groups := flat_map split_into_change_groups hunks in
     let output := format_updates_file file_path all_groups in
     after (PrintOut output) ([], Returned)).

(** [cmd_apply]. The list [old_lines] is passed to [apply_hunks] and read
    again for [generate_patch]; it is kept in a heap, so that what the
    second reading finds is what [apply_hunks] has left there. *)
Definition cmd_apply (updates_file : string) : run :=
  after (ReadText updates_file)
    match read_text updates_file with
    | None => ([], Uncaught)
    | Some content =>
        let '(file_path, hunks) := parse_updates_file content in
        if negb (truthy hunks) then
          after (Unlink updates_file) ([], Returned)
        else
          let sorted_hunks := sort_hunks hunks in
          match validate_hunks sorted_hunks with
          | Err e => after (PrintErr (EngineError e)) ([], Exit1)
          | Ok _ =>
              after (GitShow file_path)
                match run_git_show_index file_path with
                | inr e => after (PrintErr (Text e)) ([], Exit1)
                | inl old_content =>
                    let old_lines := splitlines old_content in
                    let σ : heap := {[old_lines_loc := old_lines]} in
                    match apply_hunks σ old_lines_loc sorted_hunks with
                    | (_, Err e) =>
                        after (PrintErr (EngineError e)) ([], Exit1)
                    | (σ', Ok new_lines) =>
                        let patch :=
                          generate_patch file_path (deref σ' old_lines_loc)
                            (deref σ' new_lines) in
                        after
                          (GeneratePatch file_path (deref σ' old_lines_loc)
                             (deref σ' new_lines))
                          (after (GitApplyCached patch)
                             (let '(success, stderr) :=
                                run_git_apply_cached patch in
                              if success then
                                after (Unlink updates_file) ([], Returned)
                              else
                                after (PrintErr (Text stderr)) ([], Exit1)))
                    end
                end
          end
    end.

End Commands.

(** *** Notions used to state the properties of the commands *)

(** A line of a hunk whose text the edit format can carry: a proper line
    that is not a removed line reading as the separator and not an added
    line reading as the terminator. *)
Definition carried (l : string) : Prop :=
  proper_line l ∧ l ≠ "-@@new" +:+ nl ∧ l ≠ "+@@end" +:+ nl.

(** What holds of the local variables of [split_into_change_groups] when
    the lines read so far are carried lines and the hunk starts at a line
    number that is not negative: the edit format can carry the groups
    emitted and the open group. *)
Definition carrying (st : Split.state) : Prop :=
  0 ≤ Split.old_line st
  ∧ 0 ≤ Split.current_old_line st
  ∧ Forall (λ l, proper_line l ∧ l ≠ "@@new" +:+ nl) (Split.old_lines st)
  ∧ Forall (λ l, proper_line l ∧ l ≠ "@@end" +:+ nl) (Split.new_lines st)
  ∧ Forall representable (Split.groups st).

(** The lines [old_lines] are the lines of [cur] at the positions
    [target], [target + 1], ..., positions counted from 1: a position
    below 1 holds no line. *)
Definition found_at (cur : list string) (target : Z)
  (old_lines : list string) : Prop :=
  1 ≤ target ∧ segment cur target (len old_lines) = old_lines.

(** * Properties *)

(** ** The grouper: insertions are anchored at line 0 *)

Lemma finalize_insertion_inv (st : Split.state) :
  insertion_inv st → insertion_inv (finalize st).
Proof.
  intros [Hopen Hdone]. unfold finalize.
  destruct (truthy (Split.old_lines st) || truthy (Split.new_lines st));
    [|by split].
  split; simpl; [done|].
  intros g [Hg | ->%list_elem_of_singleton]%elem_of_app; [by apply Hdone|].
  simpl. apply Hopen.
Qed.

Lemma split_step_insertion_inv (st : Split.state) (line : string) :
  insertion_inv st → insertion_inv (split_step st line).
Proof.
  intros Hinv. unfold split_step.
  destruct (startswith " " line).
  { apply finalize_insertion_inv in Hinv. destruct Hinv as [Hopen Hdone].
    by split. }
  destruct Hinv as [Hopen Hdone].
  destruct (startswith "-" line).
  { split; simpl; [|done]. intros Hnil. by destruct (Split.old_lines st). }
  destruct (startswith "+" line); by split.
Qed.

Lemma fold_split_insertion_inv (lines : list string) :
  ∀ st, insertion_inv st → insertion_inv (fold_left split_step lines st).
Proof.
  induction lines as [|line lines IH]; intros st Hinv; simpl; [done|].
  by apply IH, split_step_insertion_inv.
Qed.

Lemma split_insertion_anchor (hunk : Hunk.t) (g : ChangeGroup.t) :
  g ∈ split_into_change_groups hunk →
  ChangeGroup.old_lines g = [] → ChangeGroup.old_line g = 0.
Proof.
  unfold split_into_change_groups.
  assert (insertion_inv
            (finalize (fold_left split_step (Hunk.lines hunk) (split_init hunk))))
    as [_ Hdone]; [|by apply Hdone].
  apply finalize_insertion_inv, fold_split_insertion_inv.
  split; [done|]. simpl. by intros g' ?%elem_of_nil.
Qed.

(** ** The grouper: one run between context lines *)

Lemma removed_not_context (line : string) :
  is_removed line → startswith " " line = false.
Proof.
  unfold is_removed.
  destruct line as [|a line]; cbn [startswith]; [done|].
  by destruct (Ascii.eqb_spec "-" a) as [<-|].
Qed.

Lemma added_not_context_nor_removed (line : string) :
  is_added line → startswith " " line = false ∧ startswith "-" line = false.
Proof.
  unfold is_added.
  destruct line as [|a line]; cbn [startswith]; [done|].
  by destruct (Ascii.eqb_spec "+" a) as [<-|].
Qed.

(** Context lines with no group open only move the cursor. *)
Lemma fold_context_idle (ctx : list string) :
  Forall is_context ctx →
  ∀ gs c,
    fold_left split_step ctx (Split.mk gs [] [] 0 c)
    = Split.mk gs [] [] 0 (c + len ctx).
Proof.
  induction 1 as [|line ctx Hline _ IH]; intros gs c; simpl.
  - f_equal. unfold len. simpl. lia.
  - unfold split_step at 2. rewrite Hline. simpl. rewrite IH.
    f_equal. unfold len. simpl length. lia.
Qed.

(** Removed lines fill the removed buffer; the first one of a group fixes
    [old_line]. *)
Lemma fold_removed (rem : list string) :
  Forall is_removed rem →
  ∀ gs o ol c,
    fold_left split_step rem (Split.mk gs o [] ol c)
    = Split.mk gs (o ++ (tail1 <$> rem)) []
        (if truthy o then ol else if truthy rem then c else ol)
        (c + len rem).
Proof.
  induction 1 as [|line rem Hline _ IH]; intros gs o ol c; simpl.
  - rewrite app_nil_r. destruct (truthy o); f_equal; unfold len; simpl; lia.
  - unfold split_step at 2.
    rewrite (removed_not_context line Hline), Hline. simpl.
    rewrite IH, <- app_assoc. simpl.
    replace (truthy (o ++ [tail1 line])) with true by by destruct o.
    rewrite andb_true_r.
    destruct (truthy o); simpl; f_equal; unfold len; simpl length; lia.
Qed.

(** Added lines fill the added buffer and leave the cursor alone. *)
Lemma fold_added (add : list string) :
  Forall is_added add →
  ∀ gs o n ol c,
    fold_left split_step add (Split.mk gs o n ol c)
    = Split.mk gs o (n ++ (tail1 <$> add)) ol c.
Proof.
  induction 1 as [|line add Hline _ IH]; intros gs o n ol c; simpl.
  - by rewrite app_nil_r.
  - unfold split_step at 2.
    destruct (added_not_context_nor_removed line Hline) as [-> ->].
    rewrite Hline. simpl. by rewrite IH, <- app_assoc.
Qed.

Lemma finalize_idempotent_groups (st : Split.state) (c : Z) :
  let st' := finalize st in
  Split.groups
    (finalize (Split.mk (Split.groups st') (Split.old_lines st')
                 (Split.new_lines st') (Split.old_line st') c))
  = Split.groups st'.
Proof.
  unfold finalize.
  destruct (truthy (Split.old_lines st) || truthy (Split.new_lines st)) eqn:Hopen;
    simpl; [done|].
  by rewrite Hopen.
Qed.

(** Context lines after a run close it, once. *)
Lemma fold_context_closes (ctx : list string) :
  Forall is_context ctx →
  ∀ st,
    Split.groups (finalize (fold_left split_step ctx st))
    = Split.groups (finalize st).
Proof.
  induction 1 as [|line ctx Hline _ IH]; intros st; simpl; [done|].
  rewrite IH. unfold split_step. rewrite Hline.
  apply finalize_idempotent_groups.
Qed.

(** C5, as stated, for a run with no removed line ([m = 0]): base start
    10, one context line, one added line, one context line. The claim
    asks for a group with [old_line = 10 + 1]; the group has
    [old_line = 0]. *)
Lemma insertion_run_not_anchored_at_cursor :
  ¬ ∃ g : ChangeGroup.t,
      split_into_change_groups
        (Hunk.mk 10 2 10 3 [" context 1"; "+new a"; " context 2"]) = [g]
      ∧ ChangeGroup.old_line g = 10 + 1
      ∧ len (ChangeGroup.old_lines g) = 0
      ∧ len (ChangeGroup.new_lines g) = 1.
Proof.
  intros (g & Hgroups & Hline & _).
  vm_compute in Hgroups. injection Hgroups as <-.
  discriminate Hline.
Qed.

(** C5, amended. For a hunk with base start [s] whose lines are [k]
    context lines, then [m ≥ 1] removed lines, then [n ≥ 0] added lines,
    then context lines, [split_into_change_groups] produces exactly one
    group, with [old_line = s + k], [len(old_lines) = m] and
    [len(new_lines) = n]; its lines are the removed and the added lines
    without their markers. *)
Theorem single_run_grouping (s old_count new_start new_count : Z)
  (ctx1 rem add ctx2 : list string) :
  Forall is_context ctx1 → Forall is_removed rem →
  Forall is_added add → Forall is_context ctx2 →
  rem ≠ [] →
  ∃ g : ChangeGroup.t,
    split_into_change_groups
      (Hunk.mk s old_count new_start new_count (ctx1 ++ rem ++ add ++ ctx2))
    = [g]
    ∧ ChangeGroup.old_line g = s + len ctx1
    ∧ len (ChangeGroup.old_lines g) = len rem
    ∧ len (ChangeGroup.new_lines g) = len add
    ∧ ChangeGroup.old_lines g = tail1 <$> rem
    ∧ ChangeGroup.new_lines g = tail1 <$> add.
Proof.
  intros Hctx1 Hrem Hadd Hctx2 Hne.
  exists (ChangeGroup.mk (s + len ctx1) (tail1 <$> rem) (tail1 <$> add)).
  split; [|by simpl; unfold len; rewrite !length_fmap].
  unfold split_into_change_groups, split_init. simpl.
  rewrite !fold_left_app.
  rewrite (fold_context_idle ctx1 Hctx1), (fold_removed rem Hrem).
  rewrite (fold_added add Hadd), (fold_context_closes ctx2 Hctx2).
  destruct rem as [|r rem]; [done|]. reflexivity.
Qed.

Lemma single_run_grouping_witness :
  ∃ g : ChangeGroup.t,
    split_into_change_groups
      (Hunk.mk 10 6 10 7
         ([" context line 1"; " context line 2"]
          ++ ["-old line 1"; "-old line 2"]
          ++ ["+new line 1"; "+new line 2"; "+new line 3"]
          ++ [" context line 3"]))
    = [g]
    ∧ ChangeGroup.old_line g = 10 + len [" context line 1"; " context line 2"]
    ∧ len (ChangeGroup.old_lines g) = len ["-old line 1"; "-old line 2"]
    ∧ len (ChangeGroup.new_lines g)
      = len ["+new line 1"; "+new line 2"; "+new line 3"]
    ∧ ChangeGroup.old_lines g = tail1 <$> ["-old line 1"; "-old line 2"]
    ∧ ChangeGroup.new_lines g
      = tail1 <$> ["+new line 1"; "+new line 2"; "+new line 3"].
Proof.
  apply (single_run_grouping 10 6 10 7
           [" context line 1"; " context line 2"]
           ["-old line 1"; "-old line 2"]
           ["+new line 1"; "+new line 2"; "+new line 3"]
           [" context line 3"]);
    [repeat constructor | repeat constructor | repeat constructor
    | repeat constructor | discriminate].
Defined.

(** C6, at a hunk whose run has an added line before its removed line:
    base start 1, lines ["+a"; "-b"]. The removed line is base line 1, and
    the group has old lines, but its [old_line] is 0: the cursor is only
    recorded when both buffers are empty. *)
Theorem added_before_removed_loses_anchor :
  split_into_change_groups (Hunk.mk 1 1 1 1 ["+a" +:+ nl; "-b" +:+ nl])
  = [ChangeGroup.mk 0 ["b" +:+ nl] ["a" +:+ nl]].
Proof. reflexivity. Qed.

(** ** Strings *)

Lemma append_cons (x : ascii) (a b : string) :
  String x a +:+ b = String x (a +:+ b).
Proof. reflexivity. Qed.

Lemma append_nil_l (b : string) : EmptyString +:+ b = b.
Proof. reflexivity. Qed.

Lemma append_assoc (a b c : string) : (a +:+ b) +:+ c = a +:+ (b +:+ c).
Proof.
  induction a as [|x a IH]; [done|]. by rewrite !append_cons, IH.
Qed.

Lemma all_chars_append (cls : ascii → bool) (a b : string) :
  all_chars cls (a +:+ b) = all_chars cls a && all_chars cls b.
Proof.
  induction a as [|x a IH]; [done|].
  rewrite append_cons. simpl. by rewrite IH, andb_assoc.
Qed.

Lemma all_chars_weaken (cls cls' : ascii → bool) (s : string) :
  (∀ a, cls a = true → cls' a = true) →
  all_chars cls s = true → all_chars cls' s = true.
Proof.
  intros Hsub. induction s as [|x s IH]; simpl; [done|].
  rewrite !andb_true_iff. intros [Hx Hs]. split; [by apply Hsub | by apply IH].
Qed.

Lemma linebreak_LF : is_linebreak LF = true.
Proof. reflexivity. Qed.

Lemma not_linebreak_not_LF (a : ascii) :
  is_linebreak a = false → Ascii.eqb LF a = false.
Proof.
  intros Ha. destruct (Ascii.eqb_spec LF a) as [<-|]; [|done].
  by rewrite linebreak_LF in Ha.
Qed.

(** *** Line splitting *)

(** A proper line in front of a text is its first line. *)
Lemma splitlines_lf (body rest : string) :
  plain body = true →
  splitlines ((body +:+ nl) +:+ rest) = (body +:+ nl) :: splitlines rest.
Proof.
  unfold plain. induction body as [|a body IH]; intros Hplain.
  - rewrite append_nil_l. unfold nl. rewrite append_cons, append_nil_l.
    cbn [splitlines]. rewrite linebreak_LF. by destruct rest.
  - simpl in Hplain. apply andb_true_iff in Hplain as [Ha Hbody].
    apply negb_true_iff in Ha.
    rewrite !append_cons. cbn [splitlines]. rewrite Ha.
    by rewrite (IH Hbody).
Qed.

Lemma splitlines_crlf (body rest : string) :
  plain body = true →
  splitlines ((body +:+ crlf) +:+ rest) = (body +:+ crlf) :: splitlines rest.
Proof.
  unfold plain. induction body as [|a body IH]; intros Hplain.
  - reflexivity.
  - simpl in Hplain. apply andb_true_iff in Hplain as [Ha Hbody].
    apply negb_true_iff in Ha.
    rewrite !append_cons. cbn [splitlines]. rewrite Ha.
    by rewrite (IH Hbody).
Qed.

Lemma splitlines_proper (l rest : string) :
  proper_line l → splitlines (l +:+ rest) = l :: splitlines rest.
Proof.
  intros (body & Hbody & [-> | ->]);
    [by apply splitlines_lf | by apply splitlines_crlf].
Qed.

Lemma splitlines_join (lines : list string) :
  Forall proper_line lines → splitlines (join lines) = lines.
Proof.
  induction 1 as [|l lines Hl _ IH]; simpl; [done|].
  by rewrite splitlines_proper, IH.
Qed.

(** *** Stripping *)

(** Stripping the line feeds of a text that has one, at its end. *)
Lemma rstrip_nl_one (s : string) :
  all_chars (λ a, negb (Ascii.eqb LF a)) s = true → rstrip_nl (s +:+ nl) = s.
Proof.
  unfold rstrip_nl. induction s as [|a s IH]; intros Hall.
  - reflexivity.
  - cbn [all_chars] in Hall. apply andb_true_iff in Hall as [Ha Hs].
    apply negb_true_iff in Ha.
    rewrite append_cons. cbn [rstrip]. rewrite (IH Hs), Ha.
    by destruct s.
Qed.

Lemma plain_no_LF (s : string) :
  plain s = true → all_chars (λ a, negb (Ascii.eqb LF a)) s = true.
Proof.
  apply all_chars_weaken.
  intros a Ha%negb_true_iff%not_linebreak_not_LF. by rewrite Ha.
Qed.

Lemma rstrip_nl_proper (body : string) :
  plain body = true → rstrip_nl (body +:+ nl) = body.
Proof. intros. by apply rstrip_nl_one, plain_no_LF. Qed.

Lemma rstrip_nl_crlf (body : string) :
  plain body = true →
  rstrip_nl (body +:+ crlf) = body +:+ String CR EmptyString.
Proof.
  intros Hbody.
  replace (body +:+ crlf) with ((body +:+ String CR EmptyString) +:+ nl)
    by by rewrite append_assoc.
  apply rstrip_nl_one. rewrite all_chars_append.
  by rewrite (plain_no_LF body Hbody).
Qed.

(** A text that ends with a carriage return is not plain. *)
Lemma plain_not_CR_ended (body marker : string) :
  plain marker = true → body +:+ String CR EmptyString ≠ marker.
Proof.
  intros Hmarker <-. unfold plain in Hmarker.
  rewrite all_chars_append in Hmarker.
  apply andb_true_iff in Hmarker as [_ Hcr]. discriminate Hcr.
Qed.

Lemma rstrip_length (cls : ascii → bool) (s : string) :
  (String.length (rstrip cls s) ≤ String.length s)%nat.
Proof.
  induction s as [|a s IH]; simpl; [done|].
  destruct (rstrip cls s); [destruct (cls a)|]; simpl in *; lia.
Qed.

Lemma lstrip_length (cls : ascii → bool) (s : string) :
  (String.length (lstrip cls s) ≤ String.length s)%nat.
Proof.
  induction s as [|a s IH]; simpl; [done|].
  destruct (cls a); simpl; lia.
Qed.

(** A stripped text that is not empty starts with a character that is not
    white space. *)
Lemma strip_fixpoint_head (a : ascii) (s : string) :
  strip (String a s) = String a s → is_space a = false.
Proof.
  unfold strip. intros Hfix.
  destruct (is_space a) eqn:Ha; [exfalso | done].
  pose proof (rstrip_length is_space s) as Hr.
  cbn [rstrip] in Hfix.
  destruct (rstrip is_space s) as [|b r] eqn:Hrs.
  - rewrite Ha in Hfix. discriminate Hfix.
  - cbn [lstrip] in Hfix. rewrite Ha in Hfix.
    pose proof (lstrip_length is_space (String b r)) as Hl.
    cbn [lstrip] in Hl. rewrite Hfix in Hl. simpl in *. lia.
Qed.

(** *** Matching *)

(** When every character of the subject is in the class and the
    continuation accepts the whole subject, the longest run is the match. *)
Lemma greedy_star_all {R} (cls : ascii → bool) (s : string) :
  ∀ (k : string → string → option R) (x : R),
    all_chars cls s = true → k s EmptyString = Some x →
    greedy_star cls s k = Some x.
Proof.
  induction s as [|a s IH]; intros k x Hall Hk; simpl; [done|].
  simpl in Hall. apply andb_true_iff in Hall as [-> Hs].
  by rewrite (IH (λ m r, k (String a m) r) x Hs Hk).
Qed.

Lemma greedy_plus_all (cls : ascii → bool) (s : string) :
  all_chars cls s = true → s ≠ EmptyString →
  greedy_plus cls s (λ g r, if at_end r then Some g else None) = Some s.
Proof.
  destruct s as [|a s]; [done|]. simpl. intros Hall _.
  apply andb_true_iff in Hall as [-> Hs].
  by apply greedy_star_all.
Qed.

Lemma digit_not_space (a : ascii) : is_digit a = true → is_space a = false.
Proof.
  unfold is_digit, is_space. generalize (code a). intros n.
  rewrite andb_true_iff, !N.leb_le. intros [H1 H2].
  repeat (apply orb_false_iff; split); try apply andb_false_iff;
    rewrite ?N.leb_gt, ?N.eqb_neq; lia.
Qed.

Lemma digit_not_linebreak (a : ascii) :
  is_digit a = true → negb (is_linebreak a) = true.
Proof.
  unfold is_digit, is_linebreak. generalize (code a). intros n.
  rewrite andb_true_iff, !N.leb_le. intros [H1 H2].
  apply negb_true_iff.
  repeat (apply orb_false_iff; split); try apply andb_false_iff;
    rewrite ?N.leb_gt, ?N.eqb_neq; lia.
Qed.

Lemma not_linebreak_dot (a : ascii) :
  negb (is_linebreak a) = true → is_dot a = true.
Proof.
  intros Ha%negb_true_iff%not_linebreak_not_LF. unfold is_dot.
  by rewrite Ascii.eqb_sym, Ha.
Qed.

(** *** Numbers *)

Lemma digits_all (d : Decimal.uint) :
  all_chars is_digit (NilEmpty.string_of_uint d) = true.
Proof. induction d; simpl; done. Qed.

Lemma digits_not_empty (d : Decimal.uint) :
  d ≠ Decimal.Nil → NilEmpty.string_of_uint d ≠ EmptyString.
Proof. by destruct d. Qed.

Lemma to_uint_not_nil (n : N) : N.to_uint n ≠ Decimal.Nil.
Proof.
  destruct n as [|p]; [done|]. apply DecimalPos.Unsigned.to_uint_nonnil.
Qed.

Lemma int_str_of_int (n : Z) : 0 ≤ n → int (str_of_int n) = n.
Proof.
  intros Hn. unfold int, str_of_int.
  destruct (Z.ltb_spec n 0); [lia|].
  rewrite NilEmpty.usu, DecimalN.Unsigned.of_to. lia.
Qed.

(** *** The two patterns *)

Lemma file_pattern_header (file_path : string) :
  plain_path file_path →
  ∃ g : string,
    file_pattern ("file: " +:+ file_path) = Some g ∧ strip g = file_path.
Proof.
  intros [Hplain Hstrip].
  destruct file_path as [|a p]; [by exists " "|].
  exists (String a p). split; [|done].
  apply strip_fixpoint_head in Hstrip as Ha.
  rewrite !append_cons, append_nil_l. unfold file_pattern.
  cbn [literal]. rewrite !Ascii.eqb_refl.
  cbn [greedy_star]. rewrite Ha.
  replace (is_space " ") with true by done.
  rewrite greedy_plus_all; [done | | done].
  eapply all_chars_weaken; [apply not_linebreak_dot | exact Hplain].
Qed.

Lemma old_pattern_header (n : Z) :
  0 ≤ n → old_pattern ("@@old " +:+ str_of_int n) = Some (str_of_int n).
Proof.
  intros Hn. unfold str_of_int. destruct (Z.ltb_spec n 0); [lia|].
  pose proof (digits_all (N.to_uint (Z.to_N n))) as Hall.
  pose proof (digits_not_empty _ (to_uint_not_nil (Z.to_N n))) as Hne.
  destruct (NilEmpty.string_of_uint (N.to_uint (Z.to_N n))) as [|a ds];
    [done|].
  rewrite !append_cons, append_nil_l. unfold old_pattern.
  cbn [literal]. rewrite !Ascii.eqb_refl.
  unfold greedy_plus at 1. replace (is_space " ") with true by done.
  cbn [greedy_star].
  assert (is_space a = false) as ->.
  { apply digit_not_space. simpl in Hall. by apply andb_true_iff in Hall as [? _]. }
  by rewrite greedy_plus_all.
Qed.

(** ** The codec *)

Lemma collect_until_length (marker : string) (lines : list string) :
  (length (collect_until marker lines).2 ≤ length lines)%nat.
Proof.
  induction lines as [|l lines IH]; simpl; [done|].
  destruct (String.eqb (rstrip_nl l) marker); simpl; [lia|].
  destruct (collect_until marker lines) as [got rest]. simpl in *. lia.
Qed.

(** Any fuel that covers the lines gives the same records. *)
Lemma parse_hunks_enough_fuel (fuel1 : nat) :
  ∀ (fuel2 : nat) (lines : list string),
    (length lines ≤ fuel1)%nat → (length lines ≤ fuel2)%nat →
    parse_hunks fuel1 lines = parse_hunks fuel2 lines.
Proof.
  induction fuel1 as [|fuel1 IH]; intros fuel2 lines H1 H2.
  - destruct lines; [|simpl in H1; lia]. by destruct fuel2.
  - destruct lines as [|l rest]; [by destruct fuel2|].
    destruct fuel2 as [|fuel2]; [simpl in H2; lia|].
    simpl in H1, H2. simpl.
    destruct (old_pattern (rstrip_nl l)); [|apply IH; lia].
    pose proof (collect_until_length "@@new" rest) as Hlen1.
    destruct (collect_until "@@new" rest) as [old_lines rest1].
    pose proof (collect_until_length "@@end" rest1) as Hlen2.
    destruct (collect_until "@@end" rest1) as [new_lines rest2].
    simpl in Hlen1, Hlen2. f_equal. apply IH; lia.
Qed.

Lemma parse_hunks_fuel (fuel : nat) (lines : list string) :
  (length lines ≤ fuel)%nat →
  parse_hunks fuel lines = parse_hunks (length lines) lines.
Proof. intros. by apply parse_hunks_enough_fuel. Qed.

(** Lines that do not read as the marker are collected up to the marker
    line. *)
Lemma collect_until_marker (marker : string) (lines rest : list string) :
  plain marker = true →
  Forall (λ l, proper_line l ∧ l ≠ marker +:+ nl) lines →
  collect_until marker (lines ++ (marker +:+ nl) :: rest) = (lines, rest).
Proof.
  intros Hmarker.
  induction 1 as [|l lines [(body & Hbody & [-> | ->]) Hne] _ IH]; simpl.
  - by rewrite rstrip_nl_proper, String.eqb_refl.
  - rewrite rstrip_nl_proper by done.
    destruct (String.eqb_spec body marker) as [->|_]; [done|].
    by rewrite IH.
  - rewrite rstrip_nl_crlf by done.
    destruct (String.eqb_spec (body +:+ String CR EmptyString) marker)
      as [Heq|_]; [by apply plain_not_CR_ended in Heq|].
    by rewrite IH.
Qed.

Lemma proper_line_plain (body : string) :
  plain body = true → proper_line (body +:+ nl).
Proof. intros. exists body. by split; [|left]. Qed.

Lemma group_lines_proper (g : ChangeGroup.t) :
  representable g → Forall proper_line (group_lines g).
Proof.
  intros (Hline & Hold & Hnew). unfold group_lines.
  repeat first [apply Forall_app; split | apply Forall_cons; split
               | apply Forall_nil_2].
  - by apply (proper_line_plain "").
  - rewrite <- append_assoc. apply proper_line_plain.
    unfold plain, str_of_int. rewrite all_chars_append.
    destruct (Z.ltb_spec (ChangeGroup.old_line g) 0); [lia|].
    apply andb_true_iff. split; [done|].
    eapply all_chars_weaken; [apply digit_not_linebreak | apply digits_all].
  - eapply Forall_impl; [exact Hold|]. by intros l [? _].
  - by apply (proper_line_plain "@@new").
  - eapply Forall_impl; [exact Hnew|]. by intros l [? _].
  - by apply (proper_line_plain "@@end").
Qed.

(** The text of a group is the text of its lines. *)
Lemma join_group_parts (g : ChangeGroup.t) (rest : list string) :
  join (group_parts g ++ rest) = join (group_lines g ++ rest).
Proof.
  unfold group_parts, group_lines. simpl. by rewrite append_assoc.
Qed.

Lemma join_app (xs ys : list string) : join (xs ++ ys) = join xs +:+ join ys.
Proof.
  induction xs as [|x xs IH]; simpl; [done|]. by rewrite IH, append_assoc.
Qed.

Lemma join_groups (groups : list ChangeGroup.t) :
  join (flat_map group_parts groups) = join (flat_map group_lines groups).
Proof.
  induction groups as [|g groups IH]; cbn [flat_map]; [done|].
  rewrite join_group_parts, !join_app. by rewrite IH.
Qed.

(** The second loop reads one group back and goes on with the rest. *)
Lemma parse_hunks_group (g : ChangeGroup.t) (rest : list string) :
  representable g →
  parse_hunks (length (group_lines g ++ rest)) (group_lines g ++ rest)
  = as_update g :: parse_hunks (length rest) rest.
Proof.
  intros (Hline & Hold & Hnew). unfold group_lines.
  cbn [app length parse_hunks].
  replace (rstrip_nl nl) with EmptyString by done.
  replace (old_pattern EmptyString) with (@None string) by done.
  rewrite <- append_assoc, rstrip_nl_proper.
  2:{ unfold plain, str_of_int. rewrite all_chars_append.
      destruct (Z.ltb_spec (ChangeGroup.old_line g) 0); [lia|].
      apply andb_true_iff. split; [done|].
      eapply all_chars_weaken; [apply digit_not_linebreak | apply digits_all]. }
  rewrite old_pattern_header by done.
  rewrite <- !app_assoc. cbn [app].
  rewrite (collect_until_marker "@@new") by done.
  rewrite <- !app_assoc. cbn [app].
  rewrite (collect_until_marker "@@end") by done.
  rewrite int_str_of_int by done. f_equal.
  apply parse_hunks_fuel.
  repeat first [rewrite length_app | progress cbn [length]]. lia.
Qed.

Lemma parse_hunks_groups (groups : list ChangeGroup.t) :
  Forall representable groups →
  parse_hunks (length (flat_map group_lines groups))
    (flat_map group_lines groups)
  = as_update <$> groups.
Proof.
  induction 1 as [|g groups Hg _ IH]; cbn [flat_map]; [done|].
  by rewrite parse_hunks_group, IH.
Qed.

(** C1, as stated, for a group whose only old line reads ["@@new"]: the
    parser takes that line for the separator, and the record read back
    has no old line and one new line. *)
Lemma separator_line_breaks_round_trip :
  parse_updates_file
    (format_updates_file "f" [ChangeGroup.mk 1 ["@@new" +:+ nl] []])
  ≠ ("f", [UpdateHunk.mk 1 ["@@new" +:+ nl] []]).
Proof. vm_compute. discriminate. Qed.

(** Each condition of the amended claim is needed: a negative line
    number does not match [\d+] and the record is lost; white space around
    the path is stripped; a last line without terminator runs into the
    marker line after it; a line with a second line boundary is read as
    two lines. *)
Example negative_line_number_breaks_round_trip :
  parse_updates_file
    (format_updates_file "f" [ChangeGroup.mk (-1) ["x" +:+ nl] []])
  = ("f", []).
Proof. reflexivity. Qed.

Example padded_path_breaks_round_trip :
  parse_updates_file (format_updates_file " f " []) = ("f", []).
Proof. reflexivity. Qed.

Example unterminated_line_breaks_round_trip :
  parse_updates_file (format_updates_file "f" [ChangeGroup.mk 1 [] ["x"]])
  = ("f", [UpdateHunk.mk 1 [] ["x@@end" +:+ nl]]).
Proof. reflexivity. Qed.

Example inner_line_boundary_breaks_round_trip :
  parse_updates_file
    (format_updates_file "f"
       [ChangeGroup.mk 1 [] ["x" +:+ String CR ("y" +:+ nl)]])
  = ("f", [UpdateHunk.mk 1 [] ["x" +:+ String CR EmptyString; "y" +:+ nl]]).
Proof. reflexivity. Qed.

(** C1, amended. For every plain path without white space around it and
    every sequence of groups the format can carry (a line number that is
    not negative; lines of plain text ended by one ["\n"] or ["\r\n"]; no
    old line ["@@new"], no new line ["@@end"]), parsing the output of the
    serializer gives back the path and, in order, the
    [(old_line, old_lines, new_lines)] triples of the groups. *)
Theorem format_parse_round_trip (file_path : string)
  (groups : list ChangeGroup.t) :
  plain_path file_path →
  Forall representable groups →
  parse_updates_file (format_updates_file file_path groups)
  = (file_path, as_update <$> groups).
Proof.
  intros Hpath Hgroups.
  unfold parse_updates_file, format_updates_file.
  assert (join (("file: " +:+ file_path +:+ nl) :: flat_map group_parts groups)
          = join ((("file: " +:+ file_path) +:+ nl)
                    :: flat_map group_lines groups)) as ->.
  { simpl. by rewrite join_groups, append_assoc. }
  rewrite splitlines_join.
  2:{ apply Forall_cons. split.
      - apply proper_line_plain. unfold plain. rewrite all_chars_append.
        apply andb_true_iff. split; [done | apply Hpath].
      - apply Forall_flat_map. eapply Forall_impl; [exact Hgroups|].
        apply group_lines_proper. }
  cbn [parse_header]. rewrite rstrip_nl_proper.
  2:{ unfold plain. rewrite all_chars_append.
      apply andb_true_iff. split; [done | apply Hpath]. }
  destruct (file_pattern_header file_path Hpath) as (g & -> & ->).
  by rewrite parse_hunks_groups.
Qed.

Lemma format_parse_round_trip_witness :
  parse_updates_file
    (format_updates_file "src/auth.py"
       [ChangeGroup.mk 43 ["old line 1" +:+ nl; "old line 2" +:+ nl]
          ["new line 1" +:+ nl; "new line 2" +:+ nl; "new line 3" +:+ nl];
        ChangeGroup.mk 88 ["deleted line" +:+ nl] [];
        ChangeGroup.mk 100 []
          ["inserted line 1" +:+ nl; "inserted line 2" +:+ nl]])
  = ("src/auth.py",
     as_update <$>
       [ChangeGroup.mk 43 ["old line 1" +:+ nl; "old line 2" +:+ nl]
          ["new line 1" +:+ nl; "new line 2" +:+ nl; "new line 3" +:+ nl];
        ChangeGroup.mk 88 ["deleted line" +:+ nl] [];
        ChangeGroup.mk 100 []
          ["inserted line 1" +:+ nl; "inserted line 2" +:+ nl]]).
Proof.
  apply format_parse_round_trip.
  - split; reflexivity.
  - repeat first [ apply Forall_nil_2
                 | apply Forall_cons; split
                 | apply proper_line_plain
                 | reflexivity
                 | discriminate
                 | lia
                 | split ].
Defined.

(** ** The validator *)

Lemma overlap_sym (a b : UpdateHunk.t) : overlap a b = overlap b a.
Proof. unfold overlap. apply andb_comm. Qed.

(** Two records with old lines overlap exactly when they share a line. *)
Lemma overlap_shared_line (a b : UpdateHunk.t) :
  UpdateHunk.old_lines a ≠ [] → UpdateHunk.old_lines b ≠ [] →
  overlap a b = true ↔ ∃ x, in_range a x ∧ in_range b x.
Proof.
  intros Ha Hb. unfold overlap, in_range, range_end.
  destruct (UpdateHunk.old_lines a) as [|oa la]; [done|].
  destruct (UpdateHunk.old_lines b) as [|ob lb]; [done|].
  unfold len. simpl truthy. cbv iota.
  rewrite andb_true_iff, !Z.leb_le. split.
  - intros [H1 H2].
    exists (Z.max (UpdateHunk.old_line a) (UpdateHunk.old_line b)).
    simpl length in *. lia.
  - intros (x & H1 & H2). lia.
Qed.

(** Two pure insertions never overlap. *)
Lemma insertions_never_overlap (a b : UpdateHunk.t) :
  pure_insertion a → pure_insertion b → overlap a b = false.
Proof.
  unfold pure_insertion, overlap, range_end. intros -> ->. simpl.
  apply andb_false_iff. rewrite !Z.leb_gt. lia.
Qed.

(** A pure insertion overlaps a record with old lines exactly when its
    anchor is after the first and not after the last line of that record. *)
Lemma insertion_overlap (a b : UpdateHunk.t) :
  pure_insertion a →
  overlap a b = true
  ↔ UpdateHunk.old_line b < UpdateHunk.old_line a ≤ range_end b.
Proof.
  unfold pure_insertion, overlap. intros Ha.
  unfold range_end at 2. rewrite Ha. simpl.
  rewrite andb_true_iff, !Z.leb_le. lia.
Qed.

Lemma validate_against_ok (a : UpdateHunk.t) (later : list UpdateHunk.t) :
  validate_against a later = Ok tt ↔ Forall (λ b, overlap a b = false) later.
Proof.
  induction later as [|b later IH]; simpl.
  - split; [constructor | done].
  - destruct (overlap a b) eqn:Hab.
    + split; [done|]. intros Hall. inversion Hall; congruence.
    + rewrite IH. split; [by constructor|]. by inversion 1.
Qed.

(** The validator passes exactly when no record overlaps a later one. *)
Lemma validate_hunks_ok (hunks : list UpdateHunk.t) :
  validate_hunks hunks = Ok tt
  ↔ ForallOrdPairs (λ a b, overlap a b = false) hunks.
Proof.
  induction hunks as [|a hunks IH]; simpl.
  - split; [constructor | done].
  - destruct (validate_against a hunks) as [[]|e] eqn:Ha.
    + rewrite IH. apply validate_against_ok in Ha. split.
      * intros Hrest. by constructor.
      * by inversion 1.
    + split; [done|]. inversion 1 as [|?? Hhd Htl]; subst.
      apply validate_against_ok in Hhd. congruence.
Qed.

(** It fails exactly when some record overlaps a later one. *)
Lemma validate_hunks_fails (hunks : list UpdateHunk.t) :
  is_ok (validate_hunks hunks) = false
  ↔ ∃ i j a b, (i < j)%nat ∧ hunks !! i = Some a ∧ hunks !! j = Some b
               ∧ overlap a b = true.
Proof.
  induction hunks as [|a hunks IH]; simpl.
  - split; [done|]. by intros (i & j & x & y & _ & Hi & _).
  - destruct (validate_against a hunks) as [[]|e] eqn:Ha.
    + rewrite IH. apply validate_against_ok in Ha. split.
      * intros (i & j & x & y & Hij & Hi & Hj & Hxy).
        exists (S i), (S j), x, y. split; [lia | done].
      * intros (i & j & x & y & Hij & Hi & Hj & Hxy).
        destruct j as [|j]; [lia|]. destruct i as [|i].
        -- injection Hi as <-. simpl in Hj.
           rewrite Forall_forall in Ha.
           rewrite (Ha y) in Hxy; [done|]. by eapply list_elem_of_lookup_2.
        -- exists i, j, x, y. split; [lia | done].
    + split; [|done]. intros _.
      assert (¬ Forall (λ b, overlap a b = false) hunks) as Hnot.
      { intros Hall%validate_against_ok. congruence. }
      apply not_Forall_Exists in Hnot; [|intros b; apply _].
      apply Exists_exists in Hnot as (b & Hb & Hab).
      apply list_elem_of_lookup in Hb as [j Hj].
      exists 0%nat, (S j), a, b.
      split; [lia|]. split; [done|]. split; [done|].
      simpl in Hab. by destruct (overlap a b).
Qed.

Lemma is_ok_validate (hunks : list UpdateHunk.t) :
  is_ok (validate_hunks hunks) = true ↔ validate_hunks hunks = Ok tt.
Proof. by destruct (validate_hunks hunks) as [[]|e]. Qed.

Lemma ordered_pairs_permutation {A} (R : A → A → Prop) (l l' : list A) :
  (∀ x y, R x y → R y x) →
  l ≡ₚ l' → ForallOrdPairs R l → ForallOrdPairs R l'.
Proof.
  intros Hsym. induction 1 as [|x l l' Hperm IH|x y l|l1 l2 l3 _ IH1 _ IH2].
  - done.
  - inversion 1 as [|?? Hhd Htl]; subst. constructor; [|by apply IH].
    by rewrite <- Hperm.
  - inversion 1 as [|?? Hy Htl]; subst.
    inversion Htl as [|?? Hx Hrest]; subst.
    inversion Hy as [|?? Hyx Hyl]; subst.
    constructor; [constructor; [by apply Hsym | done]|].
    by constructor.
  - intros. by apply IH2, IH1.
Qed.

(** The verdict of the validator does not depend on the order of the
    records. *)
Lemma validate_hunks_permutation (hunks hunks' : list UpdateHunk.t) :
  hunks ≡ₚ hunks' →
  is_ok (validate_hunks hunks) = is_ok (validate_hunks hunks').
Proof.
  intros Hperm. apply eq_true_iff_eq.
  rewrite !is_ok_validate, !validate_hunks_ok. split.
  - apply ordered_pairs_permutation; [|done].
    intros x y. by rewrite overlap_sym.
  - apply ordered_pairs_permutation; [|done].
    intros x y. by rewrite overlap_sym.
Qed.

Lemma insert_by_old_line_permutation (h : UpdateHunk.t)
  (sorted : list UpdateHunk.t) :
  insert_by_old_line h sorted ≡ₚ h :: sorted.
Proof.
  induction sorted as [|h' sorted IH]; simpl; [done|].
  destruct (UpdateHunk.old_line h <=? UpdateHunk.old_line h'); [done|].
  rewrite IH. apply Permutation_swap.
Qed.

Lemma sort_hunks_permutation (hunks : list UpdateHunk.t) :
  sort_hunks hunks ≡ₚ hunks.
Proof.
  induction hunks as [|h hunks IH]; simpl; [done|].
  by rewrite insert_by_old_line_permutation, IH.
Qed.

(** C3, at a pure insertion whose anchor lies inside the range of a
    replacement: lines 10 to 14 are replaced and an insertion is anchored
    at line 12. The range of the insertion, from 12 to 11, holds no base
    line, yet the validator reports a range conflict, in either order of
    the two records. *)
Theorem insertion_inside_replaced_range_conflicts :
  let replacement := UpdateHunk.mk 10 ["a"; "b"; "c"; "d"; "e"] ["x"] in
  let insertion := UpdateHunk.mk 12 [] ["y"] in
  UpdateHunk.old_line insertion = 12
  ∧ range_end insertion = 11
  ∧ validate_hunks [replacement; insertion] = Err (RangeConflict 10 12)
  ∧ validate_hunks [insertion; replacement] = Err (RangeConflict 12 10).
Proof. by repeat split. Qed.

(** ** Slices *)

Lemma slice_assign_before_last {A} (init : list A) (x : A) (v : list A) :
  py_slice_assign (init ++ [x]) (-1) (-1) v = init ++ v ++ [x].
Proof.
  unfold py_slice_assign, slice_bound. simpl.
  rewrite length_app. simpl.
  replace (Z.max (-1 + Z.of_nat (length init + 1)) 0)
    with (Z.of_nat (length init)) by lia.
  rewrite Z.max_id, Nat2Z.id.
  by rewrite take_app_length, drop_app_length.
Qed.

(** A slice whose bounds are not negative is read by [drop] and [take]. *)
Lemma py_slice_nonneg {A} (l : list A) (lo n : Z) :
  0 ≤ lo → 0 ≤ n →
  py_slice l lo (lo + n) = take (Z.to_nat n) (drop (Z.to_nat lo) l).
Proof.
  intros Hlo Hn. unfold py_slice, slice_bound.
  destruct (Z.ltb_spec lo 0); [lia|].
  destruct (Z.ltb_spec (lo + n) 0); [lia|].
  destruct (Z.le_gt_cases lo (Z.of_nat (length l))) as [Hle | Hgt].
  - rewrite (Z.min_l lo) by done.
    destruct (Z.le_gt_cases (lo + n) (Z.of_nat (length l))).
    + rewrite Z.min_l by done. f_equal. lia.
    + rewrite Z.min_r by lia.
      rewrite !take_ge; [done | |]; rewrite length_drop; lia.
  - rewrite !Z.min_r by lia.
    rewrite !drop_ge by lia. by rewrite !take_nil.
Qed.

(** The slice the replayer compares with the old lines of a record is,
    for a computed position [p ≥ 1], the [n] lines from line [p] on. *)
Lemma py_slice_segment (l : list string) (p n : Z) :
  1 ≤ p → 0 ≤ n → py_slice l (p - 1) (p - 1 + n) = segment l p n.
Proof. intros Hp Hn. unfold segment. apply py_slice_nonneg; lia. Qed.

Lemma py_slice_assign_nonneg {A} (l v : list A) (lo n : Z) :
  0 ≤ lo → 0 ≤ n →
  py_slice_assign l lo (lo + n) v
  = take (Z.to_nat lo) l ++ v ++ drop (Z.to_nat (lo + n)) l.
Proof.
  intros Hlo Hn. unfold py_slice_assign, slice_bound.
  destruct (Z.ltb_spec lo 0); [lia|].
  destruct (Z.ltb_spec (lo + n) 0); [lia|].
  destruct (Z.le_gt_cases lo (Z.of_nat (length l))) as [Hle | Hgt].
  - rewrite (Z.min_l lo) by done. f_equal. f_equal.
    destruct (Z.le_gt_cases (lo + n) (Z.of_nat (length l))).
    + rewrite Z.min_l by done. f_equal. lia.
    + rewrite Z.min_r by lia. rewrite !drop_ge; [done | lia | lia].
  - rewrite !Z.min_r by lia. rewrite Z.max_id.
    rewrite !take_ge by lia. rewrite !drop_ge by lia. done.
Qed.

(** ** The replayer: heap and list readings agree *)

Lemma deref_insert (σ : heap) (l : loc) (v : list string) :
  deref (<[l:=v]> σ) l = v.
Proof. unfold deref. by rewrite lookup_insert_eq. Qed.

Lemma apply_loop_replay (r : loc) (hunks : list UpdateHunk.t) :
  ∀ (σ : heap) (cur : list string) (offset : Z),
    ∃ cur' : list string,
      apply_loop r (<[r:=cur]> σ) offset hunks
      = (<[r:=cur']> σ, discard (replay cur offset hunks))
      ∧ ∀ res, replay cur offset hunks = Ok res → cur' = res.
Proof.
  induction hunks as [|hunk hunks IH]; intros σ cur offset; simpl.
  - exists cur. split; [done|]. by intros res [= <-].
  - rewrite deref_insert.
    destruct (truthy (UpdateHunk.old_lines hunk)).
    + case_bool_decide as Hcmp.
      * exists cur. split; [done|]. intros res Hres. discriminate Hres.
      * rewrite insert_insert_eq. apply IH.
    + rewrite insert_insert_eq. apply IH.
Qed.

Lemma apply_hunks_replay (σ : heap) (lines : loc) (hunks : list UpdateHunk.t) :
  ∃ cur' : list string,
    apply_hunks σ lines hunks
    = (<[fresh (dom σ) := cur']> σ,
       match replay (deref σ lines) 0 hunks with
       | Ok _ => Ok (fresh (dom σ))
       | Err e => Err e
       end)
    ∧ ∀ res, replay (deref σ lines) 0 hunks = Ok res → cur' = res.
Proof.
  unfold apply_hunks.
  destruct (apply_loop_replay (fresh (dom σ)) hunks σ (deref σ lines) 0)
    as (cur' & Heq & Hres).
  exists cur'. rewrite Heq. split; [|done].
  by destruct (replay (deref σ lines) 0 hunks).
Qed.

Lemma fresh_not_allocated (σ : heap) : σ !! fresh (dom σ) = None.
Proof. apply not_elem_of_dom, is_fresh. Qed.

Lemma replay_app (pre post : list UpdateHunk.t) :
  ∀ (cur : list string) (offset : Z),
    replay cur offset (pre ++ post)
    = match replay cur offset pre with
      | Ok mid => replay mid (offset + net_delta pre) post
      | Err e => Err e
      end.
Proof.
  induction pre as [|h pre IH]; intros cur offset; simpl.
  - f_equal. lia.
  - destruct (truthy (UpdateHunk.old_lines h)) eqn:Hold.
    + case_bool_decide; [done|]. rewrite IH.
      destruct (replay _ _ pre); [f_equal; lia | done].
    + rewrite IH. destruct (UpdateHunk.old_lines h); [|done].
      destruct (replay _ _ pre); [f_equal; unfold len; simpl; lia | done].
Qed.

(** A stale-content error always shows the old lines of a record that has
    some. *)
Lemma replay_error_origin (hunks : list UpdateHunk.t) :
  ∀ (cur : list string) (offset : Z) (e : error),
    replay cur offset hunks = Err e →
    ∃ h pos actual,
      h ∈ hunks ∧ UpdateHunk.old_lines h ≠ []
      ∧ e = StaleContent pos (UpdateHunk.old_lines h) actual.
Proof.
  induction hunks as [|h hunks IH]; intros cur offset e; simpl; [done|].
  destruct (truthy (UpdateHunk.old_lines h)) eqn:Hold.
  - case_bool_decide.
    + intros [= <-]. eexists h, _, _. split; [left|].
      split; [|done]. by destruct (UpdateHunk.old_lines h).
    + intros (h' & pos & act & Hin & ?)%IH. exists h', pos, act.
      split; [by right | done].
  - intros (h' & pos & act & Hin & ?)%IH. exists h', pos, act.
    split; [by right | done].
Qed.

Lemma replay_insertions (hunks : list UpdateHunk.t) :
  Forall pure_insertion hunks →
  ∀ (cur : list string) (offset : Z), ∃ res, replay cur offset hunks = Ok res.
Proof.
  induction 1 as [|h hunks Hh _ IH]; intros cur offset; simpl; [by eexists|].
  rewrite Hh. simpl. apply IH.
Qed.

(** ** The replayer: claims *)

(** C10. Every pure-insertion group made by [split_into_change_groups] has
    [old_line = 0]; and when [apply_hunks] reaches a pure insertion with
    [old_line = 0] with an accumulated offset of 0 (the records [pre]
    before it have net change 0; none, for instance) on a content that is
    not empty, the splice index is [0 + 0 - 1 = -1]: the new lines go
    immediately before the last line, not at the start. *)
Theorem insertion_at_line_zero_lands_before_last_line :
  (∀ (hunk : Hunk.t) (g : ChangeGroup.t),
      g ∈ split_into_change_groups hunk →
      ChangeGroup.old_lines g = [] → ChangeGroup.old_line g = 0)
  ∧ ∀ (σ : heap) (lines : loc) (base init : list string)
      (last_line : string) (pre : list UpdateHunk.t)
      (new_lines : list string),
      σ !! lines = Some base →
      replay base 0 pre = Ok (init ++ [last_line]) →
      net_delta pre = 0 →
      py_slice_assign (init ++ [last_line]) (0 + 0 - 1) (0 + 0 - 1) new_lines
      = init ++ new_lines ++ [last_line]
      ∧ ∃ (σ' : heap) (r : loc),
          apply_hunks σ lines (pre ++ [UpdateHunk.mk 0 [] new_lines])
          = (σ', Ok r)
          ∧ σ' !! r = Some (init ++ new_lines ++ [last_line]).
Proof.
  split; [apply split_insertion_anchor|].
  intros σ lines base init last_line pre new_lines Hbase Hpre Hzero.
  split; [apply slice_assign_before_last|].
  destruct (apply_hunks_replay σ lines (pre ++ [UpdateHunk.mk 0 [] new_lines]))
    as (cur' & Heq & Hres).
  unfold deref in Heq, Hres. rewrite Hbase in Heq, Hres. simpl in Heq, Hres.
  rewrite replay_app, Hpre, Hzero in Heq, Hres. simpl in Heq, Hres.
  eexists _, _. split; [exact Heq|].
  rewrite lookup_insert_eq. f_equal.
  rewrite (Hres _ eq_refl). apply slice_assign_before_last.
Qed.

Lemma insertion_at_line_zero_witness :
  ∃ (σ' : heap) (r : loc),
    apply_hunks {[1%positive := ["a"; "b"; "c"]]} 1%positive
      ([UpdateHunk.mk 1 ["a"] ["z"]] ++ [UpdateHunk.mk 0 [] ["x"]])
    = (σ', Ok r)
    ∧ σ' !! r = Some (["z"; "b"] ++ ["x"] ++ ["c"]).
Proof.
  apply (proj2 insertion_at_line_zero_lands_before_last_line
           {[1%positive := ["a"; "b"; "c"]]} 1%positive ["a"; "b"; "c"]
           ["z"; "b"] "c" [UpdateHunk.mk 1 ["a"] ["z"]] ["x"]);
    reflexivity.
Defined.

(** C9. [apply_hunks] never raises a stale-content error for a record with
    empty [old_lines]: an error it raises shows the old lines of a record
    that has some, and a sequence of pure insertions is replayed
    successfully whatever the [old_line] values and the base are. *)
Theorem insertion_never_stale (σ : heap) (lines : loc)
  (hunks : list UpdateHunk.t) :
  (∀ (σ' : heap) (e : error),
      apply_hunks σ lines hunks = (σ', Err e) →
      ∃ h pos actual,
        h ∈ hunks ∧ UpdateHunk.old_lines h ≠ []
        ∧ e = StaleContent pos (UpdateHunk.old_lines h) actual)
  ∧ (Forall pure_insertion hunks →
     ∃ (σ' : heap) (r : loc), apply_hunks σ lines hunks = (σ', Ok r)).
Proof.
  destruct (apply_hunks_replay σ lines hunks) as (cur' & Heq & _).
  split.
  - intros σ' e. rewrite Heq.
    destruct (replay _ _ hunks) as [res|e'] eqn:Hrep; intros [= <- <-].
    by eapply replay_error_origin.
  - intros Hins.
    destruct (replay_insertions hunks Hins (deref σ lines) 0) as [res Hrep].
    rewrite Hrep in Heq. by eexists _, _.
Qed.

Lemma insertion_never_stale_witness :
  ∃ (σ' : heap) (r : loc),
    apply_hunks {[1%positive := ["a"]]} 1%positive
      [UpdateHunk.mk 57 [] ["x"]; UpdateHunk.mk (-3) [] ["y"]] = (σ', Ok r).
Proof.
  apply (proj2 (insertion_never_stale {[1%positive := ["a"]]} 1%positive
                  [UpdateHunk.mk 57 [] ["x"]; UpdateHunk.mk (-3) [] ["y"]])).
  repeat constructor.
Defined.

(** When the records before [h] replay successfully and leave the
    content [mid], and [h] has old lines that differ from the slice the
    loop reads, [apply_hunks] fails with a stale-content error that
    carries the computed position, the expected lines and that slice; the
    caller's list object is as it was. *)
Lemma stale_record_raises (σ : heap) (lines : loc)
  (base mid : list string) (pre post : list UpdateHunk.t) (h : UpdateHunk.t) :
  σ !! lines = Some base →
  replay base 0 pre = Ok mid →
  UpdateHunk.old_lines h ≠ [] →
  let adjusted_line := UpdateHunk.old_line h + net_delta pre in
  let actual :=
    py_slice mid (adjusted_line - 1)
      (adjusted_line - 1 + len (UpdateHunk.old_lines h)) in
  actual ≠ UpdateHunk.old_lines h →
  ∃ σ' : heap,
    apply_hunks σ lines (pre ++ h :: post)
    = (σ', Err (StaleContent adjusted_line (UpdateHunk.old_lines h) actual))
    ∧ σ' !! lines = Some base.
Proof.
  intros Hbase Hpre Hold adjusted_line actual Hne.
  destruct (apply_hunks_replay σ lines (pre ++ h :: post))
    as (cur' & Heq & _).
  unfold deref in Heq. rewrite Hbase in Heq. simpl in Heq.
  rewrite replay_app, Hpre in Heq. simpl in Heq.
  destruct (UpdateHunk.old_lines h) as [|o olds] eqn:Holds; [done|].
  simpl in Heq. rewrite Z.add_0_l in Heq.
  rewrite bool_decide_eq_true_2 in Heq by exact Hne.
  eexists. split; [exact Heq|].
  rewrite lookup_insert_ne; [done|].
  intros Hfresh. pose proof (fresh_not_allocated σ) as Hnone.
  rewrite Hfresh in Hnone. congruence.
Qed.

(** C8, as stated: after a successful call the caller's list object holds
    the result. It does not: the object is copied first
    ([result = list(lines)]), so on base ["a"; "b"; "c"] and a record that
    replaces line 2 the caller's list still holds the base while the
    returned list holds the rewritten content. *)
Lemma caller_list_not_mutated :
  ¬ ∀ (σ' : heap) (r : loc),
      apply_hunks {[1%positive := ["a"; "b"; "c"]]} 1%positive
        [UpdateHunk.mk 2 ["b"] ["x"]] = (σ', Ok r) →
      σ' !! 1%positive = σ' !! r.
Proof.
  intros Hclaim.
  specialize (Hclaim (<[2%positive := ["a"; "x"; "c"]]>
                        {[1%positive := ["a"; "b"; "c"]]}) 2%positive).
  assert (Hsame : (<[2%positive := ["a"; "x"; "c"]]>
                     {[1%positive := ["a"; "b"; "c"]]} : heap) !! 1%positive
                  = (<[2%positive := ["a"; "x"; "c"]]>
                       {[1%positive := ["a"; "b"; "c"]]} : heap) !! 2%positive)
    by (apply Hclaim; reflexivity).
  vm_compute in Hsame. discriminate Hsame.
Qed.

(** C8, amended. [apply_hunks] edits a fresh copy of the caller's list:
    every list object that existed before the call, the caller's among
    them, is unchanged after it, whether the call succeeds or fails; on
    success the location returned is a new one, and the object there holds
    the resulting full-file content. *)
Theorem apply_hunks_works_on_a_copy (σ σ' : heap) (lines : loc)
  (hunks : list UpdateHunk.t) (res : outcome loc) :
  apply_hunks σ lines hunks = (σ', res) →
  (∀ l : loc, l ∈ dom σ → σ' !! l = σ !! l)
  ∧ ∀ r : loc, res = Ok r →
      (r ∉ dom σ)
      ∧ ∃ content : list string,
          σ' !! r = Some content
          ∧ replay (deref σ lines) 0 hunks = Ok content.
Proof.
  destruct (apply_hunks_replay σ lines hunks) as (cur' & Heq & Hres).
  rewrite Heq. intros [= <- <-]. split.
  - intros l Hl. apply lookup_insert_ne. intros <-.
    by apply (is_fresh (dom σ)).
  - intros r Hr.
    destruct (replay (deref σ lines) 0 hunks) as [content|e]; [|done].
    injection Hr as <-. split; [apply is_fresh|].
    exists content. split; [|done].
    rewrite lookup_insert_eq. f_equal. by apply Hres.
Qed.

Lemma apply_hunks_works_on_a_copy_witness :
  (∀ l : loc, l ∈ dom ({[1%positive := ["a"; "b"; "c"]]} : heap) →
     (<[2%positive := ["a"; "x"; "c"]]> {[1%positive := ["a"; "b"; "c"]]} : heap)
       !! l
     = ({[1%positive := ["a"; "b"; "c"]]} : heap) !! l)
  ∧ ∀ r : loc, Ok 2%positive = Ok r →
      (r ∉ dom ({[1%positive := ["a"; "b"; "c"]]} : heap))
      ∧ ∃ content : list string,
          (<[2%positive := ["a"; "x"; "c"]]>
             {[1%positive := ["a"; "b"; "c"]]} : heap) !! r = Some content
          ∧ replay (deref {[1%positive := ["a"; "b"; "c"]]} 1%positive) 0
              [UpdateHunk.mk 2 ["b"] ["x"]] = Ok content.
Proof.
  apply (apply_hunks_works_on_a_copy {[1%positive := ["a"; "b"; "c"]]}
           (<[2%positive := ["a"; "x"; "c"]]> {[1%positive := ["a"; "b"; "c"]]})
           1%positive [UpdateHunk.mk 2 ["b"] ["x"]] (Ok 2%positive)).
  reflexivity.
Defined.

(** ** The replayer on well placed records *)

Lemma slice_bound_range (n i : Z) : 0 ≤ n → 0 ≤ slice_bound n i ≤ n.
Proof. unfold slice_bound. destruct (Z.ltb_spec i 0); lia. Qed.

(** A slice assignment changes the length by the length of the new lines
    less the length of the slice it replaces, whatever the bounds. *)
Lemma py_slice_assign_length {A} (l v : list A) (lo hi : Z) :
  len (py_slice_assign l lo hi v) = len l - len (py_slice l lo hi) + len v.
Proof.
  unfold py_slice_assign, py_slice, len.
  assert (0 ≤ Z.of_nat (length l)) as Hlen by lia.
  pose proof (slice_bound_range _ lo Hlen) as Ha.
  pose proof (slice_bound_range _ hi Hlen) as Hb.
  rewrite !length_app, !length_take, !length_drop. lia.
Qed.

(** A successful replay changes the length by the net change of the
    records, whatever the records are. *)
Lemma replay_length (hunks : list UpdateHunk.t) :
  ∀ (cur res : list string) (offset : Z),
    replay cur offset hunks = Ok res → len res = len cur + net_delta hunks.
Proof.
  induction hunks as [|h hunks IH]; intros cur res offset; simpl.
  - intros [= <-]. lia.
  - destruct (truthy (UpdateHunk.old_lines h)) eqn:Hold.
    + case_bool_decide as Hcmp; [done|].
      intros Hres%IH. rewrite Hres, py_slice_assign_length.
      rewrite Hcmp. lia.
    + intros Hres%IH. rewrite Hres, py_slice_assign_length.
      destruct (UpdateHunk.old_lines h); [|done].
      unfold py_slice. rewrite Z.sub_diag. simpl. unfold len. simpl. lia.
Qed.

(** Both branches of the loop body are one slice assignment: for a pure
    insertion the slice is empty and nothing is compared. *)
Lemma replay_step (cur : list string) (offset : Z) (h : UpdateHunk.t)
  (hunks : list UpdateHunk.t) :
  let start_idx := UpdateHunk.old_line h + offset - 1 in
  let stop_idx := start_idx + len (UpdateHunk.old_lines h) in
  py_slice cur start_idx stop_idx = UpdateHunk.old_lines h →
  replay cur offset (h :: hunks)
  = replay (py_slice_assign cur start_idx stop_idx (UpdateHunk.new_lines h))
      (offset + (len (UpdateHunk.new_lines h) - len (UpdateHunk.old_lines h)))
      hunks.
Proof.
  intros start_idx stop_idx Hsame. simpl.
  destruct (UpdateHunk.old_lines h) as [|o olds] eqn:Hold; simpl.
  - subst stop_idx start_idx. unfold len. simpl.
    rewrite Z.add_0_r, Z.sub_0_r. done.
  - rewrite bool_decide_eq_false_2; [done|]. intros Hne. by apply Hne.
Qed.

Lemma len_app {A} (xs ys : list A) : len (xs ++ ys) = len xs + len ys.
Proof. unfold len. rewrite length_app. lia. Qed.

Lemma segment_length (base : list string) (p n : Z) :
  1 ≤ p → 0 ≤ n → p + n - 1 ≤ len base → len (segment base p n) = n.
Proof.
  intros Hp Hn Hfit. unfold segment, len in *.
  rewrite length_take, length_drop. lia.
Qed.

Lemma segment_fits (base old : list string) (p : Z) :
  1 ≤ p ≤ len base + 1 → segment base p (len old) = old →
  p + len old - 1 ≤ len base.
Proof.
  intros Hp Hseg. apply (f_equal length) in Hseg.
  unfold segment, len in *. rewrite length_take, length_drop in Hseg. lia.
Qed.

(** Reading and writing behind a prefix [pre], in a list that continues
    with the base from line [lo] on. *)
Lemma drop_behind (pre base : list string) (lo k : Z) :
  1 ≤ lo → 0 ≤ k →
  drop (Z.to_nat (len pre + k)) (pre ++ drop (Z.to_nat (lo - 1)) base)
  = drop (Z.to_nat (lo + k - 1)) base.
Proof.
  intros Hlo Hk. unfold len.
  rewrite drop_app_ge by lia. rewrite drop_drop. f_equal. lia.
Qed.

Lemma take_behind (pre base : list string) (lo k : Z) :
  1 ≤ lo → 0 ≤ k →
  take (Z.to_nat (len pre + k)) (pre ++ drop (Z.to_nat (lo - 1)) base)
  = pre ++ segment base lo k.
Proof.
  intros Hlo Hk. unfold len, segment.
  rewrite take_app_ge by lia. do 2 f_equal. lia.
Qed.

(** On well placed records the replayer succeeds and builds the content
    the records describe. *)
Lemma replay_rebuild (base : list string) (hunks : list UpdateHunk.t) :
  ∀ (lo : Z) (pre : list string),
    1 ≤ lo ≤ len base + 1 →
    well_placed base lo hunks →
    replay (pre ++ drop (Z.to_nat (lo - 1)) base) (len pre - (lo - 1)) hunks
    = Ok (pre ++ rebuild base lo hunks).
Proof.
  induction hunks as [|h hunks IH]; intros lo pre Hlo Hwp; [done|].
  destruct Hwp as (Hs & Hmatch & Hrest).
  assert (1 ≤ UpdateHunk.old_line h ≤ len base + 1) as Hin by lia.
  pose proof (segment_fits base _ _ Hin Hmatch) as Hfit.
  assert (0 ≤ len (UpdateHunk.old_lines h)) as Hn by (unfold len; lia).
  set (s := UpdateHunk.old_line h) in *.
  set (n := len (UpdateHunk.old_lines h)) in *.
  assert (s + (len pre - (lo - 1)) - 1 = len pre + (s - lo)) as Hidx by lia.
  rewrite replay_step; fold s n; rewrite Hidx.
  2:{ rewrite py_slice_nonneg by (unfold len; lia).
      rewrite drop_behind by lia.
      replace (lo + (s - lo) - 1) with (s - 1) by lia. exact Hmatch. }
  rewrite py_slice_assign_nonneg by (unfold len; lia).
  rewrite take_behind by lia.
  rewrite <- Z.add_assoc, drop_behind by lia.
  replace (lo + (s - lo + n) - 1) with (s + n - 1) by lia.
  cbn [rebuild]. fold s n.
  assert (1 ≤ s + n ≤ len base + 1) as Hnext by lia.
  specialize (IH (s + n)
    (pre ++ segment base lo (s - lo) ++ UpdateHunk.new_lines h) Hnext Hrest).
  rewrite <- !app_assoc in IH. rewrite <- !app_assoc.
  rewrite <- IH. f_equal.
  rewrite !len_app, segment_length by lia. lia.
Qed.

Lemma range_end_eq (h : UpdateHunk.t) :
  range_end h = UpdateHunk.old_line h + len (UpdateHunk.old_lines h) - 1.
Proof.
  unfold range_end. destruct (UpdateHunk.old_lines h); [|done].
  unfold len. simpl. lia.
Qed.

Lemma shift_cons (p : Z) (h : UpdateHunk.t) (hunks : list UpdateHunk.t) :
  shift p (h :: hunks)
  = (if decide (UpdateHunk.old_line h ≤ p)
     then len (UpdateHunk.new_lines h) - len (UpdateHunk.old_lines h)
     else 0)
    + shift p hunks.
Proof.
  unfold shift. rewrite filter_cons. by case_decide.
Qed.

(** Records placed after line [p] do not move it. *)
Lemma shift_before (base : list string) (p : Z) (hunks : list UpdateHunk.t) :
  ∀ lo : Z, well_placed base lo hunks → p < lo → shift p hunks = 0.
Proof.
  induction hunks as [|h hunks IH]; intros lo Hwp Hp; [done|].
  destruct Hwp as (Hs & _ & Hrest).
  rewrite shift_cons. case_decide; [lia|].
  rewrite (IH _ Hrest); [done|]. unfold len. lia.
Qed.

(** In the content the records describe, a base line that no record
    touches is found at its place moved by the records before it. *)
Lemma rebuild_lookup (base : list string) (hunks : list UpdateHunk.t) :
  ∀ lo p : Z,
    1 ≤ lo → well_placed base lo hunks →
    lo ≤ p ≤ len base → untouched p hunks →
    0 ≤ p - lo + shift p hunks
    ∧ rebuild base lo hunks !! Z.to_nat (p - lo + shift p hunks)
      = base !! Z.to_nat (p - 1).
Proof.
  induction hunks as [|h hunks IH]; intros lo p Hlo Hwp Hp Hfree.
  - unfold shift. simpl. split; [lia|].
    rewrite lookup_drop. f_equal. lia.
  - destruct Hwp as (Hs & Hmatch & Hrest).
    apply Forall_cons in Hfree as [Hh Hfree].
    unfold in_range in Hh. rewrite range_end_eq in Hh.
    assert (1 ≤ UpdateHunk.old_line h ≤ len base + 1) as Hin by lia.
    pose proof (segment_fits base _ _ Hin Hmatch) as Hfit.
    assert (0 ≤ len (UpdateHunk.old_lines h)) as Hn by (unfold len; lia).
    assert (0 ≤ len (UpdateHunk.new_lines h)) as Hm by (unfold len; lia).
    set (s := UpdateHunk.old_line h) in *.
    set (n := len (UpdateHunk.old_lines h)) in *.
    assert (len (segment base lo (s - lo)) = s - lo) as Hseg
      by (apply segment_length; lia).
    rewrite shift_cons. fold s n. cbn [rebuild]. fold s n.
    case_decide as Hsp.
    + assert (s + n ≤ p) as Hafter by lia.
      assert (1 ≤ s + n) as Hlo' by lia.
      destruct (IH (s + n) p Hlo' Hrest ltac:(lia) Hfree) as [Hpos Hget].
      split; [lia|].
      rewrite lookup_app_r by (unfold len in Hseg; lia).
      rewrite lookup_app_r by (unfold len in Hseg; unfold len; lia).
      rewrite <- Hget. f_equal. unfold len in *. lia.
    + rewrite (shift_before base p hunks (s + n) Hrest) by lia.
      split; [lia|].
      rewrite lookup_app_l by (unfold len in Hseg; lia).
      unfold segment. rewrite lookup_take_lt by lia.
      rewrite lookup_drop. f_equal. lia.
Qed.

Lemma well_placed_lower_bound (base : list string)
  (hunks : list UpdateHunk.t) :
  ∀ lo : Z, well_placed base lo hunks →
            Forall (λ b, lo ≤ UpdateHunk.old_line b) hunks.
Proof.
  induction hunks as [|h hunks IH]; intros lo Hwp; [done|].
  destruct Hwp as (Hs & _ & Hrest). constructor; [lia|].
  eapply Forall_impl; [apply (IH _ Hrest)|].
  intros b Hb. simpl in Hb. unfold len in Hb. lia.
Qed.

(** Well placed records are sorted and pass the validator. *)
Lemma well_placed_valid (base : list string) (hunks : list UpdateHunk.t) :
  ∀ lo : Z, well_placed base lo hunks →
            sort_hunks hunks = hunks ∧ validate_hunks hunks = Ok tt.
Proof.
  induction hunks as [|h hunks IH]; intros lo Hwp; [done|].
  destruct Hwp as (Hs & _ & Hrest).
  destruct (IH _ Hrest) as [Hsorted Hvalid].
  pose proof (well_placed_lower_bound base hunks _ Hrest) as Hlater.
  split.
  - simpl. fold (sort_hunks hunks). rewrite Hsorted.
    destruct hunks as [|h' hunks']; [done|]. simpl.
    apply Forall_cons in Hlater as [Hh' _].
    destruct (Z.leb_spec (UpdateHunk.old_line h) (UpdateHunk.old_line h'));
      [done|]. unfold len in Hh'. lia.
  - apply validate_hunks_ok. constructor; [|by apply validate_hunks_ok].
    eapply Forall_impl; [exact Hlater|].
    intros b Hb. simpl in Hb. unfold overlap.
    apply andb_false_iff. right. rewrite range_end_eq. apply Z.leb_gt. lia.
Qed.

(** X20: offset correctness on well placed records: [apply_hunks] succeeds,
    the result has [len base] plus the net change lines, and every base
    line that no record touches is found in the result at its place moved
    by the records anchored at or before it. *)
Lemma apply_hunks_well_placed (σ : heap) (lines : loc)
  (base : list string) (hunks : list UpdateHunk.t) :
  σ !! lines = Some base →
  well_placed base 1 hunks →
  ∃ (σ' : heap) (r : loc) (res : list string),
    apply_hunks σ lines hunks = (σ', Ok r)
    ∧ σ' !! r = Some res
    ∧ res = rebuild base 1 hunks
    ∧ len res = len base + net_delta hunks
    ∧ ∀ p : Z, 1 ≤ p ≤ len base → untouched p hunks →
        res !! Z.to_nat (p + shift p hunks - 1) = base !! Z.to_nat (p - 1).
Proof.
  intros Hbase Hwp.
  assert (1 ≤ 1 ≤ len base + 1) as Hone by (unfold len; lia).
  assert (replay base 0 hunks = Ok (rebuild base 1 hunks)) as Hrep
    by exact (replay_rebuild base hunks 1 [] Hone Hwp).
  destruct (apply_hunks_replay σ lines hunks) as (cur' & Heq & Hres).
  unfold deref in Heq, Hres. rewrite Hbase in Heq, Hres. simpl in Heq, Hres.
  rewrite Hrep in Heq. specialize (Hres _ Hrep). subst cur'.
  eexists _, _, _. split; [exact Heq|].
  split; [apply lookup_insert_eq|]. split; [done|].
  split; [by apply (replay_length hunks base _ 0)|].
  intros p Hp Hfree.
  destruct (rebuild_lookup base hunks 1 p ltac:(done) Hwp Hp Hfree)
    as [_ Hget].
  rewrite <- Hget. f_equal. lia.
Qed.

(** X21: two pure insertions at one anchor inside the file are placed in the
    order of the document, next to each other, before the anchor line. *)
Lemma same_anchor_insertions_in_order (σ : heap) (lines : loc)
  (base new_a new_b : list string) (anchor : Z) :
  σ !! lines = Some base →
  1 ≤ anchor ≤ len base + 1 →
  ∃ (σ' : heap) (r : loc),
    apply_hunks σ lines
      (sort_hunks [UpdateHunk.mk anchor [] new_a; UpdateHunk.mk anchor [] new_b])
    = (σ', Ok r)
    ∧ σ' !! r
      = Some (take (Z.to_nat (anchor - 1)) base ++ new_a ++ new_b
                ++ drop (Z.to_nat (anchor - 1)) base).
Proof.
  intros Hbase Hanchor.
  assert (sort_hunks
            [UpdateHunk.mk anchor [] new_a; UpdateHunk.mk anchor [] new_b]
          = [UpdateHunk.mk anchor [] new_a; UpdateHunk.mk anchor [] new_b])
    as ->.
  { simpl. by rewrite Z.leb_refl. }
  assert (well_placed base 1
            [UpdateHunk.mk anchor [] new_a; UpdateHunk.mk anchor [] new_b])
    as Hwp.
  { simpl. unfold segment, len in *. simpl. rewrite Z.add_0_r.
    repeat split; first [lia | done]. }
  assert (rebuild base 1
            [UpdateHunk.mk anchor [] new_a; UpdateHunk.mk anchor [] new_b]
          = take (Z.to_nat (anchor - 1)) base ++ new_a ++ new_b
            ++ drop (Z.to_nat (anchor - 1)) base) as Hrb.
  { simpl. unfold segment, len. simpl.
    rewrite Z.add_0_r, !Z.sub_diag. simpl.
    by rewrite drop_0. }
  remember [UpdateHunk.mk anchor [] new_a; UpdateHunk.mk anchor [] new_b]
    as hunks eqn:Hhunks.
  assert (1 ≤ 1 ≤ len base + 1) as Hone by (unfold len; lia).
  assert (replay base 0 hunks = Ok (rebuild base 1 hunks)) as Hrep
    by exact (replay_rebuild base hunks 1 [] Hone Hwp).
  destruct (apply_hunks_replay σ lines hunks) as (cur' & Heq & Hres).
  unfold deref in Heq, Hres. rewrite Hbase in Heq, Hres. simpl in Heq, Hres.
  rewrite Hrep in Heq. specialize (Hres _ Hrep). subst cur'.
  eexists _, _. split; [exact Heq|].
  rewrite lookup_insert_eq. by rewrite Hrb.
Qed.

(** ** The replayer at line 0 *)

(** C2, at a pure insertion with [old_line = 0], the record the grouper
    makes for every pure insertion: the record sequence is sorted and
    passes the validator, and nothing is to be matched. The insertion is
    anchored before base line 1, so every base line should move down by
    one; the replayer puts the new line before the last base line
    instead, and base lines 1 and 2 stay where they were. *)
Theorem insertion_at_line_zero_breaks_offsets :
  let base := ["a" +:+ nl; "b" +:+ nl; "c" +:+ nl] in
  let hunks := [UpdateHunk.mk 0 [] ["x" +:+ nl]] in
  sort_hunks hunks = hunks
  ∧ validate_hunks hunks = Ok tt
  ∧ apply_hunks {[1%positive := base]} 1%positive hunks
    = (<[2%positive := ["a" +:+ nl; "b" +:+ nl; "x" +:+ nl; "c" +:+ nl]]>
         {[1%positive := base]},
       Ok 2%positive).
Proof. by repeat split. Qed.

(** C7, at two pure insertions anchored at line 0, the anchor the grouper
    gives to every pure insertion: the first record of the document
    inserts ["x"], the second ["y"]. After [sort_hunks] and [apply_hunks]
    on a three-line base the line of the later record comes first, and
    the two are not next to each other. *)
Theorem same_anchor_insertions_at_line_zero_swap :
  let base := ["a" +:+ nl; "b" +:+ nl; "c" +:+ nl] in
  let document :=
    [UpdateHunk.mk 0 [] ["x" +:+ nl]; UpdateHunk.mk 0 [] ["y" +:+ nl]] in
  validate_hunks (sort_hunks document) = Ok tt
  ∧ apply_hunks {[1%positive := base]} 1%positive (sort_hunks document)
    = (<[2%positive :=
           ["y" +:+ nl; "a" +:+ nl; "b" +:+ nl; "x" +:+ nl; "c" +:+ nl]]>
         {[1%positive := base]},
       Ok 2%positive).
Proof. by repeat split. Qed.

(** The record of C2 and C7 is what the engine itself makes of a diff that
    inserts one line: the hunk [@@ -1,3 +1,4 @@] with lines
    [" a"; "+x"; " b"; " c"] describes the file ["a"; "x"; "b"; "c"], and
    grouping, formatting, parsing, sorting and replaying on the base
    ["a"; "b"; "c"] give ["a"; "b"; "x"; "c"]. *)
Example inserted_line_through_the_engine :
  let base := ["a" +:+ nl; "b" +:+ nl; "c" +:+ nl] in
  let hunk :=
    Hunk.mk 1 3 1 4
      [" a" +:+ nl; "+x" +:+ nl; " b" +:+ nl; " c" +:+ nl] in
  let document := format_updates_file "f" (split_into_change_groups hunk) in
  let hunks := sort_hunks (parse_updates_file document).2 in
  hunks = [UpdateHunk.mk 0 [] ["x" +:+ nl]]
  ∧ validate_hunks hunks = Ok tt
  ∧ replay base 0 hunks
    = Ok ["a" +:+ nl; "b" +:+ nl; "x" +:+ nl; "c" +:+ nl].
Proof. by repeat split. Qed.

(** A record with old lines and [old_line = 0], such as the grouper makes
    of a run that starts with an added line, is never found by the
    replayer: the slice read at index [-1] is shorter than the old lines. *)
Lemma replacement_at_line_zero_always_stale (base : list string)
  (o : string) (olds new_lines : list string) :
  ∃ actual : list string,
    replay base 0 [UpdateHunk.mk 0 (o :: olds) new_lines]
    = Err (StaleContent 0 (o :: olds) actual).
Proof.
  simpl. case_bool_decide as Hcmp; [by eexists|]. exfalso.
  apply (f_equal length) in Hcmp. revert Hcmp.
  unfold py_slice, slice_bound, len. rewrite length_take, length_drop.
  cbn [length]. change (0 + 0 - 1 <? 0) with true. cbv iota.
  destruct (Z.ltb_spec (0 + 0 - 1 + Z.of_nat (S (length olds))) 0); lia.
Qed.

(** ** Sorting *)

Lemma insert_by_old_line_bound (x h : UpdateHunk.t)
  (sorted : list UpdateHunk.t) :
  by_old_line x h → Forall (by_old_line x) sorted →
  Forall (by_old_line x) (insert_by_old_line h sorted).
Proof.
  intros Hh Hall. rewrite (insert_by_old_line_permutation h sorted).
  by constructor.
Qed.

Lemma insert_by_old_line_sorted (h : UpdateHunk.t)
  (sorted : list UpdateHunk.t) :
  StronglySorted by_old_line sorted →
  StronglySorted by_old_line (insert_by_old_line h sorted).
Proof.
  induction 1 as [|h' sorted' Hsorted IH Hall]; cbn [insert_by_old_line].
  - repeat constructor.
  - destruct (Z.leb_spec (UpdateHunk.old_line h) (UpdateHunk.old_line h'))
      as [Hle|Hgt].
    + constructor; [by constructor|].
      constructor; [done|].
      eapply Forall_impl; [exact Hall|].
      unfold by_old_line. intros b Hb. lia.
    + constructor; [done|].
      apply insert_by_old_line_bound; [unfold by_old_line; lia | done].
Qed.

(** X17: [sort_hunks] returns the records it was given, each as often as it
    was given, in ascending order of [old_line]. *)
Theorem sort_hunks_ascending (hunks : list UpdateHunk.t) :
  sort_hunks hunks ≡ₚ hunks ∧ StronglySorted by_old_line (sort_hunks hunks).
Proof.
  split; [apply sort_hunks_permutation|].
  induction hunks as [|h hunks IH]; [constructor|].
  by apply insert_by_old_line_sorted.
Qed.

Lemma insert_by_old_line_anchored (k : Z) (h : UpdateHunk.t)
  (sorted : list UpdateHunk.t) :
  anchored_at k (insert_by_old_line h sorted) = anchored_at k (h :: sorted).
Proof.
  unfold anchored_at.
  induction sorted as [|h' sorted IH]; [done|]. cbn [insert_by_old_line].
  destruct (Z.leb_spec (UpdateHunk.old_line h) (UpdateHunk.old_line h'))
    as [Hle|Hgt]; [done|].
  rewrite filter_cons, IH, !filter_cons.
  repeat case_decide; first [done | lia].
Qed.

(** X18: [sort_hunks] is stable: the records with one and the same
    [old_line] come out in the order they had in the document. *)
Theorem sort_hunks_stable (k : Z) (hunks : list UpdateHunk.t) :
  anchored_at k (sort_hunks hunks) = anchored_at k hunks.
Proof.
  induction hunks as [|h hunks IH]; [done|].
  change (sort_hunks (h :: hunks))
    with (insert_by_old_line h (sort_hunks hunks)).
  rewrite insert_by_old_line_anchored. unfold anchored_at in *.
  by rewrite !filter_cons, IH.
Qed.

(** X19: a document whose records are already in ascending order is left as
    it is; in particular sorting twice is sorting once. *)
Theorem sort_hunks_of_sorted (hunks : list UpdateHunk.t) :
  StronglySorted by_old_line hunks → sort_hunks hunks = hunks.
Proof.
  induction 1 as [|h hunks Hsorted IH Hall]; [done|].
  change (sort_hunks (h :: hunks))
    with (insert_by_old_line h (sort_hunks hunks)).
  rewrite IH. destruct Hall as [|h' hunks' Hh _]; [done|].
  cbn [insert_by_old_line]. unfold by_old_line in Hh.
  by destruct (Z.leb_spec (UpdateHunk.old_line h) (UpdateHunk.old_line h'));
    [|lia].
Qed.

Lemma sort_hunks_of_sorted_witness :
  sort_hunks [UpdateHunk.mk 0 [] ["x"]; UpdateHunk.mk 3 ["a"] [];
              UpdateHunk.mk 3 [] ["y"]; UpdateHunk.mk 7 ["b"] ["c"]]
  = [UpdateHunk.mk 0 [] ["x"]; UpdateHunk.mk 3 ["a"] [];
     UpdateHunk.mk 3 [] ["y"]; UpdateHunk.mk 7 ["b"] ["c"]].
Proof.
  apply sort_hunks_of_sorted.
  repeat first [ apply SSorted_nil | apply SSorted_cons
               | apply Forall_nil_2 | apply Forall_cons; split
               | unfold by_old_line; simpl; lia ].
Defined.

(** ** The validator: which conflict is reported *)

Lemma validate_against_err (a : UpdateHunk.t) (later : list UpdateHunk.t)
  (e : error) :
  validate_against a later = Err e →
  ∃ (j : nat) (b : UpdateHunk.t),
    later !! j = Some b ∧ overlap a b = true
    ∧ e = RangeConflict (UpdateHunk.old_line a) (UpdateHunk.old_line b)
    ∧ ∀ (j' : nat) (b' : UpdateHunk.t),
        (j' < j)%nat → later !! j' = Some b' → overlap a b' = false.
Proof.
  induction later as [|b later IH]; [done|]. cbn [validate_against].
  destruct (overlap a b) eqn:Hab.
  - intros [= <-]. exists 0%nat, b. repeat split; [done|]. intros; lia.
  - intros (j & b0 & Hj & Hov & -> & Hfirst)%IH.
    exists (S j), b0. repeat split; [done..|].
    intros [|j'] b' Hlt Hb'; simplify_eq/=; [done|].
    apply (Hfirst j'); [lia | done].
Qed.

(** X13: when [validate_hunks] fails, the error names the first conflicting
    pair in the order of the loops (outer record first, then the records
    after it): the pair overlaps and no pair visited before it does. The
    error is never the stale-content error. *)
Theorem validate_hunks_reports_first_conflict (hunks : list UpdateHunk.t)
  (e : error) :
  validate_hunks hunks = Err e →
  ∃ (i j : nat) (a b : UpdateHunk.t),
    (i < j)%nat ∧ hunks !! i = Some a ∧ hunks !! j = Some b
    ∧ overlap a b = true
    ∧ e = RangeConflict (UpdateHunk.old_line a) (UpdateHunk.old_line b)
    ∧ ∀ (i' j' : nat) (a' b' : UpdateHunk.t),
        (i' < j')%nat → hunks !! i' = Some a' → hunks !! j' = Some b' →
        visited_before i' j' i j → overlap a' b' = false.
Proof.
  induction hunks as [|h hunks IH]; [done|]. cbn [validate_hunks].
  destruct (validate_against h hunks) as [[]|e0] eqn:Hh.
  - intros (i & j & a & b & Hij & Hi & Hj & Hov & -> & Hfirst)%IH.
    exists (S i), (S j), a, b. repeat split; [lia | done..|].
    intros [|i'] [|j'] a' b' Hlt Ha' Hb' Hbefore; simplify_eq/=; try lia.
    + apply validate_against_ok in Hh.
      rewrite Forall_lookup in Hh. by apply (Hh j').
    + apply (Hfirst i' j'); [lia | done..|].
      unfold visited_before in *. lia.
  - intros [= <-].
    apply validate_against_err in Hh as (j & b & Hj & Hov & -> & Hfirst).
    exists 0%nat, (S j), h, b. repeat split; [lia | done..|].
    intros [|i'] [|j'] a' b' Hlt Ha' Hb' Hbefore; simplify_eq/=;
      unfold visited_before in *; try lia.
    apply (Hfirst j'); [lia | done].
Qed.

Lemma validate_hunks_reports_first_conflict_witness :
  ∃ (i j : nat) (a b : UpdateHunk.t),
    (i < j)%nat
    ∧ [UpdateHunk.mk 1 ["a"] []; UpdateHunk.mk 5 ["b"; "c"] [];
       UpdateHunk.mk 6 ["c"] ["d"]; UpdateHunk.mk 1 [] ["x"; "y"];
       UpdateHunk.mk 1 ["a"] ["z"]] !! i = Some a
    ∧ [UpdateHunk.mk 1 ["a"] []; UpdateHunk.mk 5 ["b"; "c"] [];
       UpdateHunk.mk 6 ["c"] ["d"]; UpdateHunk.mk 1 [] ["x"; "y"];
       UpdateHunk.mk 1 ["a"] ["z"]] !! j = Some b
    ∧ overlap a b = true
    ∧ RangeConflict 1 1
      = RangeConflict (UpdateHunk.old_line a) (UpdateHunk.old_line b)
    ∧ ∀ (i' j' : nat) (a' b' : UpdateHunk.t),
        (i' < j')%nat →
        [UpdateHunk.mk 1 ["a"] []; UpdateHunk.mk 5 ["b"; "c"] [];
         UpdateHunk.mk 6 ["c"] ["d"]; UpdateHunk.mk 1 [] ["x"; "y"];
         UpdateHunk.mk 1 ["a"] ["z"]] !! i' = Some a' →
        [UpdateHunk.mk 1 ["a"] []; UpdateHunk.mk 5 ["b"; "c"] [];
         UpdateHunk.mk 6 ["c"] ["d"]; UpdateHunk.mk 1 [] ["x"; "y"];
         UpdateHunk.mk 1 ["a"] ["z"]] !! j' = Some b' →
        visited_before i' j' i j → overlap a' b' = false.
Proof.
  apply (validate_hunks_reports_first_conflict
           [UpdateHunk.mk 1 ["a"] []; UpdateHunk.mk 5 ["b"; "c"] [];
            UpdateHunk.mk 6 ["c"] ["d"]; UpdateHunk.mk 1 [] ["x"; "y"];
            UpdateHunk.mk 1 ["a"] ["z"]]).
  reflexivity.
Defined.

(** ** The validator: order, insertions, ranges *)

(** X14: the verdict on the sorted records, which is the one [cmd_apply]
    asks for, is the verdict on the records in document order. *)
Theorem validate_after_sort (hunks : list UpdateHunk.t) :
  is_ok (validate_hunks (sort_hunks hunks)) = is_ok (validate_hunks hunks).
Proof.
  apply validate_hunks_permutation, sort_hunks_permutation.
Qed.

(** X15: a document that only inserts is never rejected, whatever the
    anchors of its records and however many records share one anchor. *)
Theorem insertions_always_validate (hunks : list UpdateHunk.t) :
  Forall pure_insertion hunks → validate_hunks hunks = Ok tt.
Proof.
  intros Hall. apply validate_hunks_ok.
  induction Hall as [|h hunks Hh Hall IH]; constructor; [|done].
  eapply Forall_impl; [exact Hall|].
  intros b Hb. by apply insertions_never_overlap.
Qed.

Lemma insertions_always_validate_witness :
  validate_hunks
    [UpdateHunk.mk 4 [] ["x"]; UpdateHunk.mk 4 [] ["y"];
     UpdateHunk.mk 0 [] ["z"]] = Ok tt.
Proof.
  apply insertions_always_validate.
  repeat first [apply Forall_nil_2 | apply Forall_cons; split | reflexivity].
Defined.

(** X16: for records that all have old lines, the validator accepts exactly
    the documents in which no base line is in the range of two records. *)
Theorem validate_hunks_disjoint_ranges (hunks : list UpdateHunk.t) :
  Forall (λ h, UpdateHunk.old_lines h ≠ []) hunks →
  validate_hunks hunks = Ok tt
  ↔ ∀ (i j : nat) (a b : UpdateHunk.t) (x : Z),
      i ≠ j → hunks !! i = Some a → hunks !! j = Some b →
      ¬ (in_range a x ∧ in_range b x).
Proof.
  intros Hold. rewrite validate_hunks_ok. split.
  - intros Hpairs i j a b x Hij Ha Hb Hx.
    assert (∀ (i j : nat) (a b : UpdateHunk.t),
              (i < j)%nat → hunks !! i = Some a → hunks !! j = Some b →
              overlap a b = false) as Hlt.
    { clear -Hpairs. induction Hpairs as [|h hunks Hh Hpairs IH].
      - intros i j a b _ Ha. done.
      - intros [|i] [|j] a b Hlt Ha Hb; simplify_eq/=; try lia.
        + rewrite Forall_lookup in Hh. by apply (Hh j).
        + apply (IH i j); [lia | done..]. }
    rewrite Forall_lookup in Hold.
    destruct (decide (i < j)%nat) as [Hlt'|Hge].
    + specialize (Hlt i j a b Hlt' Ha Hb).
      assert (overlap a b = true); [|congruence].
      apply overlap_shared_line; [by apply (Hold i) | by apply (Hold j) |].
      by exists x.
    + specialize (Hlt j i b a ltac:(lia) Hb Ha).
      assert (overlap b a = true); [|congruence].
      apply overlap_shared_line; [by apply (Hold j) | by apply (Hold i) |].
      exists x. tauto.
  - intros Hfree. induction hunks as [|h hunks IH]; constructor.
    + apply Forall_lookup. intros j b Hb.
      apply Forall_cons in Hold as [Hh Hold]. rewrite Forall_lookup in Hold.
      destruct (overlap h b) eqn:Hov; [|done]. exfalso.
      apply overlap_shared_line in Hov as (x & Hx);
        [|done | by apply (Hold j)].
      by apply (Hfree 0%nat (S j) h b x).
    + apply Forall_cons in Hold as [_ Hold]. apply IH; [done|].
      intros i j a b x Hij Ha Hb. by apply (Hfree (S i) (S j)); [lia|..].
Qed.

Lemma validate_hunks_disjoint_ranges_witness :
  validate_hunks [UpdateHunk.mk 3 ["a"; "b"] ["x"]; UpdateHunk.mk 5 ["c"] []]
  = Ok tt
  ↔ ∀ (i j : nat) (a b : UpdateHunk.t) (x : Z),
      i ≠ j →
      [UpdateHunk.mk 3 ["a"; "b"] ["x"]; UpdateHunk.mk 5 ["c"] []] !! i
      = Some a →
      [UpdateHunk.mk 3 ["a"; "b"] ["x"]; UpdateHunk.mk 5 ["c"] []] !! j
      = Some b →
      ¬ (in_range a x ∧ in_range b x).
Proof.
  apply validate_hunks_disjoint_ranges.
  repeat first [apply Forall_nil_2 | apply Forall_cons; split | discriminate].
Defined.

(** ** The replayer: outcome of a call *)

Lemma apply_hunks_outcome (σ : heap) (lines : loc) (base : list string)
  (hunks : list UpdateHunk.t) :
  σ !! lines = Some base →
  match replay base 0 hunks with
  | Ok res =>
      apply_hunks σ lines hunks
      = (<[fresh (dom σ) := res]> σ, Ok (fresh (dom σ)))
  | Err e => ∃ σ' : heap, apply_hunks σ lines hunks = (σ', Err e)
  end.
Proof.
  intros Hbase.
  destruct (apply_hunks_replay σ lines hunks) as (cur' & Heq & Hres).
  unfold deref in Heq, Hres. rewrite Hbase in Heq, Hres.
  simpl in Heq, Hres.
  destruct (replay base 0 hunks) as [res|e].
  - by rewrite <- (Hres res).
  - by eexists.
Qed.

(** X22: after a successful call the new content has as many lines as the
    base plus the net change of the records, wherever the records were
    applied. *)
Theorem apply_hunks_length (σ σ' : heap) (lines r : loc)
  (base : list string) (hunks : list UpdateHunk.t) :
  σ !! lines = Some base →
  apply_hunks σ lines hunks = (σ', Ok r) →
  ∃ res : list string,
    σ' !! r = Some res ∧ len res = len base + net_delta hunks.
Proof.
  intros Hbase Hcall.
  pose proof (apply_hunks_outcome σ lines base hunks Hbase) as Hout.
  destruct (replay base 0 hunks) as [res|e] eqn:Hrep.
  - rewrite Hout in Hcall. injection Hcall as <- <-.
    exists res. split; [apply lookup_insert_eq|].
    by apply (replay_length hunks base res 0).
  - destruct Hout as [σ0 Hout]. congruence.
Qed.

Lemma apply_hunks_length_witness :
  ∃ res : list string,
    (<[2%positive := ["a"; "x"; "y"; "c"]]>
       {[1%positive := ["a"; "b"; "c"]]} : heap) !! 2%positive = Some res
    ∧ len res
      = len ["a"; "b"; "c"] + net_delta [UpdateHunk.mk 2 ["b"] ["x"; "y"]].
Proof.
  apply (apply_hunks_length {[1%positive := ["a"; "b"; "c"]]} _ 1%positive
           2%positive ["a"; "b"; "c"] [UpdateHunk.mk 2 ["b"] ["x"; "y"]]).
  - reflexivity.
  - reflexivity.
Defined.

(** ** The replayer: single records *)

(** X23: an insertion whose line number is beyond the last line of the file
    is not an error: the new lines are appended at the end. *)
Theorem insertion_past_end_appends (σ : heap) (lines : loc)
  (base new_lines : list string) (old_line : Z) :
  σ !! lines = Some base →
  len base + 1 ≤ old_line →
  apply_hunks σ lines [UpdateHunk.mk old_line [] new_lines]
  = (<[fresh (dom σ) := base ++ new_lines]> σ, Ok (fresh (dom σ))).
Proof.
  intros Hbase Hline.
  pose proof (apply_hunks_outcome σ lines base
                [UpdateHunk.mk old_line [] new_lines] Hbase) as Hout.
  cbn [replay UpdateHunk.old_lines UpdateHunk.new_lines UpdateHunk.old_line
       truthy] in Hout.
  replace (py_slice_assign base (old_line + 0 - 1) (old_line + 0 - 1) new_lines)
    with (base ++ new_lines) in Hout; [done|].
  unfold py_slice_assign, slice_bound, len in *.
  destruct (Z.ltb_spec (old_line + 0 - 1) 0); [lia|].
  rewrite Z.max_id, Z.min_r, Nat2Z.id by lia.
  by rewrite firstn_all, drop_all, app_nil_r.
Qed.

Lemma insertion_past_end_appends_witness :
  apply_hunks {[1%positive := ["a"; "b"]]} 1%positive
    [UpdateHunk.mk 40 [] ["x"]]
  = (<[fresh (dom ({[1%positive := ["a"; "b"]]} : heap))
       := ["a"; "b"] ++ ["x"]]> {[1%positive := ["a"; "b"]]},
     Ok (fresh (dom ({[1%positive := ["a"; "b"]]} : heap)))).
Proof.
  apply insertion_past_end_appends; [reflexivity | unfold len; simpl; lia].
Defined.

(** X24: a record with old lines and a line number that is not negative,
    replayed first, succeeds exactly when its line number is at least 1
    and its old lines are the base lines at that place; the result is the
    base with these lines replaced by the new lines. At line 0, or
    reaching beyond the last line, it is always stale. *)
Theorem single_replacement (base res : list string) (h : UpdateHunk.t) :
  0 ≤ UpdateHunk.old_line h →
  UpdateHunk.old_lines h ≠ [] →
  replay base 0 [h] = Ok res
  ↔ 1 ≤ UpdateHunk.old_line h
    ∧ segment base (UpdateHunk.old_line h) (len (UpdateHunk.old_lines h))
      = UpdateHunk.old_lines h
    ∧ res = segment base 1 (UpdateHunk.old_line h - 1)
            ++ UpdateHunk.new_lines h
            ++ drop (Z.to_nat (UpdateHunk.old_line h - 1
                               + len (UpdateHunk.old_lines h))) base.
Proof.
  destruct h as [p old new]. cbn [UpdateHunk.old_line UpdateHunk.old_lines
                                  UpdateHunk.new_lines].
  intros Hp Hold. destruct old as [|o olds]; [done|].
  destruct (decide (p = 0)) as [->|Hne].
  - destruct (replacement_at_line_zero_always_stale base o olds new)
      as [actual Hstale].
    rewrite Hstale. split; [done | lia].
  - assert (0 ≤ len (o :: olds)) as Hlen by (unfold len; lia).
    cbn [replay UpdateHunk.old_line UpdateHunk.old_lines
         UpdateHunk.new_lines truthy].
    rewrite Z.add_0_r, py_slice_segment by lia.
    rewrite py_slice_assign_nonneg by lia.
    change (segment base 1 (p - 1)) with (take (Z.to_nat (p - 1)) base).
    case_bool_decide as Hseg.
    + split; [done|]. intros (_ & Heq & _). done.
    + split.
      * intros [= <-]. repeat split; [lia | done].
      * by intros (_ & _ & ->).
Qed.

Lemma single_replacement_witness :
  replay ["a"; "b"; "c"] 0 [UpdateHunk.mk 2 ["b"] ["x"; "y"]]
  = Ok ["a"; "x"; "y"; "c"]
  ↔ 1 ≤ UpdateHunk.old_line (UpdateHunk.mk 2 ["b"] ["x"; "y"])
    ∧ segment ["a"; "b"; "c"]
        (UpdateHunk.old_line (UpdateHunk.mk 2 ["b"] ["x"; "y"]))
        (len (UpdateHunk.old_lines (UpdateHunk.mk 2 ["b"] ["x"; "y"])))
      = UpdateHunk.old_lines (UpdateHunk.mk 2 ["b"] ["x"; "y"])
    ∧ ["a"; "x"; "y"; "c"]
      = segment ["a"; "b"; "c"] 1
          (UpdateHunk.old_line (UpdateHunk.mk 2 ["b"] ["x"; "y"]) - 1)
        ++ UpdateHunk.new_lines (UpdateHunk.mk 2 ["b"] ["x"; "y"])
        ++ drop (Z.to_nat
                   (UpdateHunk.old_line (UpdateHunk.mk 2 ["b"] ["x"; "y"]) - 1
                    + len (UpdateHunk.old_lines
                             (UpdateHunk.mk 2 ["b"] ["x"; "y"]))))
             ["a"; "b"; "c"].
Proof.
  apply single_replacement; [simpl; lia | discriminate].
Defined.

(** ** The replayer: records that change nothing, and two passes *)

Lemma py_slice_assign_same {A} (l : list A) (lo hi : Z) :
  py_slice_assign l lo hi (py_slice l lo hi) = l.
Proof.
  unfold py_slice_assign, py_slice.
  pose proof (slice_bound_range (Z.of_nat (length l)) lo ltac:(lia)) as Ha.
  pose proof (slice_bound_range (Z.of_nat (length l)) hi ltac:(lia)) as Hb.
  set (a := slice_bound _ lo) in *. set (b := slice_bound _ hi) in *.
  destruct (decide (a ≤ b)) as [Hle|Hgt].
  - rewrite Z.max_r by lia.
    replace (drop (Z.to_nat b) l)
      with (drop (Z.to_nat (b - a)) (drop (Z.to_nat a) l))
      by (rewrite drop_drop; f_equal; lia).
    by rewrite take_drop, take_drop.
  - rewrite Z.max_l by lia.
    replace (Z.to_nat (b - a)) with 0%nat by lia.
    rewrite take_0. cbn [app]. apply take_drop.
Qed.

(** X25: records whose new lines are their old lines change nothing: when
    the replay of such a document succeeds, the content is the one it
    started from. *)
Theorem unchanged_records_change_nothing (hunks : list UpdateHunk.t) :
  Forall unchanged hunks →
  ∀ (cur res : list string) (offset : Z),
    replay cur offset hunks = Ok res → res = cur.
Proof.
  induction 1 as [|h hunks Hh Hall IH]; intros cur res offset.
  - by intros [= <-].
  - cbn [replay]. unfold unchanged in Hh. rewrite Hh.
    destruct (truthy (UpdateHunk.old_lines h)) eqn:Hold.
    + case_bool_decide as Hcmp; [done|].
      pose proof (py_slice_assign_same cur (UpdateHunk.old_line h + offset - 1)
                    (UpdateHunk.old_line h + offset - 1
                     + len (UpdateHunk.old_lines h))) as Hsame.
      rewrite Hcmp in Hsame. rewrite Hsame. apply IH.
    + destruct (UpdateHunk.old_lines h); [|done].
      replace (py_slice_assign cur (UpdateHunk.old_line h + offset - 1)
                 (UpdateHunk.old_line h + offset - 1) [])
        with cur; [apply IH|].
      unfold py_slice_assign. rewrite Z.max_id. cbn [app].
      by rewrite take_drop.
Qed.

Lemma unchanged_records_change_nothing_witness :
  ["a"; "x"; "c"] = ["a"; "x"; "c"].
Proof.
  apply (unchanged_records_change_nothing
           [UpdateHunk.mk 1 ["a"] ["a"]; UpdateHunk.mk 3 [] [];
            UpdateHunk.mk 2 ["x"; "c"] ["x"; "c"]]
           ltac:(repeat first [apply Forall_nil_2 | apply Forall_cons; split
                              | reflexivity])
           ["a"; "x"; "c"] ["a"; "x"; "c"] 0).
  reflexivity.
Defined.

Lemma replay_move (hunks : list UpdateHunk.t) :
  ∀ (cur : list string) (offset d : Z),
    replay cur (offset + d) hunks = replay cur offset (move d <$> hunks).
Proof.
  induction hunks as [|h hunks IH]; intros cur offset d; [done|].
  cbn [fmap list_fmap replay move UpdateHunk.old_line UpdateHunk.old_lines
       UpdateHunk.new_lines].
  replace (UpdateHunk.old_line h + d + offset)
    with (UpdateHunk.old_line h + (offset + d)) by lia.
  destruct (truthy (UpdateHunk.old_lines h)).
  - case_bool_decide; [done|].
    rewrite <- IH. f_equal. lia.
  - rewrite <- IH. f_equal. lia.
Qed.

(** X26: a document can be replayed in two passes: after the first part has
    been applied, applying the rest with every line number moved by the
    net change of the first part gives what one pass over the whole
    document gives, the error of a stale record included. *)
Theorem replay_in_two_passes (base mid : list string)
  (pre post : list UpdateHunk.t) :
  replay base 0 pre = Ok mid →
  replay base 0 (pre ++ post) = replay mid 0 (move (net_delta pre) <$> post).
Proof.
  intros Hpre. rewrite replay_app, Hpre. apply replay_move.
Qed.

Lemma replay_in_two_passes_witness :
  replay ["a"; "b"; "c"] 0
    ([UpdateHunk.mk 1 ["a"] ["x"; "y"]] ++ [UpdateHunk.mk 3 ["c"] []])
  = replay ["x"; "y"; "b"; "c"] 0
      (move (net_delta [UpdateHunk.mk 1 ["a"] ["x"; "y"]])
         <$> [UpdateHunk.mk 3 ["c"] []]).
Proof.
  apply replay_in_two_passes. reflexivity.
Defined.

(** ** The grouper: what the groups hold *)

Lemma finalize_buffers (st : Split.state) :
  Split.old_lines (finalize st) = [] ∧ Split.new_lines (finalize st) = [].
Proof.
  unfold finalize.
  destruct (Split.old_lines st) eqn:Ho, (Split.new_lines st) eqn:Hn;
    cbn [truthy orb Split.old_lines Split.new_lines]; by rewrite ?Ho, ?Hn.
Qed.

Lemma finalize_olds_news (st : Split.state) :
  olds (finalize st) = olds st ∧ news (finalize st) = news st.
Proof.
  unfold olds, news, finalize.
  destruct (Split.old_lines st) eqn:Ho, (Split.new_lines st) eqn:Hn;
    cbn [truthy orb Split.groups Split.old_lines Split.new_lines];
    rewrite ?Ho, ?Hn, ?fmap_app, ?concat_app; cbn [fmap list_fmap concat];
    by rewrite ?app_nil_r.
Qed.

Lemma split_step_olds_news (st : Split.state) (line : string) :
  olds (split_step st line) = olds st ++ removed_text [line]
  ∧ news (split_step st line) = news st ++ added_text [line].
Proof.
  unfold removed_text, added_text, split_step. rewrite !filter_cons, !filter_nil.
  destruct (startswith " " line) eqn:Hctx.
  { destruct (finalize_olds_news st) as [Ho Hn].
    destruct line as [|a line]; [done|]. cbn [startswith] in *.
    destruct (Ascii.eqb_spec " " a) as [<-|]; [|done].
    repeat case_decide; try done.
    cbn [fmap list_fmap]. rewrite !app_nil_r.
    unfold olds, news in *. by cbn [Split.groups Split.old_lines
                                    Split.new_lines]. }
  destruct (startswith "-" line) eqn:Hrem.
  { assert (startswith "+" line = false) as Hadd.
    { destruct line as [|a line]; [done|]. cbn [startswith] in *.
      by destruct (Ascii.eqb_spec "-" a) as [<-|]. }
    rewrite Hadd. repeat case_decide; try done.
    unfold olds, news.
    cbn [fmap list_fmap Split.groups Split.old_lines Split.new_lines].
    by rewrite app_assoc, app_nil_r. }
  destruct (startswith "+" line) eqn:Hadd.
  { repeat case_decide; try done.
    unfold olds, news.
    cbn [fmap list_fmap Split.groups Split.old_lines Split.new_lines].
    by rewrite app_assoc, app_nil_r. }
  repeat case_decide; try done. cbn [fmap list_fmap]. by rewrite !app_nil_r.
Qed.

Lemma fold_split_olds_news (lines : list string) :
  ∀ st : Split.state,
    olds (fold_left split_step lines st) = olds st ++ removed_text lines
    ∧ news (fold_left split_step lines st) = news st ++ added_text lines.
Proof.
  induction lines as [|line lines IH]; intros st; cbn [fold_left].
  - unfold removed_text, added_text. by rewrite !filter_nil, !app_nil_r.
  - destruct (IH (split_step st line)) as [-> ->].
    destruct (split_step_olds_news st line) as [-> ->].
    unfold removed_text, added_text.
    change (line :: lines) with ([line] ++ lines).
    by rewrite !filter_app, !fmap_app, !app_assoc.
Qed.

(** X4: the groups hold every removed line of the hunk and every added
    line, each once, in the order of the hunk and without the marker:
    nothing is lost and nothing is made up. *)
Theorem split_conserves_lines (hunk : Hunk.t) :
  concat (ChangeGroup.old_lines <$> split_into_change_groups hunk)
  = removed_text (Hunk.lines hunk)
  ∧ concat (ChangeGroup.new_lines <$> split_into_change_groups hunk)
    = added_text (Hunk.lines hunk).
Proof.
  unfold split_into_change_groups.
  set (st := fold_left split_step (Hunk.lines hunk) (split_init hunk)).
  destruct (finalize_olds_news st) as [Ho Hn].
  destruct (finalize_buffers st) as [Hbo Hbn].
  unfold olds in Ho. unfold news in Hn.
  rewrite Hbo in Ho. rewrite Hbn in Hn. rewrite app_nil_r in Ho, Hn.
  rewrite Ho, Hn. subst st.
  destruct (fold_split_olds_news (Hunk.lines hunk) (split_init hunk))
    as [Ho' Hn'].
  unfold olds in Ho'. unfold news in Hn'. by rewrite Ho', Hn'.
Qed.

Lemma finalize_groups_not_empty (P := λ g : ChangeGroup.t,
    ChangeGroup.old_lines g ≠ [] ∨ ChangeGroup.new_lines g ≠ [])
  (st : Split.state) :
  Forall P (Split.groups st) → Forall P (Split.groups (finalize st)).
Proof.
  intros Hall. unfold finalize.
  destruct (Split.old_lines st) eqn:Ho, (Split.new_lines st) eqn:Hn;
    cbn [truthy orb Split.groups]; [done|..];
    (apply Forall_app; split; [done|]);
    apply Forall_singleton; subst P; cbn; rewrite ?Ho, ?Hn; auto.
Qed.

(** X5: no group is empty: every group the grouper returns has a removed
    line or an added line. *)
Theorem split_groups_not_empty (hunk : Hunk.t) (g : ChangeGroup.t) :
  g ∈ split_into_change_groups hunk →
  ChangeGroup.old_lines g ≠ [] ∨ ChangeGroup.new_lines g ≠ [].
Proof.
  unfold split_into_change_groups.
  set (P := λ g : ChangeGroup.t,
         ChangeGroup.old_lines g ≠ [] ∨ ChangeGroup.new_lines g ≠ []).
  assert (∀ lines st, Forall P (Split.groups st) →
            Forall P (Split.groups (fold_left split_step lines st))) as Hfold.
  { induction lines as [|line lines IH]; intros st Hall; [done|].
    cbn [fold_left]. apply IH. unfold split_step.
    destruct (startswith " " line);
      [by apply finalize_groups_not_empty in Hall|].
    destruct (startswith "-" line); [done|].
    by destruct (startswith "+" line). }
  intros Hg.
  assert (Forall P
            (Split.groups
               (finalize
                  (fold_left split_step (Hunk.lines hunk) (split_init hunk)))))
    as Hall.
  { apply finalize_groups_not_empty, Hfold. constructor. }
  rewrite Forall_forall in Hall. by apply Hall.
Qed.

Lemma split_groups_not_empty_witness :
  ChangeGroup.old_lines (ChangeGroup.mk 0 [] ["x"]) ≠ []
  ∨ ChangeGroup.new_lines (ChangeGroup.mk 0 [] ["x"]) ≠ [].
Proof.
  apply (split_groups_not_empty (Hunk.mk 4 2 4 3 [" a"; "+x"; " b"])).
  vm_compute. constructor.
Defined.

Lemma split_step_other (st : Split.state) (line : string) :
  known_kind line = false → split_step st line = st.
Proof.
  unfold known_kind, split_step.
  destruct (startswith " " line); [done|].
  destruct (startswith "-" line); [done|].
  by destruct (startswith "+" line).
Qed.

Lemma fold_split_known (lines : list string) :
  ∀ st : Split.state,
    fold_left split_step (filter (λ l, known_kind l = true) lines) st
    = fold_left split_step lines st.
Proof.
  induction lines as [|line lines IH]; intros st; [done|].
  rewrite filter_cons. case_decide as Hkind; cbn [fold_left]; [apply IH|].
  rewrite IH, split_step_other; [done|]. by destruct (known_kind line).
Qed.

(** X6: the groups depend on the first old line number of the hunk and on
    its context, removed and added lines only: the counts and the new line
    number of the header are not read, and lines of any other kind, such
    as the note that the file has no newline at its end, are passed
    over. *)
Theorem split_reads_start_and_known_lines (hunk hunk' : Hunk.t) :
  Hunk.old_start hunk = Hunk.old_start hunk' →
  filter (λ l, known_kind l = true) (Hunk.lines hunk)
  = filter (λ l, known_kind l = true) (Hunk.lines hunk') →
  split_into_change_groups hunk = split_into_change_groups hunk'.
Proof.
  intros Hstart Hlines. unfold split_into_change_groups, split_init.
  rewrite <- (fold_split_known (Hunk.lines hunk)).
  rewrite <- (fold_split_known (Hunk.lines hunk')).
  by rewrite Hstart, Hlines.
Qed.

Lemma split_reads_start_and_known_lines_witness :
  split_into_change_groups
    (Hunk.mk 3 2 3 2 [" a"; "-b"; "+c"; "\ No newline at end of file"])
  = split_into_change_groups (Hunk.mk 3 0 0 7 [" a"; "-b"; ""; "+c"]).
Proof.
  apply split_reads_start_and_known_lines; reflexivity.
Defined.

(** ** The grouper and the replayer together *)

Lemma line_kind_cases (l : string) :
  (startswith " " l = true ∧ startswith "-" l = false
   ∧ startswith "+" l = false)
  ∨ (startswith " " l = false ∧ startswith "-" l = true
     ∧ startswith "+" l = false)
  ∨ (startswith " " l = false ∧ startswith "-" l = false
     ∧ startswith "+" l = true)
  ∨ (startswith " " l = false ∧ startswith "-" l = false
     ∧ startswith "+" l = false).
Proof.
  destruct l as [|a l]; cbn [startswith]; [tauto|].
  destruct (Ascii.eqb_spec " " a) as [<-|]; [tauto|].
  destruct (Ascii.eqb_spec "-" a) as [<-|]; [tauto|].
  destruct (Ascii.eqb_spec "+" a) as [<-|]; tauto.
Qed.

Lemma old_side_cons (l : string) (ls : list string) :
  old_side (l :: ls)
  = (if startswith " " l || startswith "-" l then [tail1 l] else [])
    ++ old_side ls.
Proof.
  unfold old_side. rewrite filter_cons.
  destruct (startswith " " l || startswith "-" l); by case_decide.
Qed.

Lemma new_side_cons (l : string) (ls : list string) :
  new_side (l :: ls)
  = (if startswith " " l || startswith "+" l then [tail1 l] else [])
    ++ new_side ls.
Proof.
  unfold new_side. rewrite filter_cons.
  destruct (startswith " " l || startswith "+" l); by case_decide.
Qed.

Lemma split_step_mk (gs : list ChangeGroup.t) (ol nl : list string)
  (a c : Z) (l : string) :
  split_step (Split.mk gs ol nl a c) l
  = if startswith " " l then
      if truthy ol || truthy nl
      then Split.mk (gs ++ [ChangeGroup.mk a ol nl]) [] [] 0 (c + 1)
      else Split.mk gs ol nl a (c + 1)
    else if startswith "-" l then
      Split.mk gs (ol ++ [tail1 l]) nl
        (if negb (truthy ol) && negb (truthy nl) then c else a) (c + 1)
    else if startswith "+" l then Split.mk gs ol (nl ++ [tail1 l]) a c
    else Split.mk gs ol nl a c.
Proof.
  unfold split_step, finalize.
  cbn [Split.groups Split.old_lines Split.new_lines Split.old_line
       Split.current_old_line].
  destruct (startswith " " l); [|done].
  by destruct (truthy ol || truthy nl).
Qed.

Lemma fold_split_groups (lines : list string) :
  ∀ (gs : list ChangeGroup.t) (ol nl : list string) (a c : Z),
    Split.groups
      (finalize (fold_left split_step lines (Split.mk gs ol nl a c)))
    = gs ++ groups_from ol nl a c lines.
Proof.
  unfold groups_from.
  induction lines as [|l lines IH]; intros gs ol nl a c.
  - cbn [fold_left]. unfold finalize.
    cbn [Split.groups Split.old_lines Split.new_lines Split.old_line
         Split.current_old_line].
    destruct (truthy ol || truthy nl); cbn [Split.groups]; [done|].
    by rewrite app_nil_r.
  - cbn [fold_left]. rewrite !split_step_mk.
    destruct (startswith " " l).
    { destruct (truthy ol || truthy nl); [|apply IH].
      rewrite IH. rewrite (IH ([] ++ _)). cbn [app]. by rewrite <- app_assoc. }
    destruct (startswith "-" l); [apply IH|].
    destruct (startswith "+" l); apply IH.
Qed.

Lemma groups_from_nil (ol nl : list string) (a c : Z) :
  groups_from ol nl a c []
  = if truthy ol || truthy nl then [ChangeGroup.mk a ol nl] else [].
Proof.
  unfold groups_from, finalize. cbn [fold_left Split.groups Split.old_lines
    Split.new_lines Split.old_line Split.current_old_line].
  by destruct (truthy ol || truthy nl).
Qed.

Lemma groups_from_context (l : string) (ls ol nl : list string) (a c : Z) :
  startswith " " l = true →
  groups_from ol nl a c (l :: ls)
  = if truthy ol || truthy nl
    then ChangeGroup.mk a ol nl :: groups_from [] [] 0 (c + 1) ls
    else groups_from [] [] a (c + 1) ls.
Proof.
  intros Hl. unfold groups_from at 1. cbn [fold_left].
  rewrite split_step_mk, Hl.
  destruct ol, nl; cbn [truthy orb]; [done | by rewrite fold_split_groups..].
Qed.

Lemma groups_from_removed (l : string) (ls ol nl : list string) (a c : Z) :
  startswith " " l = false → startswith "-" l = true →
  groups_from ol nl a c (l :: ls)
  = groups_from (ol ++ [tail1 l]) nl
      (if negb (truthy ol) && negb (truthy nl) then c else a) (c + 1) ls.
Proof.
  intros Hc Hr. unfold groups_from at 1. cbn [fold_left].
  by rewrite split_step_mk, Hc, Hr.
Qed.

Lemma groups_from_added (l : string) (ls ol nl : list string) (a c : Z) :
  startswith " " l = false → startswith "-" l = false →
  startswith "+" l = true →
  groups_from ol nl a c (l :: ls) = groups_from ol (nl ++ [tail1 l]) a c ls.
Proof.
  intros Hc Hr Ha. unfold groups_from at 1. cbn [fold_left].
  by rewrite split_step_mk, Hc, Hr, Ha.
Qed.

Lemma groups_from_other (l : string) (ls ol nl : list string) (a c : Z) :
  startswith " " l = false → startswith "-" l = false →
  startswith "+" l = false →
  groups_from ol nl a c (l :: ls) = groups_from ol nl a c ls.
Proof.
  intros Hc Hr Ha. unfold groups_from at 1. cbn [fold_left].
  by rewrite split_step_mk, Hc, Hr, Ha.
Qed.

Lemma segment_app_drop (base : list string) (lo k : Z) :
  1 ≤ lo → 0 ≤ k →
  segment base lo k ++ drop (Z.to_nat (lo - 1 + k)) base
  = drop (Z.to_nat (lo - 1)) base.
Proof.
  intros Hlo Hk. unfold segment.
  replace (Z.to_nat (lo - 1 + k)) with (Z.to_nat (lo - 1) + Z.to_nat k)%nat
    by lia.
  by rewrite <- drop_drop, take_drop.
Qed.

Lemma segment_split (base : list string) (p k1 k2 : Z) :
  1 ≤ p → 0 ≤ k1 → 0 ≤ k2 →
  segment base p (k1 + k2) = segment base p k1 ++ segment base (p + k1) k2.
Proof.
  intros Hp Hk1 Hk2. unfold segment.
  replace (Z.to_nat (k1 + k2)) with (Z.to_nat k1 + Z.to_nat k2)%nat by lia.
  rewrite <- take_take_drop, drop_drop. do 3 f_equal. lia.
Qed.

Lemma segment_app_inv (base xs ys : list string) (p : Z) :
  1 ≤ p →
  segment base p (len xs + len ys) = xs ++ ys →
  segment base p (len xs) = xs ∧ segment base (p + len xs) (len ys) = ys.
Proof.
  intros Hp Heq.
  assert (0 ≤ len xs ∧ 0 ≤ len ys) as [Hx Hy] by (unfold len; lia).
  rewrite segment_split in Heq by done.
  assert (length (segment base p (len xs)) = length xs) as Hlen.
  { apply (f_equal length) in Heq. rewrite !length_app in Heq.
    unfold segment, len in *. rewrite !length_take in *. lia. }
  by apply app_inj_1 in Heq.
Qed.

Local Ltac same_up_to_arith := repeat (f_equal; try lia).

Lemma groups_from_rebuild (base lines : list string) :
  ∀ (ol nl : list string) (a c lo : Z),
    1 ≤ lo ≤ c - len ol →
    (ol = [] → nl = []) →
    (ol ≠ [] → a = c - len ol) →
    segment base (c - len ol) (len ol + len (old_side lines))
    = ol ++ old_side lines →
    c + len (old_side lines) ≤ len base + 1 →
    removed_first (truthy ol) lines = true →
    well_placed base lo (as_update <$> groups_from ol nl a c lines)
    ∧ rebuild base lo (as_update <$> groups_from ol nl a c lines)
      = segment base lo (c - len ol - lo) ++ nl ++ new_side lines
        ++ drop (Z.to_nat (c - 1 + len (old_side lines))) base.
Proof.
  induction lines as [|l lines IH]; intros ol nl a c lo Hlo Hnl Ha Hseg Hfit Hrf.
  - rewrite groups_from_nil.
    change (old_side []) with (@nil string) in *.
    change (new_side []) with (@nil string).
    change (len (@nil string)) with 0 in *.
    rewrite Z.add_0_r, app_nil_r in Hseg. rewrite Z.add_0_r in *.
    destruct ol as [|o ol].
    + rewrite (Hnl eq_refl). cbn [truthy orb fmap list_fmap well_placed rebuild app].
      split; [done|]. change (len (@nil string)) with 0. rewrite Z.sub_0_r.
      symmetry. replace (c - 1) with (lo - 1 + (c - lo)) by lia.
      apply segment_app_drop; unfold len in *; simpl in *; lia.
    + specialize (Ha ltac:(done)). subst a.
      cbn [truthy orb fmap list_fmap well_placed rebuild as_update
           ChangeGroup.old_line ChangeGroup.old_lines ChangeGroup.new_lines
           UpdateHunk.old_line UpdateHunk.old_lines UpdateHunk.new_lines].
      assert (0 ≤ len (o :: ol)) by (unfold len; lia).
      repeat split; [lia | lia | done |].
      cbn [app]. same_up_to_arith.
  - assert (0 ≤ len ol ∧ 0 ≤ len (old_side lines)) as [Hol Hos]
      by (unfold len; lia).
    rewrite old_side_cons in Hseg, Hfit. rewrite old_side_cons, new_side_cons.
    cbn [removed_first] in Hrf.
    destruct (line_kind_cases l)
      as [(Hc & Hr & Hadd)|[(Hc & Hr & Hadd)|[(Hc & Hr & Hadd)|(Hc & Hr & Hadd)]]];
      rewrite Hc, Hr, ?Hadd in *; cbn [orb app] in *.
    + (* a context line *)
      rewrite groups_from_context by done.
      assert (len (tail1 l :: old_side lines) = 1 + len (old_side lines))
        as Hlen1 by (unfold len; cbn [length]; lia).
      rewrite Hlen1 in *.
      change (tail1 l :: old_side lines) with ([tail1 l] ++ old_side lines)
        in Hseg.
      rewrite app_assoc in Hseg.
      replace (len ol + (1 + len (old_side lines)))
        with (len (ol ++ [tail1 l]) + len (old_side lines)) in Hseg
        by (rewrite len_app; unfold len; cbn [length]; lia).
      apply segment_app_inv in Hseg as [Hhead Htail]; [|lia].
      rewrite len_app in Hhead, Htail.
      apply segment_app_inv in Hhead as [Hhead Hline]; [|lia].
      change (len [tail1 l]) with 1 in Hline, Htail.
      replace (c - len ol + len ol) with c in Hline by lia.
      replace (c - len ol + (len ol + 1)) with (c + 1) in Htail by lia.
      destruct (IH [] [] (if truthy ol || truthy nl then 0 else a) (c + 1)
                  (if truthy ol || truthy nl then c else lo))
        as [Hwp Hrb].
      { change (len (@nil string)) with 0. destruct (truthy ol || truthy nl); lia. }
      { done. }
      { done. }
      { change (len (@nil string)) with 0. by rewrite Z.sub_0_r, Z.add_0_l. }
      { lia. }
      { done. }
      change (len (@nil string)) with 0 in Hrb. rewrite Z.sub_0_r in Hrb.
      cbn [app] in Hrb.
      destruct ol as [|o ol].
      * rewrite (Hnl eq_refl) in *. cbn [truthy orb] in *.
        split; [done|]. rewrite Hrb.
        change (len (@nil string)) with 0 in *. rewrite Z.sub_0_r in *.
        replace (c + 1 - lo) with ((c - lo) + 1) by lia.
        rewrite segment_split by lia.
        replace (lo + (c - lo)) with c by lia. rewrite Hline.
        rewrite <- !app_assoc. cbn [app]. same_up_to_arith.
      * specialize (Ha ltac:(done)). subst a.
        cbn [truthy orb] in *.
        cbn [fmap list_fmap well_placed rebuild as_update
             ChangeGroup.old_line ChangeGroup.old_lines ChangeGroup.new_lines
             UpdateHunk.old_line UpdateHunk.old_lines UpdateHunk.new_lines].
        replace (c - len (o :: ol) + len (o :: ol)) with c by lia.
        repeat split; [lia | lia | done | done |].
        rewrite Hrb.
        replace (c + 1 - c) with 1 by lia. rewrite Hline.
        cbn [app]. same_up_to_arith.
    + (* a removed line *)
      rewrite groups_from_removed by done.
      assert (len (tail1 l :: old_side lines) = 1 + len (old_side lines))
        as Hlen1 by (unfold len; cbn [length]; lia).
      rewrite Hlen1 in *.
      assert (len (ol ++ [tail1 l]) = len ol + 1) as Hlen2
        by (rewrite len_app; unfold len; cbn [length]; lia).
      destruct (IH (ol ++ [tail1 l]) nl
                  (if negb (truthy ol) && negb (truthy nl) then c else a)
                  (c + 1) lo) as [Hwp Hrb].
      { lia. }
      { by destruct ol. }
      { intros _. rewrite Hlen2. destruct ol as [|o ol].
        - rewrite (Hnl eq_refl). cbn [truthy negb andb].
          change (len (@nil string)) with 0. lia.
        - cbn [truthy negb andb]. rewrite (Ha ltac:(done)). lia. }
      { rewrite Hlen2, <- app_assoc. cbn [app].
        replace (c + 1 - (len ol + 1)) with (c - len ol) by lia.
        replace (len ol + 1 + len (old_side lines))
          with (len ol + (1 + len (old_side lines))) by lia.
        done. }
      { lia. }
      { by destruct ol. }
      split; [done|]. rewrite Hrb, Hlen2. same_up_to_arith.
    + (* an added line *)
      rewrite groups_from_added by done.
      apply andb_true_iff in Hrf as [Hopen Hrf].
      destruct ol as [|o ol]; [done|].
      destruct (IH (o :: ol) (nl ++ [tail1 l]) a c lo) as [Hwp Hrb];
        [done.. |].
      split; [done|]. rewrite Hrb. by rewrite <- !app_assoc.
    + (* a line of no kind *)
      rewrite groups_from_other by done.
      by apply IH.
Qed.

(** The groups of a hunk whose old side is in the base, every run
    starting with a removed line, lie in the base one after the other,
    and their replay gives the base with the old side replaced by the new
    side. *)
Lemma replay_groups_of_hunk (base : list string) (hunk : Hunk.t) :
  1 ≤ Hunk.old_start hunk ≤ len base + 1 →
  removed_first false (Hunk.lines hunk) = true →
  segment base (Hunk.old_start hunk) (len (old_side (Hunk.lines hunk)))
  = old_side (Hunk.lines hunk) →
  well_placed base 1 (as_update <$> split_into_change_groups hunk)
  ∧ replay base 0 (as_update <$> split_into_change_groups hunk)
    = Ok (segment base 1 (Hunk.old_start hunk - 1)
          ++ new_side (Hunk.lines hunk)
          ++ drop (Z.to_nat (Hunk.old_start hunk - 1
                             + len (old_side (Hunk.lines hunk)))) base).
Proof.
  intros Hstart Hrf Hseg.
  pose proof (segment_fits base _ _ Hstart Hseg) as Hfit.
  destruct (groups_from_rebuild base (Hunk.lines hunk) [] []
              0 (Hunk.old_start hunk) 1) as [Hwp Hrb].
  { change (len (@nil string)) with 0. lia. }
  { done. }
  { done. }
  { change (len (@nil string)) with 0. by rewrite Z.sub_0_r, Z.add_0_l. }
  { lia. }
  { done. }
  change (groups_from [] [] 0 (Hunk.old_start hunk) (Hunk.lines hunk))
    with (split_into_change_groups hunk) in Hwp, Hrb.
  change (len (@nil string)) with 0 in Hrb. rewrite Z.sub_0_r in Hrb.
  cbn [app] in Hrb. split; [done|].
  assert (1 ≤ 1 ≤ len base + 1) as Hone by (unfold len; lia).
  assert (replay base 0 (as_update <$> split_into_change_groups hunk)
          = Ok (rebuild base 1 (as_update <$> split_into_change_groups hunk)))
    as Hrep by exact (replay_rebuild base _ 1 [] Hone Hwp).
  by rewrite Hrep, Hrb.
Qed.

(** X7: replaying the groups of a hunk makes the change of the hunk. Let
    the old side of the hunk, its context and removed lines, be the base
    lines from [old_start] on, and let every run of changed lines start
    with a removed line. Then [apply_hunks] accepts the groups as they
    stand, and the result is the base with those lines replaced by the new
    side of the hunk, its context and added lines. *)
Theorem groups_replay_to_new_side (σ : heap) (lines : loc)
  (base : list string) (hunk : Hunk.t) :
  σ !! lines = Some base →
  1 ≤ Hunk.old_start hunk ≤ len base + 1 →
  removed_first false (Hunk.lines hunk) = true →
  segment base (Hunk.old_start hunk) (len (old_side (Hunk.lines hunk)))
  = old_side (Hunk.lines hunk) →
  apply_hunks σ lines (as_update <$> split_into_change_groups hunk)
  = (<[fresh (dom σ) :=
         segment base 1 (Hunk.old_start hunk - 1)
         ++ new_side (Hunk.lines hunk)
         ++ drop (Z.to_nat (Hunk.old_start hunk - 1
                            + len (old_side (Hunk.lines hunk)))) base]> σ,
     Ok (fresh (dom σ))).
Proof.
  intros Hbase Hstart Hrf Hseg.
  destruct (replay_groups_of_hunk base hunk Hstart Hrf Hseg) as [_ Hrep].
  pose proof (apply_hunks_outcome σ lines base
                (as_update <$> split_into_change_groups hunk) Hbase) as Hout.
  by rewrite Hrep in Hout.
Qed.

Lemma groups_replay_to_new_side_witness :
  apply_hunks {[1%positive := ["a"; "b"; "c"; "d"; "e"]]} 1%positive
    (as_update <$>
       split_into_change_groups
         (Hunk.mk 2 4 2 4 [" b"; "-c"; "+x"; "+y"; " d"; "-e"]))
  = (<[fresh (dom ({[1%positive := ["a"; "b"; "c"; "d"; "e"]]} : heap)) :=
         segment ["a"; "b"; "c"; "d"; "e"] 1 (2 - 1)
         ++ new_side [" b"; "-c"; "+x"; "+y"; " d"; "-e"]
         ++ drop (Z.to_nat
                    (2 - 1
                     + len (old_side [" b"; "-c"; "+x"; "+y"; " d"; "-e"])))
              ["a"; "b"; "c"; "d"; "e"]]>
       {[1%positive := ["a"; "b"; "c"; "d"; "e"]]},
     Ok (fresh (dom ({[1%positive := ["a"; "b"; "c"; "d"; "e"]]} : heap)))).
Proof.
  apply (groups_replay_to_new_side {[1%positive := ["a"; "b"; "c"; "d"; "e"]]}
           1%positive ["a"; "b"; "c"; "d"; "e"]
           (Hunk.mk 2 4 2 4 [" b"; "-c"; "+x"; "+y"; " d"; "-e"])).
  - reflexivity.
  - unfold len; simpl; lia.
  - reflexivity.
  - reflexivity.
Defined.

(** ** The parser of the edit format: edges *)

Lemma int_not_negative (s : string) : 0 ≤ int s.
Proof. unfold int. destruct (NilEmpty.uint_of_string s); lia. Qed.

Lemma parse_hunks_not_negative (fuel : nat) :
  ∀ lines : list string,
    Forall (λ h, 0 ≤ UpdateHunk.old_line h) (parse_hunks fuel lines).
Proof.
  induction fuel as [|fuel IH]; intros lines; cbn [parse_hunks]; [done|].
  destruct lines as [|l rest]; [done|].
  destruct (old_pattern (rstrip_nl l)) as [digits|]; [|apply IH].
  destruct (collect_until "@@new" rest) as [old_lines rest1].
  destruct (collect_until "@@end" rest1) as [new_lines rest2].
  constructor; [apply int_not_negative | apply IH].
Qed.

(** X8: whatever the text, no record read from it has a negative line
    number: the pattern of the record header admits digits only. *)
Theorem parsed_line_numbers_not_negative (content : string)
  (h : UpdateHunk.t) :
  h ∈ (parse_updates_file content).2 → 0 ≤ UpdateHunk.old_line h.
Proof.
  unfold parse_updates_file.
  destruct (parse_header (splitlines content)) as [file_path rest].
  cbn [snd]. intros Hh.
  pose proof (parse_hunks_not_negative (length rest) rest) as Hall.
  rewrite Forall_forall in Hall. by apply Hall.
Qed.

Lemma parsed_line_numbers_not_negative_witness :
  0 ≤ UpdateHunk.old_line (UpdateHunk.mk 7 ["a" +:+ nl] []).
Proof.
  apply (parsed_line_numbers_not_negative
           (format_updates_file "f" [ChangeGroup.mk 7 ["a" +:+ nl] []])).
  vm_compute. constructor.
Defined.

(** X9: a text in which no line is a header line gives the empty path and
    no record at all, also when it holds well-formed records: the records
    are only looked for after the header line. *)
Theorem no_header_no_records (content : string) :
  Forall (λ l, file_pattern (rstrip_nl l) = None) (splitlines content) →
  parse_updates_file content = (EmptyString, []).
Proof.
  unfold parse_updates_file. generalize (splitlines content).
  induction 1 as [|l lines Hl _ IH]; [done|].
  cbn [parse_header]. by rewrite Hl.
Qed.

Lemma no_header_no_records_witness :
  parse_updates_file
    (join ["@@old 3" +:+ nl; "a" +:+ nl; "@@new" +:+ nl; "@@end" +:+ nl])
  = (EmptyString, []).
Proof.
  apply no_header_no_records.
  repeat first [apply Forall_nil_2 | apply Forall_cons; split | reflexivity].
Defined.

(** X10: the header is the first line that reads as one. The lines before
    it are dropped, records among them included; the path is the text
    after [file:] with the white space around it stripped; the records are
    read from the lines after it, where a further header line has no
    effect on the path. *)
Theorem header_is_first_matching_line (content header g : string)
  (before rest : list string) :
  splitlines content = before ++ header :: rest →
  Forall (λ l, file_pattern (rstrip_nl l) = None) before →
  file_pattern (rstrip_nl header) = Some g →
  parse_updates_file content = (strip g, parse_hunks (length rest) rest).
Proof.
  intros Hsplit Hbefore Hheader. unfold parse_updates_file. rewrite Hsplit.
  clear Hsplit.
  assert (parse_header (before ++ header :: rest) = (strip g, rest)) as ->;
    [|done].
  induction Hbefore as [|l before Hl _ IH]; cbn [app parse_header].
  - by rewrite Hheader.
  - by rewrite Hl.
Qed.

Lemma header_is_first_matching_line_witness :
  parse_updates_file
    (join ["@@old 1" +:+ nl; "@@new" +:+ nl; "@@end" +:+ nl;
           "file:  a.py " +:+ nl; "file: b.py" +:+ nl;
           "@@old 2" +:+ nl; "@@new" +:+ nl; "x" +:+ nl; "@@end" +:+ nl])
  = (strip "a.py ",
     parse_hunks
       (length ["file: b.py" +:+ nl; "@@old 2" +:+ nl; "@@new" +:+ nl;
                "x" +:+ nl; "@@end" +:+ nl])
       ["file: b.py" +:+ nl; "@@old 2" +:+ nl; "@@new" +:+ nl;
        "x" +:+ nl; "@@end" +:+ nl]).
Proof.
  apply (header_is_first_matching_line _ ("file:  a.py " +:+ nl) _
           ["@@old 1" +:+ nl; "@@new" +:+ nl; "@@end" +:+ nl]).
  - reflexivity.
  - repeat first [apply Forall_nil_2 | apply Forall_cons; split | reflexivity].
  - reflexivity.
Defined.

(** X11: between the records only record headers are looked for: lines
    that do not read as a record header, in front of a record or after the
    last one, are passed over. *)
Theorem lines_between_records_ignored (between rest : list string) :
  Forall (λ l, old_pattern (rstrip_nl l) = None) between →
  parse_hunks (length (between ++ rest)) (between ++ rest)
  = parse_hunks (length rest) rest.
Proof.
  induction 1 as [|l between Hl _ IH]; [done|].
  cbn [app length parse_hunks]. by rewrite Hl.
Qed.

Lemma lines_between_records_ignored_witness :
  parse_hunks
    (length ([nl; "a note" +:+ nl; "@@old" +:+ nl; "@@old x" +:+ nl]
               ++ ["@@old 4" +:+ nl; "@@new" +:+ nl; "@@end" +:+ nl]))
    ([nl; "a note" +:+ nl; "@@old" +:+ nl; "@@old x" +:+ nl]
       ++ ["@@old 4" +:+ nl; "@@new" +:+ nl; "@@end" +:+ nl])
  = parse_hunks (length ["@@old 4" +:+ nl; "@@new" +:+ nl; "@@end" +:+ nl])
      ["@@old 4" +:+ nl; "@@new" +:+ nl; "@@end" +:+ nl].
Proof.
  apply lines_between_records_ignored.
  repeat first [apply Forall_nil_2 | apply Forall_cons; split | reflexivity].
Defined.

Lemma collect_until_absent (marker : string) (lines : list string) :
  plain marker = true →
  Forall (λ l, proper_line l ∧ l ≠ marker +:+ nl) lines →
  collect_until marker lines = (lines, []).
Proof.
  intros Hmarker.
  induction 1 as [|l lines [(body & Hbody & [-> | ->]) Hne] _ IH];
    cbn [collect_until]; [done|..].
  - rewrite rstrip_nl_proper by done.
    destruct (String.eqb_spec body marker) as [->|_]; [done|].
    by rewrite IH.
  - rewrite rstrip_nl_crlf by done.
    destruct (String.eqb_spec (body +:+ String CR EmptyString) marker)
      as [Heq|_]; [by apply plain_not_CR_ended in Heq|].
    by rewrite IH.
Qed.

Lemma parse_hunks_groups_then (groups : list ChangeGroup.t)
  (rest : list string) :
  Forall representable groups →
  parse_hunks (length (flat_map group_lines groups ++ rest))
    (flat_map group_lines groups ++ rest)
  = (as_update <$> groups) ++ parse_hunks (length rest) rest.
Proof.
  induction 1 as [|g groups Hg _ IH]; cbn [flat_map]; [done|].
  rewrite <- app_assoc. by rewrite parse_hunks_group, IH.
Qed.

Lemma append_nil_r (s : string) : s +:+ EmptyString = s.
Proof. induction s as [|a s IH]; [done|]. by rewrite append_cons, IH. Qed.

(** The text of the serializer, followed by further proper lines, is read
    back as the groups and then whatever the further lines hold. *)
Lemma parse_format_then (file_path : string) (groups : list ChangeGroup.t)
  (more : list string) :
  plain_path file_path →
  Forall representable groups →
  Forall proper_line more →
  parse_updates_file (format_updates_file file_path groups +:+ join more)
  = (file_path, (as_update <$> groups) ++ parse_hunks (length more) more).
Proof.
  intros Hpath Hgroups Hmore.
  unfold parse_updates_file, format_updates_file.
  assert (join (("file: " +:+ file_path +:+ nl) :: flat_map group_parts groups)
          = join ((("file: " +:+ file_path) +:+ nl)
                    :: flat_map group_lines groups)) as ->.
  { simpl. by rewrite join_groups, append_assoc. }
  rewrite <- join_app.
  rewrite splitlines_join.
  2:{ apply Forall_app. split; [|done].
      apply Forall_cons. split.
      - apply proper_line_plain. unfold plain. rewrite all_chars_append.
        apply andb_true_iff. split; [done | apply Hpath].
      - apply Forall_flat_map. eapply Forall_impl; [exact Hgroups|].
        apply group_lines_proper. }
  cbn [app parse_header]. rewrite rstrip_nl_proper.
  2:{ unfold plain. rewrite all_chars_append.
      apply andb_true_iff. split; [done | apply Hpath]. }
  destruct (file_pattern_header file_path Hpath) as (g & -> & ->).
  by rewrite parse_hunks_groups_then.
Qed.

(** X12: a record whose end marker is missing runs to the end of the text:
    every line after its separator, headers of later records included, is
    taken as one of its new lines, and no further record is read. *)
Theorem unterminated_record_takes_the_rest (file_path : string)
  (groups : list ChangeGroup.t) (n : Z) (old_lines new_lines : list string) :
  plain_path file_path →
  Forall representable groups →
  0 ≤ n →
  Forall (λ l, proper_line l ∧ l ≠ "@@new" +:+ nl) old_lines →
  Forall (λ l, proper_line l ∧ l ≠ "@@end" +:+ nl) new_lines →
  parse_updates_file
    (format_updates_file file_path groups
     +:+ join ((("@@old " +:+ str_of_int n) +:+ nl) :: old_lines
               ++ ("@@new" +:+ nl) :: new_lines))
  = (file_path,
     (as_update <$> groups) ++ [UpdateHunk.mk n old_lines new_lines]).
Proof.
  intros Hpath Hgroups Hn Hold Hnew.
  assert (plain ("@@old " +:+ str_of_int n) = true) as Hplain.
  { unfold plain, str_of_int. rewrite all_chars_append.
    destruct (Z.ltb_spec n 0); [lia|].
    apply andb_true_iff. split; [done|].
    eapply all_chars_weaken; [apply digit_not_linebreak | apply digits_all]. }
  rewrite parse_format_then; [|done..|].
  2:{ apply Forall_cons. split; [by apply proper_line_plain|].
      apply Forall_app. split.
      - eapply Forall_impl; [exact Hold|]. by intros l [? _].
      - apply Forall_cons. split; [by apply (proper_line_plain "@@new")|].
        eapply Forall_impl; [exact Hnew|]. by intros l [? _]. }
  do 2 f_equal. cbn [length parse_hunks].
  rewrite rstrip_nl_proper, old_pattern_header by done.
  rewrite (collect_until_marker "@@new") by done.
  rewrite (collect_until_absent "@@end") by done.
  rewrite int_str_of_int by done.
  f_equal. by destruct (length (old_lines ++ _)).
Qed.

Lemma unterminated_record_takes_the_rest_witness :
  parse_updates_file
    (format_updates_file "f" [ChangeGroup.mk 1 ["a" +:+ nl] []]
     +:+ join ((("@@old " +:+ str_of_int 5) +:+ nl) :: ["b" +:+ nl]
               ++ ("@@new" +:+ nl)
                  :: ["c" +:+ nl; "@@old 9" +:+ nl; "@@new" +:+ nl]))
  = ("f",
     (as_update <$> [ChangeGroup.mk 1 ["a" +:+ nl] []])
     ++ [UpdateHunk.mk 5 ["b" +:+ nl]
           ["c" +:+ nl; "@@old 9" +:+ nl; "@@new" +:+ nl]]).
Proof.
  apply unterminated_record_takes_the_rest.
  - split; reflexivity.
  - repeat first [ apply Forall_nil_2 | apply Forall_cons; split
                 | apply proper_line_plain | reflexivity | discriminate
                 | lia | split ].
  - lia.
  - repeat first [ apply Forall_nil_2 | apply Forall_cons; split
                 | apply proper_line_plain | reflexivity | discriminate
                 | split ].
  - repeat first [ apply Forall_nil_2 | apply Forall_cons; split
                 | apply proper_line_plain | reflexivity | discriminate
                 | split ].
Defined.

(** ** The parser of unified diffs *)

Lemma collect_hunk_lines_length (lines : list string) :
  (length (collect_hunk_lines lines).2 ≤ length lines)%nat.
Proof.
  induction lines as [|l lines IH]; cbn [collect_hunk_lines]; [done|].
  destruct (hunk_pattern l); [done|].
  destruct (startswith_any _ l); [done|].
  destruct (collect_hunk_lines lines) as [got rest'].
  destruct (startswith_any _ l); cbn [snd length] in *; lia.
Qed.

Lemma parse_diff_lines_enough_fuel (fuel1 : nat) :
  ∀ (fuel2 : nat) (lines : list string),
    (length lines ≤ fuel1)%nat → (length lines ≤ fuel2)%nat →
    parse_diff_lines fuel1 lines = parse_diff_lines fuel2 lines.
Proof.
  induction fuel1 as [|fuel1 IH]; intros fuel2 lines H1 H2.
  - destruct lines; [|cbn [length] in H1; lia]. by destruct fuel2.
  - destruct lines as [|l rest]; [by destruct fuel2|].
    destruct fuel2 as [|fuel2]; [cbn [length] in H2; lia|].
    cbn [length] in H1, H2. cbn [parse_diff_lines].
    destruct (startswith_any _ l); [apply IH; lia|].
    destruct (hunk_pattern l) as [[[[g1 g2] g3] g4]|]; [|apply IH; lia].
    pose proof (collect_hunk_lines_length rest) as Hlen.
    destruct (collect_hunk_lines rest) as [hunk_lines rest'].
    cbn [snd] in Hlen. f_equal. apply IH; lia.
Qed.

Lemma parse_diff_lines_fuel (fuel : nat) (lines : list string) :
  (length lines ≤ fuel)%nat →
  parse_diff_lines fuel lines = parse_diff_lines (length lines) lines.
Proof. intros. by apply parse_diff_lines_enough_fuel. Qed.

(** *** What a hunk holds *)

Lemma collect_hunk_lines_marked (lines : list string) :
  Forall (λ l, startswith_any [" "; "-"; "+"; backslash] l = true
               ∧ startswith_any ["diff --git"; "--- "; "+++ "] l = false
               ∧ hunk_pattern l = None)
    (collect_hunk_lines lines).1.
Proof.
  induction lines as [|l lines IH]; cbn [collect_hunk_lines]; [done|].
  destruct (hunk_pattern l) eqn:Hpat; [done|].
  destruct (startswith_any ["diff --git"; "--- "; "+++ "] l) eqn:Hfile;
    [done|].
  destruct (collect_hunk_lines lines) as [got rest'].
  destruct (startswith_any [" "; "-"; "+"; backslash] l) eqn:Hmark; [|done].
  by constructor.
Qed.

Lemma parse_diff_lines_marked (fuel : nat) :
  ∀ lines : list string,
    Forall (λ h,
      Forall (λ l, startswith_any [" "; "-"; "+"; backslash] l = true
                   ∧ startswith_any ["diff --git"; "--- "; "+++ "] l = false
                   ∧ hunk_pattern l = None)
        (Hunk.lines h))
      (parse_diff_lines fuel lines).
Proof.
  induction fuel as [|fuel IH]; intros lines; cbn [parse_diff_lines]; [done|].
  destruct lines as [|l rest]; [done|].
  destruct (startswith_any _ l); [apply IH|].
  destruct (hunk_pattern l) as [[[[g1 g2] g3] g4]|]; [|apply IH].
  pose proof (collect_hunk_lines_marked rest) as Hmarked.
  destruct (collect_hunk_lines rest) as [hunk_lines rest'].
  constructor; [done | apply IH].
Qed.

(** X2: whatever the text, every line of every hunk read from it starts
    with one of the markers space, minus, plus and backslash; no line that
    starts a file header and no hunk header is ever among the lines of a
    hunk. *)
Theorem hunk_lines_are_marked (diff_text : string) (h : Hunk.t)
  (l : string) :
  h ∈ parse_unified_diff diff_text → l ∈ Hunk.lines h →
  startswith_any [" "; "-"; "+"; backslash] l = true
  ∧ startswith_any ["diff --git"; "--- "; "+++ "] l = false
  ∧ hunk_pattern l = None.
Proof.
  unfold parse_unified_diff. intros Hh Hl.
  pose proof (parse_diff_lines_marked (length (splitlines diff_text))
                (splitlines diff_text)) as Hall.
  rewrite Forall_forall in Hall. specialize (Hall h Hh).
  rewrite Forall_forall in Hall. by apply Hall.
Qed.

Lemma hunk_lines_are_marked_witness :
  startswith_any [" "; "-"; "+"; backslash] ("+b" +:+ nl) = true
  ∧ startswith_any ["diff --git"; "--- "; "+++ "] ("+b" +:+ nl) = false
  ∧ hunk_pattern ("+b" +:+ nl) = None.
Proof.
  apply (hunk_lines_are_marked
           (join ["--- a/f" +:+ nl; "+++ b/f" +:+ nl;
                  "@@ -1 +1,2 @@" +:+ nl; " a" +:+ nl; "+b" +:+ nl])
           (Hunk.mk 1 1 1 2 [" a" +:+ nl; "+b" +:+ nl])).
  - vm_compute. constructor.
  - vm_compute. constructor. constructor.
Defined.

(** *** The hunk header *)

Lemma literal_append (p s : string) : literal p (p +:+ s) = Some s.
Proof.
  induction p as [|a p IH]; [done|].
  rewrite append_cons. cbn [literal]. by rewrite Ascii.eqb_refl.
Qed.

(** When the longest run of the class is followed by a character that is
    not in the class and the continuation accepts that split, it is the
    match. *)
Lemma greedy_star_run {R} (cls : ascii → bool) (m r : string) :
  ∀ (k : string → string → option R) (x : R),
    all_chars cls m = true →
    (∀ a r', r = String a r' → cls a = false) →
    k m r = Some x →
    greedy_star cls (m +:+ r) k = Some x.
Proof.
  induction m as [|a m IH]; intros k x Hall Hhead Hk.
  - rewrite append_nil_l. destruct r as [|b r]; cbn [greedy_star]; [done|].
    by rewrite (Hhead b r eq_refl).
  - cbn [all_chars] in Hall. apply andb_true_iff in Hall as [Ha Hm].
    rewrite append_cons. cbn [greedy_star]. rewrite Ha.
    by rewrite (IH (λ m r, k (String a m) r) x Hm Hhead Hk).
Qed.

Lemma greedy_plus_run {R} (cls : ascii → bool) (m r : string)
  (k : string → string → option R) (x : R) :
  all_chars cls m = true → m ≠ EmptyString →
  (∀ a r', r = String a r' → cls a = false) →
  k m r = Some x →
  greedy_plus cls (m +:+ r) k = Some x.
Proof.
  destruct m as [|a m]; [done|]. intros Hall _ Hhead Hk.
  cbn [all_chars] in Hall. apply andb_true_iff in Hall as [Ha Hm].
  rewrite append_cons. unfold greedy_plus. rewrite Ha.
  by apply greedy_star_run.
Qed.

Lemma str_of_int_digits (n : Z) :
  0 ≤ n →
  all_chars is_digit (str_of_int n) = true ∧ str_of_int n ≠ EmptyString.
Proof.
  intros Hn. unfold str_of_int. destruct (Z.ltb_spec n 0); [lia|].
  split; [apply digits_all | apply digits_not_empty, to_uint_not_nil].
Qed.

Lemma count_text_head (count : Z) (rest : string) (a : ascii) (r' : string) :
  count_text count +:+ String " " rest = String a r' → is_digit a = false.
Proof.
  unfold count_text. destruct (count =? 1).
  - rewrite append_nil_l. by intros [= <- _].
  - rewrite !append_cons. by intros [= <- _].
Qed.

Lemma optional_count_text {R} (count : Z) (rest : string)
  (k : option string → string → option R) (x : R) :
  0 ≤ count →
  k (if count =? 1 then None else Some (str_of_int count)) (String " " rest)
  = Some x →
  optional_count (count_text count +:+ String " " rest) k = Some x.
Proof.
  intros Hcount Hk. unfold count_text, optional_count.
  destruct (count =? 1).
  - rewrite append_nil_l. cbn [literal].
    by replace (Ascii.eqb "," " ") with false by done.
  - rewrite !append_cons, append_nil_l. cbn [literal].
    rewrite Ascii.eqb_refl.
    destruct (str_of_int_digits count Hcount) as [Hdigits Hne].
    rewrite (greedy_plus_run is_digit (str_of_int count) (String " " rest)
               (λ g r, k (Some g) r) x); [done..| |done].
    by intros a r' [= <- _].
Qed.

Lemma hunk_pattern_header (h : Hunk.t) (trailer : string) :
  0 ≤ Hunk.old_start h → 0 ≤ Hunk.old_count h →
  0 ≤ Hunk.new_start h → 0 ≤ Hunk.new_count h →
  hunk_pattern (header_line h trailer)
  = Some (str_of_int (Hunk.old_start h),
          if Hunk.old_count h =? 1 then None
          else Some (str_of_int (Hunk.old_count h)),
          str_of_int (Hunk.new_start h),
          if Hunk.new_count h =? 1 then None
          else Some (str_of_int (Hunk.new_count h))).
Proof.
  intros Ha Hb Hc Hd. unfold header_line, hunk_pattern.
  rewrite literal_append.
  destruct (str_of_int_digits _ Ha) as [Hda Hna].
  destruct (str_of_int_digits _ Hc) as [Hdc Hnc].
  rewrite !(append_cons " "), !(append_cons "+"), !(append_cons "@"),
    !append_nil_l.
  apply greedy_plus_run; [done | done | apply count_text_head |].
  apply optional_count_text; [done|].
  cbn [literal]. rewrite !Ascii.eqb_refl.
  apply greedy_plus_run; [done | done | apply count_text_head |].
  apply optional_count_text; [done|].
  cbn [literal]. by rewrite !Ascii.eqb_refl.
Qed.

Lemma count_of_text (count : Z) :
  0 ≤ count →
  count_of (if count =? 1 then None else Some (str_of_int count)) = count.
Proof.
  intros Hcount. destruct (Z.eqb_spec count 1) as [->|_]; [done|].
  by apply int_str_of_int.
Qed.

(** *** Lines of a hunk and lines that are passed over *)

Lemma marked_not_header (l : string) :
  startswith_any [" "; "-"; "+"; backslash] l = true → hunk_pattern l = None.
Proof.
  destruct l as [|a l]; [done|]. unfold hunk_pattern. cbn [literal].
  destruct (Ascii.eqb_spec "@" a) as [<-|]; [|done].
  intros Hmark. by vm_compute in Hmark.
Qed.

Lemma collect_hunk_lines_body (body rest : list string) :
  Forall diff_line body →
  collect_hunk_lines rest = ([], rest) →
  collect_hunk_lines (body ++ rest) = (body, rest).
Proof.
  intros Hbody Hrest.
  induction Hbody as [|l body (_ & Hmark & Hfile) _ IH]; [done|].
  cbn [app collect_hunk_lines].
  by rewrite (marked_not_header l Hmark), Hfile, IH, Hmark.
Qed.

Lemma parse_diff_lines_skip (before rest : list string) :
  Forall (λ l, hunk_pattern l = None) before →
  parse_diff_lines (length (before ++ rest)) (before ++ rest)
  = parse_diff_lines (length rest) rest.
Proof.
  induction 1 as [|l before Hl _ IH]; [done|].
  cbn [app length parse_diff_lines]. rewrite Hl.
  by destruct (startswith_any _ l).
Qed.

Lemma header_line_proper (h : Hunk.t) (trailer : string) :
  0 ≤ Hunk.old_start h → 0 ≤ Hunk.old_count h →
  0 ≤ Hunk.new_start h → 0 ≤ Hunk.new_count h →
  plain trailer = true →
  proper_line (header_line h trailer).
Proof.
  intros Ha Hb Hc Hd Ht.
  assert (∀ n, 0 ≤ n → plain (str_of_int n) = true) as Hnum.
  { intros n Hn. destruct (str_of_int_digits n Hn) as [Hdigits _].
    eapply all_chars_weaken; [apply digit_not_linebreak | done]. }
  assert (∀ n, 0 ≤ n → plain (count_text n) = true) as Hcount.
  { intros n Hn. unfold count_text. destruct (n =? 1); [done|].
    unfold plain. rewrite all_chars_append. apply andb_true_iff.
    split; [done | by apply Hnum]. }
  exists ("@@ -" +:+ str_of_int (Hunk.old_start h)
          +:+ count_text (Hunk.old_count h)
          +:+ " +" +:+ str_of_int (Hunk.new_start h)
          +:+ count_text (Hunk.new_count h) +:+ " @@" +:+ trailer).
  split.
  - unfold plain in *. rewrite !all_chars_append.
    rewrite (Hnum _ Ha), (Hnum _ Hc), (Hcount _ Hb), (Hcount _ Hd), Ht.
    done.
  - left. unfold header_line. by rewrite !append_assoc.
Qed.

Lemma header_line_not_file_header (h : Hunk.t) (trailer : string) :
  startswith_any ["diff --git"; "index "; "--- "; "+++ "]
    (header_line h trailer) = false.
Proof. unfold header_line. by rewrite !(append_cons "@"). Qed.

(** *** Reading back the hunks of a diff *)

Lemma parse_diff_lines_section (section : Hunk.t * string)
  (rest : list string) :
  well_formed section →
  collect_hunk_lines rest = ([], rest) →
  parse_diff_lines (length (hunk_text section ++ rest))
    (hunk_text section ++ rest)
  = section.1 :: parse_diff_lines (length rest) rest.
Proof.
  destruct section as [h trailer].
  intros (Ha & Hb & Hc & Hd & Ht & Hlines) Hrest. cbn [fst snd] in *.
  unfold hunk_text. cbn [fst snd app length parse_diff_lines].
  rewrite header_line_not_file_header, hunk_pattern_header by done.
  rewrite collect_hunk_lines_body by done.
  rewrite !int_str_of_int, !count_of_text by done.
  destruct h as [a b c d lines]. cbn [Hunk.old_start Hunk.old_count
    Hunk.new_start Hunk.new_count Hunk.lines]. f_equal.
  apply parse_diff_lines_fuel. rewrite length_app. lia.
Qed.

Lemma collect_hunk_lines_at_header (section : Hunk.t * string)
  (rest : list string) :
  well_formed section →
  collect_hunk_lines (hunk_text section ++ rest)
  = ([], hunk_text section ++ rest).
Proof.
  intros (Ha & Hb & Hc & Hd & _). unfold hunk_text.
  cbn [app collect_hunk_lines]. by rewrite hunk_pattern_header.
Qed.

Lemma parse_diff_lines_sections (sections : list (Hunk.t * string)) :
  Forall well_formed sections →
  parse_diff_lines (length (flat_map hunk_text sections))
    (flat_map hunk_text sections)
  = fst <$> sections.
Proof.
  induction 1 as [|section sections Hsection Hrest IH]; [done|].
  cbn [flat_map fmap list_fmap].
  rewrite parse_diff_lines_section, IH; [done.. |].
  destruct Hrest as [|section' sections' Hsection' _]; [done|].
  cbn [flat_map]. by apply collect_hunk_lines_at_header.
Qed.

Lemma hunk_text_proper (section : Hunk.t * string) :
  well_formed section → Forall proper_line (hunk_text section).
Proof.
  intros (Ha & Hb & Hc & Hd & Ht & Hlines). unfold hunk_text.
  constructor; [by apply header_line_proper|].
  eapply Forall_impl; [exact Hlines|]. by intros l [? _].
Qed.

(** X1: a diff is read back as the hunks it was written from. The text is
    any lines that are not hunk headers (the file header), and then for
    each hunk its header line, with a count of 1 left out as git does and
    any text after the second [@@], followed by its lines; every number
    is not negative and every line of a hunk is a proper line that starts
    with a marker and not with the first four characters of a file header
    line. *)
Theorem parse_unified_diff_round_trip (preamble : list string)
  (sections : list (Hunk.t * string)) :
  Forall (λ l, proper_line l ∧ hunk_pattern l = None) preamble →
  Forall well_formed sections →
  parse_unified_diff (join (preamble ++ flat_map hunk_text sections))
  = fst <$> sections.
Proof.
  intros Hpre Hsections. unfold parse_unified_diff.
  rewrite splitlines_join.
  2:{ apply Forall_app. split.
      - eapply Forall_impl; [exact Hpre|]. by intros l [? _].
      - apply Forall_flat_map. eapply Forall_impl; [exact Hsections|].
        apply hunk_text_proper. }
  rewrite parse_diff_lines_skip.
  - by apply parse_diff_lines_sections.
  - eapply Forall_impl; [exact Hpre|]. by intros l [_ ?].
Qed.

Lemma parse_unified_diff_round_trip_witness :
  parse_unified_diff
    (join (["diff --git a/f b/f" +:+ nl; "index 1a2b..3c4d 100644" +:+ nl;
            "--- a/f" +:+ nl; "+++ b/f" +:+ nl]
           ++ flat_map hunk_text
                [(Hunk.mk 3 1 3 2 ["-a" +:+ nl; "+b" +:+ nl; "+c" +:+ nl],
                  " def f():");
                 (Hunk.mk 10 3 11 2
                    [" x" +:+ nl; "-y" +:+ nl; " z" +:+ nl;
                     (backslash +:+ " No newline at end of file") +:+ nl],
                  EmptyString)]))
  = fst <$>
      [(Hunk.mk 3 1 3 2 ["-a" +:+ nl; "+b" +:+ nl; "+c" +:+ nl],
        " def f():");
       (Hunk.mk 10 3 11 2
          [" x" +:+ nl; "-y" +:+ nl; " z" +:+ nl;
           (backslash +:+ " No newline at end of file") +:+ nl],
        EmptyString)].
Proof.
  apply parse_unified_diff_round_trip.
  - repeat first [ apply Forall_nil_2 | apply Forall_cons; split
                 | apply proper_line_plain | reflexivity | split ].
  - repeat first [ apply Forall_nil_2 | apply Forall_cons; split
                 | apply proper_line_plain | reflexivity
                 | progress cbn [fst snd Hunk.old_start Hunk.old_count
                                 Hunk.new_start Hunk.new_count Hunk.lines]
                 | lia | split ].
Defined.

(** X3: a line of a hunk that starts with the first four characters of a
    file header line, as a removed line does whose text starts with two
    minus signs and a space, ends the hunk: that line and the lines of the
    hunk after it are dropped. *)
Theorem file_header_look_alike_cuts_hunk (section : Hunk.t * string)
  (look_alike : string) (rest : list string) :
  well_formed section →
  proper_line look_alike →
  startswith_any ["--- "; "+++ "] look_alike = true →
  Forall (λ l, proper_line l ∧ hunk_pattern l = None) rest →
  parse_unified_diff (join (hunk_text section ++ look_alike :: rest))
  = [section.1].
Proof.
  intros Hsection Hproper Hlook Hrest. unfold parse_unified_diff.
  assert (hunk_pattern look_alike = None) as Hpat.
  { destruct look_alike as [|a l]; [done|].
    unfold hunk_pattern. cbn [literal].
    destruct (Ascii.eqb_spec "@" a) as [<-|]; [|done].
    by vm_compute in Hlook. }
  assert (startswith_any ["diff --git"; "--- "; "+++ "] look_alike = true)
    as Hstop.
  { unfold startswith_any in *. cbn [existsb] in *.
    rewrite Hlook. apply orb_true_r. }
  rewrite splitlines_join.
  2:{ apply Forall_app. split; [by apply hunk_text_proper|].
      constructor; [done|].
      eapply Forall_impl; [exact Hrest|]. by intros l [? _]. }
  rewrite parse_diff_lines_section; [|done|].
  2:{ cbn [collect_hunk_lines]. by rewrite Hpat, Hstop. }
  f_equal.
  rewrite <- (app_nil_r (look_alike :: rest)).
  rewrite parse_diff_lines_skip; [done|].
  constructor; [done|].
  eapply Forall_impl; [exact Hrest|]. by intros l [_ ?].
Qed.

Lemma file_header_look_alike_cuts_hunk_witness :
  parse_unified_diff
    (join (hunk_text (Hunk.mk 1 3 1 2 [" a" +:+ nl], EmptyString)
           ++ ("--- a comment in SQL" +:+ nl)
              :: [" b" +:+ nl; "+c" +:+ nl]))
  = [(Hunk.mk 1 3 1 2 [" a" +:+ nl], EmptyString).1].
Proof.
  apply file_header_look_alike_cuts_hunk.
  - repeat first [ apply Forall_nil_2 | apply Forall_cons; split
                 | apply proper_line_plain | reflexivity
                 | progress cbn [fst snd Hunk.old_start Hunk.old_count
                                 Hunk.new_start Hunk.new_count Hunk.lines]
                 | lia | split ].
  - by apply proper_line_plain.
  - reflexivity.
  - repeat first [ apply Forall_nil_2 | apply Forall_cons; split
                 | apply proper_line_plain | reflexivity | split ].
Defined.

(** ** The commands *)

Section CommandProperties.

Variable read_text : string → option string.
Variable git_diff : string → string.
Variable git_show : string → Z * string * string.
Variable generate_patch : string → list string → list string → string.
Variable git_apply_cached : string → Z * string.

Let apply_run (updates_file : string) : run :=
  cmd_apply read_text git_show generate_patch git_apply_cached updates_file.

(** Settles a goal about the events of a run that is given in full. *)
Local Ltac by_trace :=
  cbn [after fst snd truthy negb];
  by repeat match goal with
         | |- _ ∧ _ => split
         | |- _ ↔ _ => split
         | |- _ → _ => intro
         | H : _ ∈ _ :: _ |- _ => apply elem_of_cons in H as [H|H]
         | H : _ ∈ [] |- _ => by apply elem_of_nil in H
         | H : Unlink _ = Unlink _ |- _ => injection H as ->
         | H : @eq event _ _ |- _ => discriminate H
         | H : @eq status _ _ |- _ => discriminate H
         | |- _ ∈ _ => by repeat first [apply list_elem_of_here
                                       | apply list_elem_of_further]
         | |- _ => done
         end.

(** The call of [apply_hunks] in [cmd_apply], on list values. *)
Lemma apply_hunks_in_cmd_apply (old_lines : list string)
  (hunks : list UpdateHunk.t) :
  ∃ σ' : heap,
    apply_hunks {[old_lines_loc := old_lines]} old_lines_loc hunks
    = (σ', match replay old_lines 0 hunks with
           | Ok _ => Ok (fresh (dom ({[old_lines_loc := old_lines]} : heap)))
           | Err e => Err e
           end)
    ∧ deref σ' old_lines_loc = old_lines
    ∧ ∀ res, replay old_lines 0 hunks = Ok res →
             deref σ' (fresh (dom ({[old_lines_loc := old_lines]} : heap)))
             = res.
Proof.
  destruct (apply_hunks_replay {[old_lines_loc := old_lines]} old_lines_loc
              hunks) as (cur' & Heq & Hres).
  replace (deref {[old_lines_loc := old_lines]} old_lines_loc)
    with old_lines in Heq, Hres by done.
  eexists. split; [exact Heq|]. split.
  - unfold deref. rewrite lookup_insert_ne; [done|].
    intros Hfresh.
    pose proof (fresh_not_allocated {[old_lines_loc := old_lines]}) as Hnone.
    rewrite Hfresh in Hnone. done.
  - intros res Hrep. rewrite deref_insert. by apply Hres.
Qed.

(** X28: [cmd_apply] deletes the updates file exactly when it returns: after
    every failure, whether of the validator, of [git show], of the
    replayer or of [git apply --cached], the file is still there. It
    deletes no other file. *)
Theorem cmd_apply_deletes_file_iff_success (updates_file : string) :
  (Unlink updates_file ∈ (apply_run updates_file).1
   ↔ (apply_run updates_file).2 = Returned)
  ∧ ∀ path, Unlink path ∈ (apply_run updates_file).1 → path = updates_file.
Proof.
  unfold apply_run, cmd_apply.
  destruct (read_text updates_file) as [content|]; [|by_trace].
  destruct (parse_updates_file content) as [file_path hunks].
  destruct (negb (truthy hunks)); [by_trace|].
  destruct (validate_hunks (sort_hunks hunks)); [|by_trace].
  destruct (run_git_show_index git_show file_path) as [old_content|e];
    [|by_trace].
  destruct (apply_hunks _ old_lines_loc (sort_hunks hunks)) as [σ' [r|e]];
    [|by_trace].
  destruct (run_git_apply_cached git_apply_cached _) as [[] stderr];
    by_trace.
Qed.

(** X29: [cmd_apply] hands a patch to [git apply --cached] only after the
    document had records, the validator accepted them in sorted order,
    [git show] gave the content of the index and the replayer accepted
    every record; the patch is then the one [generate_patch] makes from
    the lines of the index content, as they were before the replay, and
    the result of the replay. *)
Theorem cmd_apply_stages_checked_patch (updates_file patch : string) :
  GitApplyCached patch ∈ (apply_run updates_file).1 →
  ∃ (content file_path old_content : string) (hunks : list UpdateHunk.t)
    (new_lines : list string),
    read_text updates_file = Some content
    ∧ parse_updates_file content = (file_path, hunks)
    ∧ hunks ≠ []
    ∧ validate_hunks (sort_hunks hunks) = Ok tt
    ∧ run_git_show_index git_show file_path = inl old_content
    ∧ replay (splitlines old_content) 0 (sort_hunks hunks) = Ok new_lines
    ∧ patch
      = generate_patch file_path (splitlines old_content) new_lines.
Proof.
  unfold apply_run, cmd_apply.
  destruct (read_text updates_file) as [content|]; [|by_trace].
  destruct (parse_updates_file content) as [file_path hunks] eqn:Hparse.
  destruct hunks as [|h hunks]; [by_trace|].
  cbn [truthy negb].
  destruct (validate_hunks (sort_hunks (h :: hunks))) as [[]|e] eqn:Hvalid;
    [|by_trace].
  destruct (run_git_show_index git_show file_path) as [old_content|e]
    eqn:Hshow; [|by_trace].
  destruct (apply_hunks_in_cmd_apply (splitlines old_content)
              (sort_hunks (h :: hunks))) as (σ' & -> & Hold & Hnew).
  destruct (replay (splitlines old_content) 0 (sort_hunks (h :: hunks)))
    as [new_lines|e] eqn:Hreplay; [|by_trace].
  rewrite Hold, (Hnew new_lines eq_refl).
  assert (∀ r : run,
            GitApplyCached patch
              ∈ (after (ReadText updates_file)
                   (after (GitShow file_path)
                      (after (GeneratePatch file_path (splitlines old_content)
                                new_lines)
                         (after (GitApplyCached
                                   (generate_patch file_path
                                      (splitlines old_content) new_lines))
                            r)))).1 →
            GitApplyCached patch ∉ r.1 →
            patch = generate_patch file_path (splitlines old_content)
                      new_lines) as Hpatch.
  { intros r Hin Hnot. cbn [after fst snd] in Hin.
    repeat (apply elem_of_cons in Hin as [Hin|Hin]); try done.
    by injection Hin. }
  intros Hin. exists content, file_path, old_content, (h :: hunks), new_lines.
  repeat split; [done..|].
  eapply Hpatch; [exact Hin|].
  destruct (run_git_apply_cached git_apply_cached _) as [[] stderr];
    cbn [after fst snd]; intros Hbad;
    repeat (apply elem_of_cons in Hbad as [Hbad|Hbad]);
    by first [discriminate Hbad | apply elem_of_nil in Hbad].
Qed.

End CommandProperties.

Lemma cmd_apply_stages_checked_patch_witness :
  ∃ (content file_path old_content : string) (hunks : list UpdateHunk.t)
    (new_lines : list string),
    (λ _ : string,
       Some (format_updates_file "f"
               [ChangeGroup.mk 1 ["a" +:+ nl] ["b" +:+ nl]])) "f.updates"
    = Some content
    ∧ parse_updates_file content = (file_path, hunks)
    ∧ hunks ≠ []
    ∧ validate_hunks (sort_hunks hunks) = Ok tt
    ∧ run_git_show_index (λ _ : string, (0, "a" +:+ nl, EmptyString))
        file_path = inl old_content
    ∧ replay (splitlines old_content) 0 (sort_hunks hunks) = Ok new_lines
    ∧ "b" +:+ nl
      = (λ (_ : string) (_ new_lines : list string), join new_lines)
          file_path (splitlines old_content) new_lines.
Proof.
  apply (cmd_apply_stages_checked_patch
           (λ _, Some (format_updates_file "f"
                         [ChangeGroup.mk 1 ["a" +:+ nl] ["b" +:+ nl]]))
           (λ _, (0, "a" +:+ nl, EmptyString))
           (λ _ _ new_lines, join new_lines)
           (λ _, (0, EmptyString))
           "f.updates" ("b" +:+ nl)).
  vm_compute.
  repeat first [apply list_elem_of_here | apply list_elem_of_further].
Defined.

(** ** From the diff to the index *)

Lemma tail1_carried (marker : ascii) (l : string) :
  is_linebreak marker = false →
  proper_line l →
  startswith (String marker EmptyString) l = true →
  proper_line (tail1 l) ∧ l = String marker (tail1 l).
Proof.
  intros Hmarker (body & Hplain & Hl) Hstart.
  destruct body as [|a body].
  - destruct Hl as [-> | ->]; cbn [startswith] in Hstart;
      apply andb_true_iff in Hstart as [Heq _];
      apply Ascii.eqb_eq in Heq; subst marker; done.
  - assert (l = String a (tail1 l) ∧ proper_line (tail1 l)) as [Heq Hproper].
    { unfold plain in Hplain. cbn [all_chars] in Hplain.
      apply andb_true_iff in Hplain as [_ Hplain].
      destruct Hl as [-> | ->]; rewrite append_cons; cbn [tail1];
        (split; [done|]); exists body; auto. }
    rewrite Heq in Hstart. cbn [startswith] in Hstart.
    apply andb_true_iff in Hstart as [->%Ascii.eqb_eq _]. done.
Qed.

Lemma finalize_carrying (st : Split.state) :
  carrying st → carrying (finalize st).
Proof.
  intros (Hline & Hcur & Hold & Hnew & Hgroups). unfold finalize.
  destruct (truthy (Split.old_lines st) || truthy (Split.new_lines st));
    [|done].
  repeat split; cbn [Split.old_line Split.current_old_line Split.old_lines
                     Split.new_lines Split.groups]; try done.
  apply Forall_app. split; [done|]. by apply Forall_singleton.
Qed.

Lemma split_step_carrying (st : Split.state) (l : string) :
  carried l → carrying st → carrying (split_step st l).
Proof.
  intros (Hproper & Hsep & Hend) Hst. unfold split_step.
  destruct (startswith " " l).
  { apply finalize_carrying in Hst.
    destruct Hst as (Hline & Hcur & Hold & Hnew & Hgroups).
    repeat split; cbn [Split.old_line Split.current_old_line Split.old_lines
                       Split.new_lines Split.groups]; first [done | lia]. }
  destruct Hst as (Hline & Hcur & Hold & Hnew & Hgroups).
  destruct (startswith "-" l) eqn:Hrem.
  { destruct (tail1_carried "-" l eq_refl Hproper Hrem) as [Htail Heq].
    repeat split; cbn [Split.old_line Split.current_old_line Split.old_lines
                       Split.new_lines Split.groups]; try done.
    - by destruct (negb _ && negb _).
    - lia.
    - apply Forall_app. split; [done|]. apply Forall_singleton.
      split; [done|]. intros Hbad. apply Hsep. by rewrite Heq, Hbad. }
  destruct (startswith "+" l) eqn:Hadd; [|done].
  destruct (tail1_carried "+" l eq_refl Hproper Hadd) as [Htail Heq].
  repeat split; cbn [Split.old_line Split.current_old_line Split.old_lines
                     Split.new_lines Split.groups]; try done.
  apply Forall_app. split; [done|]. apply Forall_singleton.
  split; [done|]. intros Hbad. apply Hend. by rewrite Heq, Hbad.
Qed.

Lemma split_groups_representable (hunk : Hunk.t) :
  0 ≤ Hunk.old_start hunk →
  Forall carried (Hunk.lines hunk) →
  Forall representable (split_into_change_groups hunk).
Proof.
  intros Hstart Hlines. unfold split_into_change_groups.
  assert (carrying (split_init hunk)) as Hinit by (by repeat split).
  revert Hinit. generalize (split_init hunk).
  induction Hlines as [|l lines Hl _ IH]; intros st Hst; cbn [fold_left].
  - by apply finalize_carrying in Hst as (_ & _ & _ & _ & Hgroups).
  - by apply IH, split_step_carrying.
Qed.

Lemma parse_diff_lines_not_negative (fuel : nat) :
  ∀ lines : list string,
    Forall (λ h, 0 ≤ Hunk.old_start h) (parse_diff_lines fuel lines).
Proof.
  induction fuel as [|fuel IH]; intros lines; cbn [parse_diff_lines]; [done|].
  destruct lines as [|l rest]; [done|].
  destruct (startswith_any _ l); [apply IH|].
  destruct (hunk_pattern l) as [[[[g1 g2] g3] g4]|]; [|apply IH].
  destruct (collect_hunk_lines rest) as [hunk_lines rest'].
  constructor; [apply int_not_negative | apply IH].
Qed.

(** X27: what [cmd_updates] prints is a text that [parse_updates_file]
    reads back in full: it is the serialized form of the groups of the
    hunks of the diff, and when every line of every hunk is a proper line
    that is neither the removed line reading as the separator nor the
    added line reading as the terminator, the edit format can carry every
    one of these groups. *)
Theorem cmd_updates_prints_representable_groups (git_diff : string → string)
  (file_path : string) :
  Forall (λ h, Forall carried (Hunk.lines h))
    (parse_unified_diff (git_diff file_path)) →
  ∃ groups : list ChangeGroup.t,
    cmd_updates git_diff file_path
    = ([GitDiff file_path; PrintOut (format_updates_file file_path groups)],
       Returned)
    ∧ groups
      = flat_map split_into_change_groups
          (parse_unified_diff (git_diff file_path))
    ∧ Forall representable groups.
Proof.
  intros Hlines. eexists. split; [reflexivity|]. split; [reflexivity|].
  apply Forall_flat_map.
  pose proof (parse_diff_lines_not_negative
                (length (splitlines (git_diff file_path)))
                (splitlines (git_diff file_path))) as Hstart.
  fold (parse_unified_diff (git_diff file_path)) in Hstart.
  unfold run_git_diff.
  induction Hlines as [|h hunks Hh _ IH]; [done|].
  apply Forall_cons in Hstart as [Hh0 Hstart].
  constructor; [by apply split_groups_representable | by apply IH].
Qed.

Lemma cmd_updates_prints_representable_groups_witness :
  ∃ groups : list ChangeGroup.t,
    cmd_updates
      (λ _, join ["--- a/f" +:+ nl; "+++ b/f" +:+ nl;
                  "@@ -1,2 +1,2 @@" +:+ nl; " a" +:+ nl; "-b" +:+ nl;
                  "+c" +:+ nl]) "f"
    = ([GitDiff "f"; PrintOut (format_updates_file "f" groups)], Returned)
    ∧ groups
      = flat_map split_into_change_groups
          (parse_unified_diff
             ((λ _, join ["--- a/f" +:+ nl; "+++ b/f" +:+ nl;
                          "@@ -1,2 +1,2 @@" +:+ nl; " a" +:+ nl; "-b" +:+ nl;
                          "+c" +:+ nl]) "f"))
    ∧ Forall representable groups.
Proof.
  apply cmd_updates_prints_representable_groups.
  assert (parse_unified_diff
            (join ["--- a/f" +:+ nl; "+++ b/f" +:+ nl;
                   "@@ -1,2 +1,2 @@" +:+ nl; " a" +:+ nl; "-b" +:+ nl;
                   "+c" +:+ nl])
          = [Hunk.mk 1 2 1 2 [" a" +:+ nl; "-b" +:+ nl; "+c" +:+ nl]]) as ->
    by reflexivity.
  repeat first [ apply Forall_nil_2 | apply Forall_cons; split
               | apply proper_line_plain | reflexivity | discriminate
               | progress cbn [Hunk.lines] | split ].
Defined.

Section Pipeline.

Variable read_text : string → option string.
Variable git_diff : string → string.
Variable git_show : string → Z * string * string.
Variable generate_patch : string → list string → list string → string.
Variable git_apply_cached : string → Z * string.

(** X30: the two commands together stage the change of a hunk. Let the
    path be plain text with no white space around it; let the diff of the
    file hold one hunk, of carried lines, in which every run of changed
    lines starts with a removed line and which removes at least one line;
    let the updates file hold what [cmd_updates] printed, unedited; and
    let [git show] return with code 0 a content in which the old side of
    the hunk is found at the line the hunk names, a line number from 1 to
    one past the last line. Then [cmd_apply] hands to
    [git apply --cached] the patch from the index content to that content
    with the old side of the hunk replaced by its new side. *)
Theorem updates_then_apply_stages_the_hunk
  (file_path updates_file output old_content stderr : string)
  (hunk : Hunk.t) :
  let base := splitlines old_content in
  plain_path file_path →
  parse_unified_diff (git_diff file_path) = [hunk] →
  Forall carried (Hunk.lines hunk) →
  removed_first false (Hunk.lines hunk) = true →
  removed_text (Hunk.lines hunk) ≠ [] →
  (cmd_updates git_diff file_path).1 = [GitDiff file_path; PrintOut output] →
  read_text updates_file = Some output →
  git_show file_path = (0, old_content, stderr) →
  1 ≤ Hunk.old_start hunk ≤ len base + 1 →
  segment base (Hunk.old_start hunk) (len (old_side (Hunk.lines hunk)))
  = old_side (Hunk.lines hunk) →
  GitApplyCached
    (generate_patch file_path base
       (segment base 1 (Hunk.old_start hunk - 1)
        ++ new_side (Hunk.lines hunk)
        ++ drop (Z.to_nat (Hunk.old_start hunk - 1
                           + len (old_side (Hunk.lines hunk)))) base))
  ∈ (cmd_apply read_text git_show generate_patch git_apply_cached
       updates_file).1.
Proof.
  intros base Hpath Hdiff Hcarried Hrf Hremoved Hout Hread Hshow Hstart Hseg.
  set (old_lines := splitlines old_content) in *. subst base.
  unfold cmd_updates, run_git_diff in Hout. rewrite Hdiff in Hout.
  cbn [flat_map after fst snd] in Hout. rewrite app_nil_r in Hout.
  injection Hout as <-.
  assert (Forall representable (split_into_change_groups hunk)) as Hrep
    by (apply split_groups_representable; [lia | done]).
  pose proof (parse_format_then file_path (split_into_change_groups hunk) []
                Hpath Hrep ltac:(done)) as Hparse.
  change (join []) with EmptyString in Hparse.
  rewrite append_nil_r in Hparse. cbn [length parse_hunks] in Hparse.
  rewrite app_nil_r in Hparse.
  destruct (replay_groups_of_hunk old_lines hunk Hstart Hrf Hseg)
    as [Hplaced Hreplay].
  destruct (well_placed_valid old_lines _ 1 Hplaced) as [Hsorted Hvalid].
  assert (split_into_change_groups hunk ≠ []) as Hgroups.
  { intros Hnil. apply Hremoved.
    destruct (fold_split_olds_news (Hunk.lines hunk) (split_init hunk))
      as [Ho _].
    destruct (finalize_olds_news
                (fold_left split_step (Hunk.lines hunk) (split_init hunk)))
      as [Hfo _].
    destruct (finalize_buffers
                (fold_left split_step (Hunk.lines hunk) (split_init hunk)))
      as [Hbo _].
    unfold split_into_change_groups in Hnil.
    unfold olds in Hfo, Ho. rewrite Hnil, Hbo in Hfo.
    rewrite <- Hfo in Ho. symmetry. exact Ho. }
  unfold cmd_apply. rewrite Hread, Hparse.
  destruct (split_into_change_groups hunk) as [|g groups] eqn:Hsplit;
    [done|].
  cbn [fmap list_fmap truthy negb]. cbn [fmap list_fmap] in Hsorted, Hvalid.
  rewrite Hsorted, Hvalid.
  unfold run_git_show_index. rewrite Hshow.
  rewrite bool_decide_eq_false_2 by (intros Hne; by apply Hne).
  fold old_lines.
  destruct (apply_hunks_in_cmd_apply old_lines
              (as_update g :: (as_update <$> groups)))
    as (σ' & -> & Hold & Hnew).
  cbn [fmap list_fmap] in Hreplay. rewrite Hreplay.
  rewrite Hold, (Hnew _ Hreplay).
  destruct (run_git_apply_cached git_apply_cached _) as [[] stderr'];
    cbn [after fst snd];
    repeat first [apply list_elem_of_here | apply list_elem_of_further].
Qed.

End Pipeline.

Lemma updates_then_apply_stages_the_hunk_witness :
  GitApplyCached (join ["a" +:+ nl; "c" +:+ nl])
  ∈ (cmd_apply
       (λ _, Some (format_updates_file "f"
                     [ChangeGroup.mk 2 ["b" +:+ nl] ["c" +:+ nl]]))
       (λ _, (0, join ["a" +:+ nl; "b" +:+ nl], EmptyString))
       (λ _ _ new_lines, join new_lines)
       (λ _, (0, EmptyString))
       "f.updates").1.
Proof.
  refine (updates_then_apply_stages_the_hunk
            (λ _, Some (format_updates_file "f"
                          [ChangeGroup.mk 2 ["b" +:+ nl] ["c" +:+ nl]]))
            (λ _, join ["--- a/f" +:+ nl; "+++ b/f" +:+ nl;
                        "@@ -1,2 +1,2 @@" +:+ nl; " a" +:+ nl; "-b" +:+ nl;
                        "+c" +:+ nl])
            (λ _, (0, join ["a" +:+ nl; "b" +:+ nl], EmptyString))
            (λ _ _ new_lines, join new_lines)
            (λ _, (0, EmptyString))
            "f" "f.updates"
            (format_updates_file "f"
               [ChangeGroup.mk 2 ["b" +:+ nl] ["c" +:+ nl]])
            (join ["a" +:+ nl; "b" +:+ nl]) EmptyString
            (Hunk.mk 1 2 1 2 [" a" +:+ nl; "-b" +:+ nl; "+c" +:+ nl])
            _ _ _ _ _ _ _ _ _ _).
  - split; reflexivity.
  - reflexivity.
  - repeat first [ apply Forall_nil_2 | apply Forall_cons; split
                 | apply proper_line_plain | reflexivity | discriminate
                 | split ].
  - reflexivity.
  - discriminate.
  - reflexivity.
  - reflexivity.
  - reflexivity.
  - unfold len. simpl. lia.
  - reflexivity.
Defined.

(** ** The replayer on well placed records: instances *)

Lemma apply_hunks_well_placed_witness :
  ∃ (σ' : heap) (r : loc) (res : list string),
    apply_hunks {[1%positive := ["a"; "b"; "c"]]} 1%positive
      [UpdateHunk.mk 2 ["b"] ["x"; "y"]] = (σ', Ok r)
    ∧ σ' !! r = Some res
    ∧ res = rebuild ["a"; "b"; "c"] 1 [UpdateHunk.mk 2 ["b"] ["x"; "y"]]
    ∧ len res
      = len ["a"; "b"; "c"] + net_delta [UpdateHunk.mk 2 ["b"] ["x"; "y"]]
    ∧ ∀ p : Z,
        1 ≤ p ≤ len ["a"; "b"; "c"] →
        untouched p [UpdateHunk.mk 2 ["b"] ["x"; "y"]] →
        res !! Z.to_nat (p + shift p [UpdateHunk.mk 2 ["b"] ["x"; "y"]] - 1)
        = ["a"; "b"; "c"] !! Z.to_nat (p - 1).
Proof.
  apply apply_hunks_well_placed.
  - reflexivity.
  - simpl. unfold len. simpl. repeat split; first [lia | reflexivity].
Defined.

Lemma same_anchor_insertions_in_order_witness :
  ∃ (σ' : heap) (r : loc),
    apply_hunks {[1%positive := ["a"; "b"; "c"]]} 1%positive
      (sort_hunks [UpdateHunk.mk 2 [] ["x"]; UpdateHunk.mk 2 [] ["y"]])
    = (σ', Ok r)
    ∧ σ' !! r
      = Some (take (Z.to_nat (2 - 1)) ["a"; "b"; "c"] ++ ["x"] ++ ["y"]
                ++ drop (Z.to_nat (2 - 1)) ["a"; "b"; "c"]).
Proof.
  apply same_anchor_insertions_in_order.
  - reflexivity.
  - unfold len. simpl. lia.
Defined.

(** ** The replayer: stale content *)

(** The slice the loop reads for a record with old lines at computed
    position 0 never has as many lines as the record. *)
Lemma py_slice_at_zero (cur : list string) (o : string)
  (olds : list string) :
  py_slice cur (0 - 1) (0 - 1 + len (o :: olds)) ≠ o :: olds.
Proof.
  intros Hcmp. apply (f_equal length) in Hcmp. revert Hcmp.
  unfold py_slice, slice_bound, len. rewrite length_take, length_drop.
  cbn [length]. change (0 - 1 <? 0) with true. cbv iota.
  destruct (Z.ltb_spec (0 - 1 + Z.of_nat (S (length olds))) 0); lia.
Qed.

(** Sorted records without conflict remove, before a record with old
    lines, no more lines than lie between the lowest line number and the
    line number of that record. *)
Lemma net_delta_before (pre : list UpdateHunk.t) :
  ∀ (lo : Z) (h : UpdateHunk.t) (post : list UpdateHunk.t),
    lo ≤ UpdateHunk.old_line h →
    UpdateHunk.old_lines h ≠ [] →
    StronglySorted by_old_line (pre ++ h :: post) →
    ForallOrdPairs (λ a b, overlap a b = false) (pre ++ h :: post) →
    Forall (λ r, UpdateHunk.old_lines r ≠ [] → lo ≤ UpdateHunk.old_line r)
      pre →
    lo - UpdateHunk.old_line h ≤ net_delta pre.
Proof.
  assert (∀ a b : UpdateHunk.t,
            UpdateHunk.old_lines a ≠ [] → UpdateHunk.old_lines b ≠ [] →
            by_old_line a b → overlap a b = false →
            UpdateHunk.old_line a + len (UpdateHunk.old_lines a)
            ≤ UpdateHunk.old_line b) as Hafter.
  { intros a b Ha Hb Hle Hov. unfold overlap, by_old_line in *.
    rewrite !range_end_eq in Hov.
    assert (0 < len (UpdateHunk.old_lines b))
      by (destruct (UpdateHunk.old_lines b); [done | unfold len; simpl; lia]).
    apply andb_false_iff in Hov as [Hov|Hov]; apply Z.leb_gt in Hov; lia. }
  induction pre as [|a pre IH]; intros lo h post Hlo Hold Hsorted Hvalid Hpre.
  - cbn [net_delta fold_right]. lia.
  - cbn [app] in Hsorted, Hvalid.
    apply StronglySorted_inv in Hsorted as [Hsorted Hle].
    inversion Hvalid as [|? ? Hfree Hvalid']; subst.
    apply Forall_cons in Hpre as [Ha Hpre].
    rewrite Forall_forall in Hle, Hfree.
    assert (h ∈ pre ++ h :: post) as Hin
      by (apply elem_of_app; right; apply list_elem_of_here).
    change (net_delta (a :: pre))
      with (len (UpdateHunk.new_lines a) - len (UpdateHunk.old_lines a)
            + net_delta pre).
    assert (0 ≤ len (UpdateHunk.new_lines a)) by (unfold len; lia).
    destruct (UpdateHunk.old_lines a) as [|o olds] eqn:Holds.
    + change (len (@nil string)) with 0.
      specialize (IH lo h post Hlo Hold Hsorted Hvalid' Hpre). lia.
    + rewrite <- Holds in *.
      assert (UpdateHunk.old_lines a ≠ []) as Hna by (by rewrite Holds).
      specialize (Ha Hna).
      pose proof (Hafter a h Hna Hold (Hle h Hin) (Hfree h Hin)) as Hah.
      specialize (IH (UpdateHunk.old_line a + len (UpdateHunk.old_lines a))
                    h post Hah Hold Hsorted Hvalid').
      assert (Forall (λ r, UpdateHunk.old_lines r ≠ [] →
                           UpdateHunk.old_line a
                           + len (UpdateHunk.old_lines a)
                           ≤ UpdateHunk.old_line r) pre) as Hpre'.
      { apply Forall_forall. intros b Hb Hnb.
        assert (b ∈ pre ++ h :: post) as Hb' by (apply elem_of_app; by left).
        by apply Hafter; [| |apply Hle|apply Hfree]. }
      specialize (IH Hpre'). lia.
Qed.

(** C4, as stated, for sorted records that the validator would reject:
    the first record removes base lines 1 to 3, the second names line 2,
    inside that range, so its computed position is -1, where there is no
    line; the loop reads the slice from index -2, which counts from the
    end, finds the old line there and returns a result. *)
Lemma unvalidated_records_escape_stale_detection :
  ¬ ∀ (σ : heap) (lines : loc) (base mid : list string)
      (pre post : list UpdateHunk.t) (h : UpdateHunk.t),
      σ !! lines = Some base →
      StronglySorted by_old_line (pre ++ h :: post) →
      replay base 0 pre = Ok mid →
      UpdateHunk.old_lines h ≠ [] →
      ¬ found_at mid (UpdateHunk.old_line h + net_delta pre)
          (UpdateHunk.old_lines h) →
      ∃ (σ' : heap) (actual : list string),
        apply_hunks σ lines (pre ++ h :: post)
        = (σ', Err (StaleContent (UpdateHunk.old_line h + net_delta pre)
                      (UpdateHunk.old_lines h) actual)).
Proof.
  intros Hclaim.
  destruct (Hclaim {[1%positive := ["a"; "b"; "c"; "d"; "e"]]} 1%positive
              ["a"; "b"; "c"; "d"; "e"] ["d"; "e"]
              [UpdateHunk.mk 1 ["a"; "b"; "c"] []] []
              (UpdateHunk.mk 2 ["d"] ["y"]))
    as (σ' & actual & Hcall).
  - reflexivity.
  - repeat first [ apply SSorted_nil | apply SSorted_cons
                 | apply Forall_nil_2 | apply Forall_cons; split
                 | unfold by_old_line; simpl; lia ].
  - reflexivity.
  - discriminate.
  - intros [Hpos _]. vm_compute in Hpos. by apply Hpos.
  - vm_compute in Hcall. discriminate Hcall.
Qed.

(** C4, amended. For records in ascending order, with line numbers that
    are not negative, that the validator accepts: when the records before
    [h] replay successfully and leave the content [mid], and [h] has old
    lines that are not the lines of [mid] at the computed position
    [old_line + offset], counted from 1, [apply_hunks] fails with a
    stale-content error that carries the computed position, the expected
    lines and the lines found; the caller's list object is as it was, and
    no location of a result is returned. *)
Theorem stale_content_detected (σ : heap) (lines : loc)
  (base mid : list string) (pre post : list UpdateHunk.t) (h : UpdateHunk.t) :
  σ !! lines = Some base →
  StronglySorted by_old_line (pre ++ h :: post) →
  Forall (λ r, 0 ≤ UpdateHunk.old_line r) (pre ++ h :: post) →
  validate_hunks (pre ++ h :: post) = Ok tt →
  replay base 0 pre = Ok mid →
  UpdateHunk.old_lines h ≠ [] →
  let adjusted_line := UpdateHunk.old_line h + net_delta pre in
  ¬ found_at mid adjusted_line (UpdateHunk.old_lines h) →
  ∃ (σ' : heap) (actual : list string),
    apply_hunks σ lines (pre ++ h :: post)
    = (σ', Err (StaleContent adjusted_line (UpdateHunk.old_lines h) actual))
    ∧ actual ≠ UpdateHunk.old_lines h
    ∧ (1 ≤ adjusted_line →
       actual = segment mid adjusted_line (len (UpdateHunk.old_lines h)))
    ∧ σ' !! lines = Some base.
Proof.
  intros Hbase Hsorted Hnonneg Hvalid Hpre Hold adjusted_line Hstale.
  assert (0 ≤ adjusted_line) as Hpos.
  { apply validate_hunks_ok in Hvalid.
    apply Forall_app in Hnonneg as [Hnpre Hnrest].
    apply Forall_cons in Hnrest as [Hnh _].
    pose proof (net_delta_before pre 0 h post Hnh Hold Hsorted Hvalid) as Hnd.
    unfold adjusted_line.
    assert (0 - UpdateHunk.old_line h ≤ net_delta pre); [|lia].
    apply Hnd. eapply Forall_impl; [exact Hnpre|]. by intros r Hr _. }
  assert (0 ≤ len (UpdateHunk.old_lines h)) as Hlen by (unfold len; lia).
  assert (py_slice mid (adjusted_line - 1)
            (adjusted_line - 1 + len (UpdateHunk.old_lines h))
          ≠ UpdateHunk.old_lines h) as Hne.
  { destruct (decide (adjusted_line = 0)) as [->|Hnz].
    - destruct (UpdateHunk.old_lines h) as [|o olds]; [done|].
      apply py_slice_at_zero.
    - rewrite py_slice_segment by lia.
      intros Hseg. apply Hstale. split; [lia | done]. }
  destruct (stale_record_raises σ lines base mid pre post h Hbase Hpre Hold
              Hne) as (σ' & Hcall & Hkept).
  exists σ', (py_slice mid (adjusted_line - 1)
                (adjusted_line - 1 + len (UpdateHunk.old_lines h))).
  repeat split; [exact Hcall | exact Hne | | exact Hkept].
  intros Hone. by apply py_slice_segment.
Qed.

Lemma stale_content_detected_witness :
  ∃ (σ' : heap) (actual : list string),
    apply_hunks {[1%positive := ["line 1"; "line 2"; "line 3"]]} 1%positive
      ([UpdateHunk.mk 1 ["line 1"] ["one"; "more"]]
         ++ UpdateHunk.mk 2 ["wrong line"] ["new line"] :: [])
    = (σ', Err (StaleContent
                  (UpdateHunk.old_line
                     (UpdateHunk.mk 2 ["wrong line"] ["new line"])
                   + net_delta [UpdateHunk.mk 1 ["line 1"] ["one"; "more"]])
                  (UpdateHunk.old_lines
                     (UpdateHunk.mk 2 ["wrong line"] ["new line"]))
                  actual))
    ∧ actual
      ≠ UpdateHunk.old_lines (UpdateHunk.mk 2 ["wrong line"] ["new line"])
    ∧ (1 ≤ UpdateHunk.old_line (UpdateHunk.mk 2 ["wrong line"] ["new line"])
           + net_delta [UpdateHunk.mk 1 ["line 1"] ["one"; "more"]] →
       actual
       = segment ["one"; "more"; "line 2"; "line 3"]
           (UpdateHunk.old_line (UpdateHunk.mk 2 ["wrong line"] ["new line"])
            + net_delta [UpdateHunk.mk 1 ["line 1"] ["one"; "more"]])
           (len (UpdateHunk.old_lines
                   (UpdateHunk.mk 2 ["wrong line"] ["new line"]))))
    ∧ σ' !! 1%positive = Some ["line 1"; "line 2"; "line 3"].
Proof.
  apply (stale_content_detected {[1%positive := ["line 1"; "line 2"; "line 3"]]}
           1%positive ["line 1"; "line 2"; "line 3"]
           ["one"; "more"; "line 2"; "line 3"]
           [UpdateHunk.mk 1 ["line 1"] ["one"; "more"]] []
           (UpdateHunk.mk 2 ["wrong line"] ["new line"])).
  - reflexivity.
  - repeat first [ apply SSorted_nil | apply SSorted_cons
                 | apply Forall_nil_2 | apply Forall_cons; split
                 | unfold by_old_line; simpl; lia ].
  - repeat first [ apply Forall_nil_2 | apply Forall_cons; split
                 | simpl; lia ].
  - reflexivity.
  - reflexivity.
  - discriminate.
  - intros [_ Hseg]. vm_compute in Hseg. discriminate Hseg.
Defined.
